(** * PathFindHer: safe-route selection and the local pin store

    A shallow embedding of [services/geminiService.ts], of the
    local-storage branch of [services/pinService.ts], of [calculateRoute]
    in [App.tsx] and of the place list of [components/SafetyAdvisor.tsx].

    JavaScript numbers are read as real numbers: [Math.sin], [Math.cos],
    [Math.sqrt], [Math.asin] are the functions of the standard library of
    reals, and [Math.atan2], [Math.ceil], [Math.floor] and the remainder
    operator are defined below from their ECMAScript descriptions.  Rounding
    error, NaN and the infinities are outside the model.

    Objects that are compared by identity (the pins held in a [Set<Pin>])
    are modelled by references into a store. *)

From Stdlib Require Import Reals ZArith List String Bool Lra Lia.
From Stdlib Require Import Zfloor DecimalString Permutation Sorted.
From Stdlib Require Import NArith.
Import ListNotations.

Open Scope R_scope.

(* ================================================================= *)
(** ** types.ts *)

Record LatLng := mkLatLng { lat : R; lng : R }.

Inductive SafetyLevel := SAFE | CAUTION | DANGER.

Definition SafetyLevel_eqb (a b : SafetyLevel) : bool :=
  match a, b with
  | SAFE, SAFE | CAUTION, CAUTION | DANGER, DANGER => true
  | _, _ => false
  end.

Module Pin.
Record t := mk {
  id : string;
  lat : R;
  lng : R;
  safetyLevel : SafetyLevel;
  description : string;
  timestamp : Z;
  userId : string
}.
End Pin.

(** A [Pin] has [lat] and [lng], so the source passes pins where a [LatLng]
    is expected. *)
Definition Pin_LatLng (p : Pin.t) : LatLng :=
  {| lat := Pin.lat p; lng := Pin.lng p |}.
Coercion Pin_LatLng : Pin.t >-> LatLng.

Module RouteResponse.
Record t := mk {
  route : list LatLng;
  duration : option string;
  safetyNote : option string
}.
End RouteResponse.

(* ================================================================= *)
(** ** The JavaScript operations used by the services *)

Definition ltb (x y : R) : bool := if Rlt_dec x y then true else false.
Definition gtb (x y : R) : bool := ltb y x.

(** [Math.atan2(y, x)]: the angle of the point [(x, y)], in (-PI, PI]. *)
Definition Math_atan2 (y x : R) : R :=
  if Rlt_dec 0 x then atan (y / x)
  else if Rlt_dec x 0 then
    (if Rle_dec 0 y then atan (y / x) + PI else atan (y / x) - PI)
  else
    (if Rlt_dec 0 y then PI / 2 else if Rlt_dec y 0 then - (PI / 2) else 0).

Definition Math_ceil (x : R) : Z := Zceil x.
Definition Math_floor (x : R) : Z := Zfloor x.

(** The remainder [x % m] on numbers: the quotient is truncated towards
    zero, so the result takes the sign of [x]. *)
Definition trunc (q : R) : Z := if Rle_dec 0 q then Zfloor q else Zceil q.
Definition js_rem (x m : R) : R := x - m * IZR (trunc (x / m)).

(** Template-literal rendering of an integral number. *)
Definition string_of_Z (z : Z) : string := NilZero.string_of_int (Z.to_int z).

(** Insertion into a [Set] held in insertion order: an element already
    present is not added again. *)
Definition Set_add (r : nat) (s : list nat) : list nat :=
  if in_dec Nat.eq_dec r s then s else s ++ [r].

(** [Array.prototype.sort(compareFn)]: stable, ascending for [compareFn]. *)
Fixpoint sort_insert {A} (cmp : A -> A -> R) (x : A) (l : list A) : list A :=
  match l with
  | [] => [x]
  | y :: l' => if Rlt_dec 0 (cmp x y) then y :: sort_insert cmp x l'
               else x :: l
  end.

Definition Array_sort {A} (cmp : A -> A -> R) (l : list A) : list A :=
  fold_right (sort_insert cmp) [] l.

(* ================================================================= *)
(** ** geminiService.ts: helpers *)

Definition getDistanceMeters (p1 p2 : LatLng) : R :=
  let R_ := 6371e3 in
  let phi1 := lat p1 * PI / 180 in
  let phi2 := lat p2 * PI / 180 in
  let dphi := (lat p2 - lat p1) * PI / 180 in
  let dlam := (lng p2 - lng p1) * PI / 180 in
  let a := sin (dphi / 2) * sin (dphi / 2) +
           cos phi1 * cos phi2 *
           sin (dlam / 2) * sin (dlam / 2) in
  let c := 2 * Math_atan2 (sqrt a) (sqrt (1 - a)) in
  R_ * c.

Definition getBearing (start end_ : LatLng) : R :=
  let startLat := lat start * PI / 180 in
  let startLng := lng start * PI / 180 in
  let destLat := lat end_ * PI / 180 in
  let destLng := lng end_ * PI / 180 in
  let y := sin (destLng - startLng) * cos destLat in
  let x := cos startLat * sin destLat -
           sin startLat * cos destLat * cos (destLng - startLng) in
  let brng := Math_atan2 y x in
  js_rem (brng * 180 / PI + 360) 360.

Definition getDestinationPoint (start : LatLng) (distanceMeters bearing : R)
  : LatLng :=
  let R_ := 6371e3 in
  let angDist := distanceMeters / R_ in
  let brng := bearing * PI / 180 in
  let lat1 := lat start * PI / 180 in
  let lon1 := lng start * PI / 180 in
  let lat2 := asin (sin lat1 * cos angDist +
                    cos lat1 * sin angDist * cos brng) in
  let lon2 := lon1 + Math_atan2 (sin brng * sin angDist * cos lat1)
                                (cos angDist - sin lat1 * sin lat2) in
  {| lat := lat2 * 180 / PI; lng := lon2 * 180 / PI |}.

Definition formatDuration (seconds : R) : string :=
  let adjustedSeconds := seconds * 1.2 in
  let totalMinutes := Math_ceil (adjustedSeconds / 60) in
  if (totalMinutes <? 60)%Z then
    (string_of_Z totalMinutes ++ " min walk")%string
  else
    let hours := Math_floor (IZR totalMinutes / 60) in
    let mins := Z.rem totalMinutes 60 in
    (string_of_Z hours ++ " hr " ++ string_of_Z mins ++ " min walk")%string.

(** The pins arrive as an array of object references; [h] is the store
    the references point into. *)
Definition ref := nat.
Definition Store := ref -> Pin.t.

Definition DANGER_THRESHOLD_METERS : R := 150.
Definition IGNORE_TERMINAL_DISTANCE : R := 80.

(** The body of the inner loop: the test made on one pin of [dangerPins]
    for one point of the path. *)
Definition visitPin (h : Store) (startLoc endLoc : LatLng) (point : LatLng)
    (conflicts : list ref) (pin : ref) : list ref :=
  let distToPin := getDistanceMeters point (h pin) in
  if ltb distToPin DANGER_THRESHOLD_METERS then
    let distToStart := getDistanceMeters (h pin) startLoc in
    let distToEnd := getDistanceMeters (h pin) endLoc in
    if gtb distToStart IGNORE_TERMINAL_DISTANCE
       && gtb distToEnd IGNORE_TERMINAL_DISTANCE
    then Set_add pin conflicts
    else conflicts
  else conflicts.

Definition checkRouteConflicts (h : Store) (routePath : list LatLng)
    (pins : list ref) (startLoc endLoc : LatLng) : list ref :=
  let dangerPins :=
    filter (fun p => SafetyLevel_eqb (Pin.safetyLevel (h p)) DANGER) pins in
  fold_left (fun conflicts point =>
    fold_left (visitPin h startLoc endLoc point) dangerPins conflicts)
    routePath [].

(** A pin is in conflict with a path point: the point is closer than the
    danger threshold and the pin is outside the terminal radius of both
    ends. *)
Definition isConflict (h : Store) (startLoc endLoc : LatLng)
    (point : LatLng) (pin : ref) : Prop :=
  getDistanceMeters point (h pin) < 150 /\
  getDistanceMeters (h pin) startLoc > 80 /\
  getDistanceMeters (h pin) endLoc > 80.

(* ================================================================= *)
(** ** External collaborators and effects *)

(** A route of the routing provider: [geometry.coordinates] holds
    [[lng, lat]] pairs. *)
Record OSRMRoute := mkOSRMRoute {
  coordinates : list (R * R);
  duration : R
}.

(** The body of a routing response; [routes] may be missing. *)
Record OSRMData := mkOSRMData { routes : option (list OSRMRoute) }.

(** The request URL, as the coordinate sequence it encodes. *)
Definition Url := list LatLng.

(** The prompt sent to the narrative service, as the values interpolated
    into it. *)
Record Prompt := mkPrompt {
  prompt_start : LatLng;
  prompt_destinationName : string;
  prompt_duration : string;
  prompt_isDetour : bool;
  prompt_dangerCount : nat
}.

Record GenerateContentResponse := mkResponse { text : option string }.

(** What [JSON.parse] makes of a text.  A [safetyNote] property, when the
    object has one, is taken to be a string. *)
Inductive Json :=
| JNull
| JObject (safetyNote : option string)
| JOther.

(** The outside world of one route calculation.  Each service answers a
    request by what the request holds; [None] is a rejected promise
    ([fetch], [response.json], [generateContent]) or a thrown
    [SyntaxError] ([JSON_parse]). *)
Record World := mkWorld {
  fetch : Url -> option OSRMData;
  generateContent : Prompt -> option GenerateContentResponse;
  JSON_parse : string -> option Json
}.

(** What is thrown: [new Error(message)] or the reason of a rejected
    promise. *)
Inductive Exn :=
| Error (message : string)
| Rejected.

Inductive Event :=
| EvFetch (url : Url)
| EvGenerate (p : Prompt)
| EvConsoleError (label : string).

Inductive Outcome (A : Type) :=
| Returns (a : A)
| Throws (e : Exn).
Arguments Returns {A} a.
Arguments Throws {A} e.

(** An asynchronous computation: it extends the trace of external events
    and either returns or throws. *)
Definition Async (A : Type) := list Event -> Outcome A * list Event.

Definition ret {A} (a : A) : Async A := fun t => (Returns a, t).

Definition bind {A B} (m : Async A) (k : A -> Async B) : Async B :=
  fun t => match m t with
           | (Returns a, t') => k a t'
           | (Throws e, t') => (Throws e, t')
           end.

Definition throw {A} (e : Exn) : Async A := fun t => (Throws e, t).

Definition try_catch {A} (m : Async A) (handler : Exn -> Async A) : Async A :=
  fun t => match m t with
           | (Returns a, t') => (Returns a, t')
           | (Throws e, t') => handler e t'
           end.

Definition emit (e : Event) : Async unit := fun t => (Returns tt, t ++ [e]).

Declare Scope async_scope.
Delimit Scope async_scope with async.
Notation "x <- m ;; k" := (bind m (fun x => k))
  (at level 61, m at next level, right associativity) : async_scope.
Notation "m ;; k" := (bind m (fun _ => k))
  (at level 61, right associativity) : async_scope.
Open Scope async_scope.

Definition console_error (label : string) : Async unit :=
  emit (EvConsoleError label).

(** [await fetch(url)] followed by [await response.json()]. *)
Definition fetch_json (w : World) (url : Url) : Async OSRMData :=
  emit (EvFetch url) ;;
  match fetch w url with
  | Some data => ret data
  | None => throw Rejected
  end.

Definition ai_generateContent (w : World) (p : Prompt)
  : Async GenerateContentResponse :=
  emit (EvGenerate p) ;;
  match generateContent w p with
  | Some r => ret r
  | None => throw Rejected
  end.

Definition fetchOSRMRoute (w : World) (start dest : LatLng)
    (waypoint : option LatLng) : Async (option OSRMRoute) :=
  let url := [start] in
  let url := match waypoint with
             | Some wp => url ++ [wp]
             | None => url
             end in
  let url := url ++ [dest] in
  try_catch
    (data <- fetch_json w url ;;
     match routes data with
     | None | Some [] => ret None
     | Some (r :: _) => ret (Some r)
     end)
    (fun e => console_error "OSRM Fetch Error" ;; ret None).

(* ================================================================= *)
(** ** geminiService.ts: getSafeRoute *)

Inductive RouteType :=
| direct
| left_ (offset : R)
| right_ (offset : R).

(** The object built for every scored route. *)
Record Candidate := mkCandidate {
  coords : list LatLng;
  data : OSRMRoute;
  conflicts : list ref;
  type : RouteType;
  score : R
}.

Definition toLatLng (c : R * R) : LatLng := {| lat := snd c; lng := fst c |}.

Definition offsets : list R := [300; 600; 1000; 1500].

Definition isDirect (t : RouteType) : bool :=
  match t with direct => true | _ => false end.

Definition nonEmpty (s : string) : bool :=
  match s with EmptyString => false | _ => true end.

Definition STAY_AWARE : string := "Stay aware of your surroundings.".
Definition STRICT_WARNING : string :=
  "Warning: Safe path not possible. This route still passes near reported danger zones.".
Definition APOLOGY : string :=
  "Could not calculate safe route. Please check your internet connection.".

Section Planner.
Variable w : World.
Variable h : Store.
Variables start destinationLoc : LatLng.
Variable destinationName : string.
Variable pins : list ref.

(** The loop that fills [routePromises]: two requests per offset, left
    then right, started in this order. *)
Fixpoint routePromises (conflictPin : LatLng) (bearing : R)
    (offsets : list R) : Async (list (option OSRMRoute * RouteType)) :=
  match offsets with
  | [] => ret []
  | offset :: rest =>
      let leftWp := getDestinationPoint conflictPin offset (bearing - 90) in
      l <- fetchOSRMRoute w start destinationLoc (Some leftWp) ;;
      let rightWp := getDestinationPoint conflictPin offset (bearing + 90) in
      r <- fetchOSRMRoute w start destinationLoc (Some rightWp) ;;
      rs <- routePromises conflictPin bearing rest ;;
      ret ((l, left_ offset) :: (r, right_ offset) :: rs)
  end.

Definition evaluate (data : option OSRMRoute) (type : RouteType)
  : option Candidate :=
  match data with
  | None => None
  | Some data =>
      let coords := map toLatLng (coordinates data) in
      let conflicts :=
        checkRouteConflicts h coords pins start destinationLoc in
      let score := INR (List.length conflicts) * 1000000 + duration data in
      Some (mkCandidate coords data conflicts type score)
  end.

(** [results.forEach(res => ...)]: the candidates pushed after the
    direct one. *)
Fixpoint pushResults (results : list (option OSRMRoute * RouteType))
  : list Candidate :=
  match results with
  | [] => []
  | (res_data, res_type) :: rest =>
      match res_data with
      | Some _ =>
          match evaluate res_data res_type with
          | Some evalResult => evalResult :: pushResults rest
          | None => pushResults rest
          end
      | None => pushResults rest
      end
  end.

Definition directCandidate (directRouteData : OSRMRoute) : Candidate :=
  let directCoordinates := map toLatLng (coordinates directRouteData) in
  let directConflicts :=
    checkRouteConflicts h directCoordinates pins start destinationLoc in
  mkCandidate directCoordinates directRouteData directConflicts direct
    (INR (List.length directConflicts) * 1000000 + duration directRouteData).

(** Steps 1 and 2: the direct route, then the detour candidates when the
    direct route has conflicts. *)
Definition selectRoute : Async Candidate :=
  directRouteData <- fetchOSRMRoute w start destinationLoc None ;;
  match directRouteData with
  | None => throw (Error "No route found")
  | Some directRouteData =>
      let selectedRoute := directCandidate directRouteData in
      match conflicts selectedRoute with
      | [] => ret selectedRoute
      | conflictPin :: _ =>
          let bearing := getBearing start destinationLoc in
          results <- routePromises (h conflictPin) bearing offsets ;;
          let candidates := selectedRoute :: pushResults results in
          let candidates :=
            Array_sort (fun a b => score a - score b) candidates in
          ret (hd selectedRoute candidates)
      end
  end.

(** [json.safetyNote] inside the inner [try]: a property read on [null]
    throws, and the [catch] ignores it. *)
Definition parsedNote (txt : string) : option string :=
  match JSON_parse w txt with
  | Some (JObject (Some note)) => if nonEmpty note then Some note else None
  | _ => None
  end.

(** Steps 4 and 5: formatting and the safety note. *)
Definition describeRoute (selectedRoute : Candidate)
  : Async RouteResponse.t :=
  let duration := formatDuration (duration (data selectedRoute)) in
  let dangerCount := List.length (conflicts selectedRoute) in
  let isDetour := negb (isDirect (type selectedRoute)) in
  let prompt :=
    mkPrompt start destinationName duration isDetour dangerCount in
  aiResponse <- ai_generateContent w prompt ;;
  let safetyNote := STAY_AWARE in
  let safetyNote :=
    match text aiResponse with
    | Some txt =>
        if nonEmpty txt then
          match parsedNote txt with
          | Some note => note
          | None => safetyNote
          end
        else safetyNote
    | None => safetyNote
    end in
  let safetyNote :=
    if (0 <? dangerCount)%nat && String.eqb safetyNote STAY_AWARE
    then STRICT_WARNING
    else safetyNote in
  ret (RouteResponse.mk (coords selectedRoute) (Some duration)
                        (Some safetyNote)).

(** The body of the [try] block. *)
Definition tryBlock : Async RouteResponse.t :=
  selectedRoute <- selectRoute ;;
  describeRoute selectedRoute.

Definition getSafeRoute : Async RouteResponse.t :=
  try_catch tryBlock
    (fun error =>
       console_error "Route generation failed:" ;;
       ret (RouteResponse.mk [] None (Some APOLOGY))).

End Planner.

(* ================================================================= *)
(** ** pinService.ts: the local-storage backend *)

Definition FIREBASE_CONFIG_apiKey : string := "YOUR_API_KEY".
Definition USE_FIREBASE : bool :=
  negb (String.eqb FIREBASE_CONFIG_apiKey "YOUR_API_KEY").

(** The item stored under [STORAGE_KEY], by what [getItem] and [JSON.parse]
    make of it. *)
Inductive StorageItem :=
| ItemMissing
| ItemEmpty
| ItemUnparsable
| ItemPins (pins : list Pin.t).

(** [localStorage] and the number of ['local-storage-update'] events
    dispatched so far. *)
Record Browser := mkBrowser {
  localStorage : StorageItem;
  dispatched : nat
}.

Definition getLocalPinsSync (b : Browser) : list Pin.t :=
  match localStorage b with
  | ItemPins pins => pins
  | ItemMissing | ItemEmpty | ItemUnparsable => []
  end.

(** The submitted pin: a [Pin] without [id] and [timestamp]. *)
Record PinInput := mkPinInput {
  in_lat : R;
  in_lng : R;
  in_safetyLevel : SafetyLevel;
  in_description : string;
  in_userId : string
}.

(** [randomId] stands for [Math.random().toString(36).substring(2, 9)] and
    [now] for [Date.now()].  Without a database handle the cloud branch is
    never entered. *)
Definition addPin (pin : PinInput) (randomId : string) (now : Z)
    (b : Browser) : Pin.t * Browser :=
  let db : option unit := None in
  let newPin :=
    Pin.mk randomId (in_lat pin) (in_lng pin) (in_safetyLevel pin)
           (in_description pin) now (in_userId pin) in
  match USE_FIREBASE, db with
  | true, Some _ => (newPin, b)
  | _, _ =>
      let currentPins := getLocalPinsSync b in
      let updatedPins := currentPins ++ [newPin] in
      (newPin, mkBrowser (ItemPins updatedPins) (S (dispatched b)))
  end.

Definition removePin (pinId : string) (b : Browser) : Browser :=
  let db : option unit := None in
  match USE_FIREBASE, db with
  | true, Some _ => b
  | _, _ =>
      let currentPins := getLocalPinsSync b in
      let updatedPins :=
        filter (fun p => negb (String.eqb (Pin.id p) pinId)) currentPins in
      mkBrowser (ItemPins updatedPins) (S (dispatched b))
  end.

(** The relation between the stored list before and after the removal of
    the pins named [pinId]: pins with that id are dropped, every other pin
    stays where it was relative to the others. *)
Inductive RemovedById (pinId : string) : list Pin.t -> list Pin.t -> Prop :=
| Removed_nil : RemovedById pinId [] []
| Removed_drop p l l' :
    Pin.id p = pinId -> RemovedById pinId l l' ->
    RemovedById pinId (p :: l) l'
| Removed_keep p l l' :
    Pin.id p <> pinId -> RemovedById pinId l l' ->
    RemovedById pinId (p :: l) (p :: l').

(* ================================================================= *)
(** ** Vocabulary of the properties *)

(** [c] is the stable minimum of [l] for [key]: the earliest element of
    [l] among those of lowest key. *)
Definition StableMin {A} (key : A -> R) (c : A) (l : list A) : Prop :=
  exists before after,
    l = before ++ c :: after /\
    (forall x, In x before -> key c < key x) /\
    (forall x, In x after -> key c <= key x).

(** What [fetchOSRMRoute] resolves to for a request, and the events the
    request leaves in the trace. *)
Definition firstRoute (w : World) (url : Url) : option OSRMRoute :=
  match fetch w url with
  | Some data =>
      match routes data with
      | Some (r :: _) => Some r
      | _ => None
      end
  | None => None
  end.

Definition fetchEvents (w : World) (url : Url) : list Event :=
  EvFetch url ::
  match fetch w url with
  | Some _ => []
  | None => [EvConsoleError "OSRM Fetch Error"]
  end.

(** The detour waypoints in generation order, each with the tag of the
    candidate requested through it. *)
Definition detourPlan (hazard : LatLng) (bearing : R)
  : list (RouteType * LatLng) :=
  [ (left_ 300, getDestinationPoint hazard 300 (bearing - 90));
    (right_ 300, getDestinationPoint hazard 300 (bearing + 90));
    (left_ 600, getDestinationPoint hazard 600 (bearing - 90));
    (right_ 600, getDestinationPoint hazard 600 (bearing + 90));
    (left_ 1000, getDestinationPoint hazard 1000 (bearing - 90));
    (right_ 1000, getDestinationPoint hazard 1000 (bearing + 90));
    (left_ 1500, getDestinationPoint hazard 1500 (bearing - 90));
    (right_ 1500, getDestinationPoint hazard 1500 (bearing + 90)) ].

(** The candidate made of the route returned for one planned detour, if
    one is returned. *)
Definition detourCandidate (w : World) (h : Store)
    (start destinationLoc : LatLng) (pins : list ref)
    (entry : RouteType * LatLng) : list Candidate :=
  match firstRoute w [start; snd entry; destinationLoc] with
  | Some r =>
      let coords := map toLatLng (coordinates r) in
      let conflicts :=
        checkRouteConflicts h coords pins start destinationLoc in
      [mkCandidate coords r conflicts (fst entry)
         (INR (List.length conflicts) * 1000000 + duration r)]
  | None => []
  end.

(** The merged candidate list in generation order: the direct route, then
    the returned detours. *)
Definition mergedCandidates (w : World) (h : Store)
    (start destinationLoc : LatLng) (pins : list ref)
    (directRouteData : OSRMRoute) (focus : ref) : list Candidate :=
  directCandidate h start destinationLoc pins directRouteData ::
  flat_map (detourCandidate w h start destinationLoc pins)
           (detourPlan (h focus) (getBearing start destinationLoc)).

(** The plan for a list of offsets: left then right for each offset, and
    the events its requests leave in the trace. *)
Definition planOf (hazard : LatLng) (bearing : R) (offs : list R)
  : list (RouteType * LatLng) :=
  flat_map (fun offset =>
    [ (left_ offset, getDestinationPoint hazard offset (bearing - 90));
      (right_ offset, getDestinationPoint hazard offset (bearing + 90)) ])
    offs.

Definition eventsOf (w : World) (start destinationLoc : LatLng)
    (plan : list (RouteType * LatLng)) : list Event :=
  flat_map (fun entry => fetchEvents w [start; snd entry; destinationLoc])
           plan.

(** The routing requests recorded in a trace, in order. *)
Fixpoint fetchedUrls (t : list Event) : list Url :=
  match t with
  | [] => []
  | EvFetch url :: t' => url :: fetchedUrls t'
  | _ :: t' => fetchedUrls t'
  end.

(** The haversine term [a] of [getDistanceMeters]. *)
Definition haversine (p1 p2 : LatLng) : R :=
  let phi1 := lat p1 * PI / 180 in
  let phi2 := lat p2 * PI / 180 in
  let dphi := (lat p2 - lat p1) * PI / 180 in
  let dlam := (lng p2 - lng p1) * PI / 180 in
  sin (dphi / 2) * sin (dphi / 2) +
  cos phi1 * cos phi2 * sin (dlam / 2) * sin (dlam / 2).

(** The candidates that are scored: the direct route alone when it has no
    conflict, the merged list otherwise. *)
Definition candidateList (w : World) (h : Store)
    (start destinationLoc : LatLng) (pins : list ref)
    (directRouteData : OSRMRoute) : list Candidate :=
  match conflicts (directCandidate h start destinationLoc pins
                                   directRouteData) with
  | [] => [directCandidate h start destinationLoc pins directRouteData]
  | focus :: _ =>
      mergedCandidates w h start destinationLoc pins directRouteData focus
  end.

(** A candidate is scored from its own path: its conflicts are those of
    its coordinates, its score is 1,000,000 per conflict plus its
    duration. *)
Definition wellScored (h : Store) (start destinationLoc : LatLng)
    (pins : list ref) (c : Candidate) : Prop :=
  coords c = map toLatLng (coordinates (data c)) /\
  conflicts c = checkRouteConflicts h (coords c) pins start destinationLoc /\
  score c = INR (List.length (conflicts c)) * 1000000 + duration (data c).

(** The prompt built for a selected route. *)
Definition promptFor (start : LatLng) (destinationName : string)
    (selectedRoute : Candidate) : Prompt :=
  mkPrompt start destinationName
    (formatDuration (duration (data selectedRoute)))
    (negb (isDirect (type selectedRoute)))
    (List.length (conflicts selectedRoute)).

(** The fallback sentence for a number of remaining conflicts. *)
Definition fallbackNote (dangerCount : nat) : string :=
  match dangerCount with
  | O => STAY_AWARE
  | S _ => STRICT_WARNING
  end.

(** The response carries no usable note: no text, an empty text, a text
    that is not JSON, or JSON without a non-empty [safetyNote]. *)
Definition noUsableNote (w : World) (resp : GenerateContentResponse) : Prop :=
  match text resp with
  | None => True
  | Some txt => nonEmpty txt = false \/ parsedNote w txt = None
  end.

(** The note attached when the narrative service answers with [resp]. *)
Definition noteFor (w : World) (resp : GenerateContentResponse)
    (dangerCount : nat) : string :=
  let answered :=
    match text resp with
    | Some txt =>
        if nonEmpty txt then
          match parsedNote w txt with
          | Some note => note
          | None => STAY_AWARE
          end
        else STAY_AWARE
    | None => STAY_AWARE
    end in
  if (0 <? dangerCount)%nat && String.eqb answered STAY_AWARE
  then STRICT_WARNING else answered.

(* ================================================================= *)
(** ** A worked scenario

    Start (0, 0), destination (0, 0.01), one DANGER pin on the midpoint of
    the straight line.  The direct route passes over the pin; every detour
    request is answered by a route that stays away from it. *)

Definition ex_start : LatLng := mkLatLng 0 0.
Definition ex_dest : LatLng := mkLatLng 0 0.01.
Definition ex_hazard : Pin.t :=
  Pin.mk "p1" 0 0.005 DANGER "Construction site, very dark." 0 "user".
Definition ex_store : Store := fun _ => ex_hazard.
Definition ex_pins : list ref := [0%nat].

Definition ex_direct : OSRMRoute :=
  mkOSRMRoute [(0, 0); (0.005, 0); (0.01, 0)] 300.
Definition ex_detour (seconds : R) : OSRMRoute :=
  mkOSRMRoute [(0, 0); (0.01, 0)] seconds.

(** The routing provider answers the direct request with [ex_direct] and
    every request through a waypoint with a detour of the given duration;
    [ai] is the answer of the narrative service. *)
Definition ex_world (seconds : R) (ai : option GenerateContentResponse)
  : World :=
  mkWorld
    (fun url =>
       match url with
       | [_; _] => Some (mkOSRMData (Some [ex_direct]))
       | [_; _; _] => Some (mkOSRMData (Some [ex_detour seconds]))
       | _ => None
       end)
    (fun _ => ai)
    (fun _ => None).

(* ================================================================= *)
(** ** geminiService.ts: analyzeSafety *)

(** types.ts: the grounding chunks of an analysis. *)
Record ReviewSnippet := mkReviewSnippet {
  content : string;
  author : string
}.

Record PlaceAnswerSource := mkPlaceAnswerSource {
  reviewSnippets : option (list ReviewSnippet)
}.

Record WebChunk := mkWebChunk { web_uri : string; web_title : string }.

Record MapsChunk := mkMapsChunk {
  maps_uri : string;
  maps_title : string;
  placeAnswerSources : option (list PlaceAnswerSource)
}.

Record GroundingChunk := mkGroundingChunk {
  web : option WebChunk;
  maps : option MapsChunk
}.

Record GeminiAnalysis := mkGeminiAnalysis {
  analysis_text : string;
  groundingChunks : list GroundingChunk
}.

(** The response of the grounded request, as far as [analyzeSafety] reads
    it; a missing property is [None]. *)
Record GroundingMetadata := mkGroundingMetadata {
  metadata_groundingChunks : option (list GroundingChunk)
}.

Record ResponseCandidate := mkResponseCandidate {
  groundingMetadata : option GroundingMetadata
}.

Record GroundedResponse := mkGroundedResponse {
  grounded_text : option string;
  grounded_candidates : option (list ResponseCandidate)
}.

Definition ANALYSIS_UNAVAILABLE : string :=
  "Unable to retrieve safety information at this time.".
Definition ANALYSIS_UNREACHABLE : string :=
  "We couldn't reach the AI service right now. Please rely on community pins and your own judgment.".

(** [ask location] is the answer of the grounded request for a location,
    [None] when the promise rejects. *)
Definition analyzeSafety (ask : LatLng -> option GroundedResponse)
    (location : LatLng) : GeminiAnalysis :=
  match ask location with
  | Some response =>
      let text :=
        match grounded_text response with
        | Some txt => if nonEmpty txt then txt else ANALYSIS_UNAVAILABLE
        | None => ANALYSIS_UNAVAILABLE
        end in
      let groundingChunks :=
        match grounded_candidates response with
        | Some (candidate :: _) =>
            match groundingMetadata candidate with
            | Some metadata =>
                match metadata_groundingChunks metadata with
                | Some chunks => chunks
                | None => []
                end
            | None => []
            end
        | _ => []
        end in
      mkGeminiAnalysis text groundingChunks
  | None => mkGeminiAnalysis ANALYSIS_UNREACHABLE []
  end.

(* ================================================================= *)
(** ** SafetyAdvisor.tsx: the places listed under an analysis *)

Record ValidPlace := mkValidPlace {
  place_uri : string;
  place_title : string;
  originalChunk : GroundingChunk
}.

(** [chunk.maps || chunk.web], spread with the chunk it comes from. *)
Definition placeOf (chunk : GroundingChunk) : option ValidPlace :=
  match maps chunk with
  | Some item => Some (mkValidPlace (maps_uri item) (maps_title item) chunk)
  | None =>
      match web chunk with
      | Some item => Some (mkValidPlace (web_uri item) (web_title item) chunk)
      | None => None
      end
  end.

Fixpoint nonNull {A} (l : list (option A)) : list A :=
  match l with
  | [] => []
  | Some x :: l' => x :: nonNull l'
  | None :: l' => nonNull l'
  end.

Definition validPlaces (analysis : option GeminiAnalysis) : list ValidPlace :=
  match analysis with
  | Some analysis =>
      firstn 5 (nonNull (map placeOf (groundingChunks analysis)))
  | None => []
  end.

(** A chunk that has a [maps] or a [web] entry. *)
Definition linkable (chunk : GroundingChunk) : bool :=
  match maps chunk, web chunk with
  | None, None => false
  | _, _ => true
  end.

(* ================================================================= *)
(** ** geminiService.ts: searchPlaces *)

(** The strings [searchPlaces] works on, as lists of UTF-16 code units. *)
Definition JsString := list N.

Definition BACKTICK : N := 96%N.
Definition LBRACKET : N := 91%N.
Definition RBRACKET : N := 93%N.
Definition FENCE : JsString := [96; 96; 96]%N.
Definition FENCE_JSON : JsString := [96; 96; 96; 106; 115; 111; 110]%N.

(** The code units removed by [String.prototype.trim]: white space and
    line terminators. *)
Definition isWhiteSpace (c : N) : bool :=
  existsb (N.eqb c)
    [9; 10; 11; 12; 13; 32; 160; 5760; 8232; 8233; 8239; 8287; 12288;
     65279]%N
  || ((8192 <=? c) && (c <=? 8202))%N.

Fixpoint startsWith (pat s : JsString) : bool :=
  match pat, s with
  | [], _ => true
  | p :: pat', c :: s' => N.eqb p c && startsWith pat' s'
  | _ :: _, [] => false
  end.

(** [s.replace(/pat/g, '')] for a literal pattern: matches are taken from
    left to right and do not overlap.  [skip] counts the code units of the
    current match still to drop. *)
Fixpoint removeFrom (pat : JsString) (skip : nat) (s : JsString) : JsString :=
  match s with
  | [] => []
  | c :: s' =>
      match skip with
      | S k => removeFrom pat k s'
      | O =>
          if startsWith pat s then removeFrom pat (List.length pat - 1) s'
          else c :: removeFrom pat 0 s'
      end
  end.

Definition removeAll (pat s : JsString) : JsString := removeFrom pat 0 s.

Fixpoint dropWhile {A} (f : A -> bool) (l : list A) : list A :=
  match l with
  | [] => []
  | x :: l' => if f x then dropWhile f l' else l
  end.

Definition trim (s : JsString) : JsString :=
  rev (dropWhile isWhiteSpace (rev (dropWhile isWhiteSpace s))).

(** [indexOf] and [lastIndexOf] of one code unit; [None] is -1. *)
Fixpoint indexOf (c : N) (s : JsString) : option nat :=
  match s with
  | [] => None
  | x :: s' =>
      if N.eqb x c then Some O
      else match indexOf c s' with
           | Some i => Some (S i)
           | None => None
           end
  end.

Fixpoint lastIndexOf (c : N) (s : JsString) : option nat :=
  match s with
  | [] => None
  | x :: s' =>
      match lastIndexOf c s' with
      | Some i => Some (S i)
      | None => if N.eqb x c then Some O else None
      end
  end.

(** [s.substring(indexStart, indexEnd)]: both indices are clamped to the
    length and swapped when the first is the larger. *)
Definition substring (indexStart indexEnd : nat) (s : JsString) : JsString :=
  let a := Nat.min indexStart (List.length s) in
  let b := Nat.min indexEnd (List.length s) in
  let from := Nat.min a b in
  let to := Nat.max a b in
  firstn (to - from) (skipn from s).

(** The text handed to [JSON.parse]. *)
Definition jsonCandidate (text : JsString) : JsString :=
  let jsonStr := trim (removeAll FENCE (removeAll FENCE_JSON text)) in
  let firstBracket := indexOf LBRACKET jsonStr in
  let lastBracket := lastIndexOf RBRACKET jsonStr in
  match firstBracket, lastBracket with
  | Some firstBracket, Some lastBracket =>
      substring firstBracket (lastBracket + 1) jsonStr
  | _, _ => jsonStr
  end.

(** What [JSON.parse] makes of the candidate, as far as [searchPlaces]
    reads it: an array of items, or another value.  A property read on a
    [null] item throws; on any other item it gives the property or
    [undefined].  Property values are taken at the types [PlaceSuggestion]
    declares. *)
Inductive PlaceItem :=
| PlaceNull
| PlaceValue (name : option string) (lat lng : option R)
             (address : option string).

Inductive ParsedPlaces :=
| ParsedArray (items : list PlaceItem)
| ParsedOther.

Record PlaceSuggestion := mkPlaceSuggestion {
  suggestion_name : option string;
  suggestion_lat : option R;
  suggestion_lng : option R;
  suggestion_address : option string
}.

(** [askPlaces] is the answer of the service ([None]: the promise rejects;
    [Some None]: no text); [parsePlaces] is [JSON.parse] ([None]: it
    throws). *)
Record PlacesWorld := mkPlacesWorld {
  askPlaces : string -> LatLng -> option (option JsString);
  parsePlaces : JsString -> option ParsedPlaces
}.

(** [data.map(item => ...)]: [None] when a property read throws. *)
Fixpoint mapItems (items : list PlaceItem) : option (list PlaceSuggestion) :=
  match items with
  | [] => Some []
  | PlaceNull :: _ => None
  | PlaceValue name lat lng address :: rest =>
      match mapItems rest with
      | Some out => Some (mkPlaceSuggestion name lat lng address :: out)
      | None => None
      end
  end.

Definition isNil {A} (l : list A) : bool :=
  match l with [] => true | _ => false end.

Definition searchPlaces (w : PlacesWorld) (query : string) (center : LatLng)
  : list PlaceSuggestion :=
  match askPlaces w query center with
  | Some (Some text) =>
      if isNil text then []
      else
        match parsePlaces w (jsonCandidate text) with
        | Some (ParsedArray data) =>
            match mapItems data with
            | Some out => out
            | None => []
            end
        | Some ParsedOther => []
        | None => []
        end
  | Some None => []
  | None => []
  end.

(* ================================================================= *)
(** ** App.tsx: calculateRoute *)

Inductive AppMode :=
| MENU
| NAVIGATING_INPUT
| NAVIGATING_PICK_MAP
| NAVIGATING_SHOW
| REPORTING.

(** The part of the component state that [calculateRoute] sets, and the
    alerts shown so far. *)
Record NavState := mkNavState {
  nav_route : option (list LatLng);
  nav_routeInfo : option (string * string);
  nav_mode : AppMode;
  nav_isRouting : bool;
  nav_alerts : list string
}.

(** [value || ''] *)
Definition orEmpty (s : option string) : string :=
  match s with
  | Some s => s
  | None => ""
  end.

Definition calculateRoute (w : World) (h : Store) (center : LatLng)
    (pins : list ref) (destLoc : LatLng) (destName : string)
    (st : NavState) : Async NavState :=
  let st := mkNavState (nav_route st) (nav_routeInfo st) (nav_mode st) true
                       (nav_alerts st) in
  fun t =>
    match getSafeRoute w h center destLoc destName pins t with
    | (Returns result, t') =>
        let st :=
          if negb (isNil (RouteResponse.route result)) then
            mkNavState (Some (RouteResponse.route result))
              (Some (orEmpty (RouteResponse.duration result),
                     orEmpty (RouteResponse.safetyNote result)))
              NAVIGATING_SHOW (nav_isRouting st) (nav_alerts st)
          else
            mkNavState (nav_route st) (nav_routeInfo st) (nav_mode st)
              (nav_isRouting st)
              (nav_alerts st ++ ["Could not calculate a route."%string]) in
        (Returns (mkNavState (nav_route st) (nav_routeInfo st) (nav_mode st)
                             false (nav_alerts st)), t')
    | (Throws e, t') => (Throws e, t')
    end.

(* ================================================================= *)
(** ** pinService.ts: seedData and the local subscription *)

(** [now1], [now2], [now3] stand for the three calls of [Date.now()]. *)
Definition seedData (centerLat centerLng : R) (now1 now2 now3 : Z)
    (b : Browser) : Browser :=
  if negb USE_FIREBASE && (List.length (getLocalPinsSync b) =? 0)%nat then
    let seeds :=
      [ Pin.mk "1" (centerLat + 0.001) (centerLng + 0.001) SAFE
          "Well lit street, lots of people walking dogs." now1 "system";
        Pin.mk "2" (centerLat - 0.0015) (centerLng - 0.0005) CAUTION
          "Streetlight flickering near the corner." now2 "system";
        Pin.mk "3" (centerLat + 0.002) (centerLng - 0.002) DANGER
          "Construction site, sidewalk closed, very dark." now3 "system" ] in
    mkBrowser (ItemPins seeds) (S (dispatched b))
  else b.

Definition STORAGE_KEY : string := "safe_walk_pins_db".

(** A page: its storage, the subscriptions whose handlers are registered
    (in registration order, each with the callback it serves), the number
    of the next subscription, and the callback calls made so far. *)
Record Page := mkPage {
  browser : Browser;
  subscriptions : list (nat * nat);
  nextSubscription : nat;
  calls : list (nat * list Pin.t)
}.

Definition loadLocal (callback : nat) (pg : Page) : Page :=
  mkPage (browser pg) (subscriptions pg) (nextSubscription pg)
         (calls pg ++ [(callback, getLocalPinsSync (browser pg))]).

(** The local branch of [subscribeToPins]; the number returned stands for
    the unsubscribe function. *)
Definition subscribeToPins (callback : nat) (pg : Page) : nat * Page :=
  let pg := loadLocal callback pg in
  let sub := nextSubscription pg in
  (sub, mkPage (browser pg) (subscriptions pg ++ [(sub, callback)])
               (S sub) (calls pg)).

Definition unsubscribe (sub : nat) (pg : Page) : Page :=
  mkPage (browser pg)
         (filter (fun s => negb (fst s =? sub)%nat) (subscriptions pg))
         (nextSubscription pg) (calls pg).

(** One ['local-storage-update'] event: every registered [localHandler]
    runs, in registration order. *)
Definition localStorageUpdate (pg : Page) : Page :=
  fold_left (fun pg s => loadLocal (snd s) pg) (subscriptions pg) pg.

(** A storage operation of the page, followed by the events it
    dispatched. *)
Definition onBrowser (f : Browser -> Browser) (pg : Page) : Page :=
  let b' := f (browser pg) in
  Nat.iter (dispatched b' - dispatched (browser pg)) localStorageUpdate
    (mkPage b' (subscriptions pg) (nextSubscription pg) (calls pg)).

(** What another document did to the storage area, as the ['storage']
    event reports it: it set or removed the item under [key] ([e.key] is
    that key; after a removal the item is missing), or it cleared the area
    ([e.key] is [null]). *)
Inductive StorageChange :=
| ItemChanged (key : string) (item : StorageItem)
| AreaCleared.

Definition eventKey (c : StorageChange) : option string :=
  match c with
  | ItemChanged key _ => Some key
  | AreaCleared => None
  end.

(** [e.key === STORAGE_KEY] *)
Definition isStorageKey (key : option string) : bool :=
  match key with
  | Some key => String.eqb key STORAGE_KEY
  | None => false
  end.

(** The ['storage'] event for a change made by another document: the
    storage area has changed, and every registered [storageHandler]
    runs. *)
Definition storageEvent (c : StorageChange) (pg : Page) : Page :=
  let b' := match c with
            | ItemChanged key item =>
                if String.eqb key STORAGE_KEY
                then mkBrowser item (dispatched (browser pg))
                else browser pg
            | AreaCleared => mkBrowser ItemMissing (dispatched (browser pg))
            end in
  fold_left (fun pg s =>
               if isStorageKey (eventKey c) then loadLocal (snd s) pg
               else pg)
            (subscriptions pg)
            (mkPage b' (subscriptions pg) (nextSubscription pg) (calls pg)).

(** The list a callback was last called with. *)
Definition lastSeen (callback : nat) (cs : list (nat * list Pin.t))
  : option (list Pin.t) :=
  match find (fun c => (fst c =? callback)%nat) (rev cs) with
  | Some c => Some (snd c)
  | None => None
  end.

(** Every subscribed callback was last called with the stored pins. *)
Definition Coherent (pg : Page) : Prop :=
  forall s, In s (subscriptions pg) ->
    lastSeen (snd s) (calls pg) = Some (getLocalPinsSync (browser pg)).

(** What can happen to a page. *)
Inductive PageEvent :=
| Subscribes (callback : nat)
| Unsubscribes (sub : nat)
| AddsPin (pin : PinInput) (randomId : string) (now : Z)
| RemovesPin (pinId : string)
| SeedsData (centerLat centerLng : R) (now1 now2 now3 : Z)
| OtherDocument (c : StorageChange).

Definition pageStep (e : PageEvent) (pg : Page) : Page :=
  match e with
  | Subscribes callback => snd (subscribeToPins callback pg)
  | Unsubscribes sub => unsubscribe sub pg
  | AddsPin pin randomId now =>
      onBrowser (fun b => snd (addPin pin randomId now b)) pg
  | RemovesPin pinId => onBrowser (removePin pinId) pg
  | SeedsData centerLat centerLng now1 now2 now3 =>
      onBrowser (seedData centerLat centerLng now1 now2 now3) pg
  | OtherDocument c => storageEvent c pg
  end.

Definition pageRun (events : list PageEvent) (pg : Page) : Page :=
  fold_left (fun pg e => pageStep e pg) events pg.

(* ================================================================= *)
(** ** Further vocabulary *)

(** The narrative requests recorded in a trace, in order. *)
Fixpoint generateCalls (t : list Event) : list Prompt :=
  match t with
  | [] => []
  | EvGenerate p :: t' => p :: generateCalls t'
  | _ :: t' => generateCalls t'
  end.

(** The text for a number of minutes. *)
Definition renderMinutes (N : Z) : string :=
  if (N <? 60)%Z then (string_of_Z N ++ " min walk")%string
  else (string_of_Z (N / 60) ++ " hr " ++ string_of_Z (N mod 60)
          ++ " min walk")%string.

(** The stored list without the pins of a given id. *)
Definition idFilter (pinId : string) (l : list Pin.t) : list Pin.t :=
  filter (fun p => negb (String.eqb (Pin.id p) pinId)) l.

(** The sine of the latitude reached by [getDestinationPoint], and the
    north and east components of the direction of the point reached, each
    divided by the cosine of the start latitude. *)
Definition projectionSine (start : LatLng) (distanceMeters bearing : R) : R :=
  sin (lat start * PI / 180) * cos (distanceMeters / 6371e3) +
  cos (lat start * PI / 180) * sin (distanceMeters / 6371e3) *
  cos (bearing * PI / 180).

Definition projectionNorth (start : LatLng) (distanceMeters bearing : R)
  : R :=
  cos (distanceMeters / 6371e3) * cos (lat start * PI / 180) -
  sin (lat start * PI / 180) * sin (distanceMeters / 6371e3) *
  cos (bearing * PI / 180).

Definition projectionEast (distanceMeters bearing : R) : R :=
  sin (bearing * PI / 180) * sin (distanceMeters / 6371e3).

(** The point of the unit sphere that a coordinate pair names, and the
    straight-line distance between two such points. *)
Definition spherePoint (p : LatLng) : R * R * R :=
  let phi := lat p * PI / 180 in
  let lam := lng p * PI / 180 in
  (cos phi * cos lam, cos phi * sin lam, sin phi).

Definition chord (a b : LatLng) : R :=
  let '(x1, y1, z1) := spherePoint a in
  let '(x2, y2, z2) := spherePoint b in
  sqrt ((x1 - x2) * (x1 - x2) + (y1 - y2) * (y1 - y2)
        + (z1 - z2) * (z1 - z2)).

(** A second reported pin, further along the equator, and a store that
    holds it under reference 0 and the hazard under every other one. *)
Definition ex_far : Pin.t :=
  Pin.mk "p0" 0 0.02 DANGER "Broken streetlights." 0 "user".
Definition ex_store2 : Store :=
  fun r => match r with O => ex_far | _ => ex_hazard end.

(* ================================================================= *)
(** * Properties *)

(** ** The local pin store *)

Lemma filter_RemovedById pinId l :
  RemovedById pinId l
    (filter (fun p => negb (String.eqb (Pin.id p) pinId)) l).
Proof.
  induction l as [|p l IH]; simpl.
  - constructor.
  - destruct (String.eqb_spec (Pin.id p) pinId) as [E|N]; simpl.
    + now apply Removed_drop.
    + now apply Removed_keep.
Qed.

Lemma RemovedById_In pinId l l' :
  RemovedById pinId l l' ->
  forall p, In p l' <-> In p l /\ Pin.id p <> pinId.
Proof.
  induction 1 as [|q l l' E _ IH|q l l' N _ IH]; intros p; simpl.
  - tauto.
  - rewrite IH. split.
    + tauto.
    + intros [[->|Hin] Hne]; [congruence | tauto].
  - rewrite IH. split.
    + intros [->|[Hin Hne]]; tauto.
    + intros [[->|Hin] Hne]; tauto.
Qed.

(** C10: in the local-storage backend, [addPin] stores the old list followed
    by the new pin, whose fields are those submitted together with the fresh
    id and timestamp, and [removePin] stores the old list without the pins
    whose id is the given one, the other pins unchanged and in their
    original relative order. *)
Theorem C10_local_store_frame (b : Browser) :
  (forall pin randomId now,
      let (newPin, b') := addPin pin randomId now b in
      getLocalPinsSync b' = getLocalPinsSync b ++ [newPin]
      /\ firstn (List.length (getLocalPinsSync b)) (getLocalPinsSync b')
         = getLocalPinsSync b
      /\ newPin = Pin.mk randomId (in_lat pin) (in_lng pin)
                    (in_safetyLevel pin) (in_description pin) now
                    (in_userId pin))
  /\ (forall pinId,
      let before := getLocalPinsSync b in
      let after := getLocalPinsSync (removePin pinId b) in
      RemovedById pinId before after
      /\ forall p, In p after <-> In p before /\ Pin.id p <> pinId).
Proof.
  split.
  - intros pin randomId now. unfold addPin. simpl.
    split; [reflexivity | split; [ | reflexivity]].
    change (getLocalPinsSync (mkBrowser ?i ?d)) with
      (match i with ItemPins l => l | _ => [] end). cbv beta iota.
    rewrite firstn_app, Nat.sub_diag, firstn_all. simpl.
    now rewrite app_nil_r.
  - intros pinId before after.
    assert (R : RemovedById pinId before after).
    { subst before after. unfold removePin. simpl.
      apply filter_RemovedById. }
    split; [exact R | exact (RemovedById_In _ _ _ R)].
Qed.

(** ** Duration formatting *)

Lemma IZR_div_60_bounds (N : Z) :
  IZR (N / 60) <= IZR N / 60 < IZR (N / 60) + 1.
Proof.
  pose proof (Z.div_mod N 60 ltac:(lia)) as E.
  pose proof (Z.mod_pos_bound N 60 ltac:(lia)) as [Hlo Hhi].
  apply IZR_le in Hlo. apply IZR_lt in Hhi.
  apply (f_equal IZR) in E. rewrite plus_IZR, mult_IZR in E.
  lra.
Qed.

Lemma Math_floor_div_60 (N : Z) : Math_floor (IZR N / 60) = (N / 60)%Z.
Proof. apply Zfloor_eq, IZR_div_60_bounds. Qed.

Lemma formatDuration_minutes (seconds : R) (N : Z) :
  IZR N - 1 < seconds * 1.2 / 60 <= IZR N ->
  (0 <= N)%Z ->
  formatDuration seconds =
    if (N <? 60)%Z then (string_of_Z N ++ " min walk")%string
    else (string_of_Z (N / 60) ++ " hr " ++ string_of_Z (N mod 60)
            ++ " min walk")%string.
Proof.
  intros HN Hpos. unfold formatDuration, Math_ceil.
  rewrite (Zceil_eq N) by exact HN.
  destruct (N <? 60)%Z; [reflexivity|].
  now rewrite Math_floor_div_60, Z.rem_mod_nonneg by lia.
Qed.

(** C7: for non-negative [seconds], with [N] the number of minutes in
    [seconds * 1.2] rounded up, [formatDuration] returns "N min walk" when
    [N < 60] and "H hr M min walk" with [H = N / 60], [M = N mod 60]
    otherwise; 590 gives "12 min walk" and 3600 gives "1 hr 12 min walk". *)
Theorem C7_formatDuration_ceiling :
  (forall seconds : R, 0 <= seconds ->
     exists N : Z,
       IZR N - 1 < seconds * 1.2 / 60 <= IZR N /\ (0 <= N)%Z /\
       formatDuration seconds =
         if (N <? 60)%Z then (string_of_Z N ++ " min walk")%string
         else (string_of_Z (N / 60) ++ " hr " ++ string_of_Z (N mod 60)
                 ++ " min walk")%string)
  /\ formatDuration 590 = "12 min walk"%string
  /\ formatDuration 3600 = "1 hr 12 min walk"%string.
Proof.
  split; [|split].
  - intros seconds Hs.
    exists (Zceil (seconds * 1.2 / 60)).
    pose proof (Zceil_bound (seconds * 1.2 / 60)) as B.
    assert (Hpos : (0 <= Zceil (seconds * 1.2 / 60))%Z).
    { apply le_IZR. lra. }
    split; [exact B|]. split; [exact Hpos|].
    now apply formatDuration_minutes.
  - rewrite (formatDuration_minutes 590 12); [reflexivity | lra | lia].
  - rewrite (formatDuration_minutes 3600 72); [reflexivity | lra | lia].
Qed.

Lemma C7_formatDuration_ceiling_witness :
  0 <= 590 /\
  exists N : Z,
    IZR N - 1 < 590 * 1.2 / 60 <= IZR N /\ (0 <= N)%Z /\
    formatDuration 590 =
      if (N <? 60)%Z then (string_of_Z N ++ " min walk")%string
      else (string_of_Z (N / 60) ++ " hr " ++ string_of_Z (N mod 60)
              ++ " min walk")%string.
Proof.
  split; [lra | apply (proj1 C7_formatDuration_ceiling 590); lra].
Defined.

(** ** Conflict detection *)

Lemma ltb_lt x y : ltb x y = true <-> x < y.
Proof. unfold ltb. destruct (Rlt_dec x y); split; intros; congruence || tauto. Qed.

Lemma gtb_gt x y : gtb x y = true <-> x > y.
Proof. unfold gtb. apply ltb_lt. Qed.

Lemma Set_add_In r s x : In x (Set_add r s) <-> In x s \/ x = r.
Proof.
  unfold Set_add. destruct (in_dec Nat.eq_dec r s) as [Hin|Hout].
  - split; [tauto | intros [?| ->]; assumption].
  - rewrite in_app_iff. simpl. intuition congruence.
Qed.

Lemma Set_add_NoDup r s : NoDup s -> NoDup (Set_add r s).
Proof.
  intros Hs. unfold Set_add. destruct (in_dec Nat.eq_dec r s) as [Hin|Hout].
  - exact Hs.
  - apply NoDup_rev in Hs. apply (NoDup_cons r) in Hs.
    + apply NoDup_rev in Hs. simpl in Hs. now rewrite rev_involutive in Hs.
    + now rewrite <- in_rev.
Qed.

Section ConflictLoops.
Variable h : Store.
Variables startLoc endLoc : LatLng.

Lemma visit_In point conflicts pin x :
  In x (visitPin h startLoc endLoc point conflicts pin) <->
  In x conflicts \/ (x = pin /\ isConflict h startLoc endLoc point pin).
Proof.
  unfold visitPin, isConflict, DANGER_THRESHOLD_METERS,
    IGNORE_TERMINAL_DISTANCE.
  destruct (ltb _ 150) eqn:E1.
  - apply ltb_lt in E1.
    destruct (gtb _ 80 && gtb _ 80) eqn:E2.
    + apply andb_true_iff in E2. rewrite !gtb_gt in E2.
      rewrite Set_add_In. tauto.
    + apply andb_false_iff in E2.
      split; [tauto|]. intros [?|[_ (_ & H1 & H2)]]; [assumption|].
      apply gtb_gt in H1, H2. destruct E2; congruence.
  - split; [tauto|]. intros [?|[_ (H1 & _)]]; [assumption|].
    apply ltb_lt in H1. congruence.
Qed.

Lemma visit_NoDup point conflicts pin :
  NoDup conflicts -> NoDup (visitPin h startLoc endLoc point conflicts pin).
Proof.
  intros Hc. unfold visitPin.
  destruct (ltb _ _); [|exact Hc].
  destruct (_ && _); [|exact Hc].
  now apply Set_add_NoDup.
Qed.

Lemma inner_loop_In point dangerPins : forall conflicts x,
  In x (fold_left (visitPin h startLoc endLoc point) dangerPins conflicts) <->
  In x conflicts \/ (In x dangerPins /\ isConflict h startLoc endLoc point x).
Proof.
  induction dangerPins as [|pin rest IH]; intros conflicts x; simpl.
  - tauto.
  - rewrite IH, visit_In. split.
    + intros [[?|[-> ?]]|[? ?]]; tauto.
    + intros [?|[[<-|?] ?]]; tauto.
Qed.

Lemma inner_loop_NoDup point dangerPins : forall conflicts,
  NoDup conflicts ->
  NoDup (fold_left (visitPin h startLoc endLoc point) dangerPins conflicts).
Proof.
  induction dangerPins as [|pin rest IH]; intros conflicts Hc; simpl.
  - exact Hc.
  - now apply IH, visit_NoDup.
Qed.

Lemma outer_loop_In dangerPins routePath : forall conflicts x,
  In x (fold_left (fun conflicts point =>
                     fold_left (visitPin h startLoc endLoc point) dangerPins conflicts)
                  routePath conflicts) <->
  In x conflicts \/
  (In x dangerPins /\ exists point, In point routePath /\ isConflict h startLoc endLoc point x).
Proof.
  induction routePath as [|point rest IH]; intros conflicts x; simpl.
  - split; [tauto|]. intros [?|[_ [p [[] _]]]]. assumption.
  - rewrite IH, inner_loop_In. split.
    + intros [[?|[? ?]]|[? [p [? ?]]]]; eauto 8.
    + intros [?|[? [p [[<-|?] ?]]]]; eauto 8.
Qed.

Lemma outer_loop_NoDup dangerPins routePath : forall conflicts,
  NoDup conflicts ->
  NoDup (fold_left (fun conflicts point =>
                      fold_left (visitPin h startLoc endLoc point) dangerPins conflicts)
                   routePath conflicts).
Proof.
  induction routePath as [|point rest IH]; intros conflicts Hc; simpl.
  - exact Hc.
  - now apply IH, inner_loop_NoDup.
Qed.

Lemma checkRouteConflicts_In routePath pins x :
  In x (checkRouteConflicts h routePath pins startLoc endLoc) <->
  In x pins /\ Pin.safetyLevel (h x) = DANGER /\
  exists point, In point routePath /\ isConflict h startLoc endLoc point x.
Proof.
  unfold checkRouteConflicts.
  rewrite outer_loop_In, filter_In. simpl.
  assert (D : SafetyLevel_eqb (Pin.safetyLevel (h x)) DANGER = true <->
              Pin.safetyLevel (h x) = DANGER).
  { destruct (Pin.safetyLevel (h x)); simpl; split; congruence. }
  rewrite D. tauto.
Qed.

Lemma checkRouteConflicts_NoDup routePath pins :
  NoDup (checkRouteConflicts h routePath pins startLoc endLoc).
Proof.
  unfold checkRouteConflicts.
  apply (outer_loop_NoDup
           (filter (fun p => SafetyLevel_eqb (Pin.safetyLevel (h p)) DANGER)
                   pins) routePath []).
  constructor.
Qed.

End ConflictLoops.

(** C2: the conflict set holds no pin twice, and a pin is in it exactly when
    it is one of the given pins, its severity is DANGER, some path point is
    less than 150 m from it, and it is more than 80 m from the start and
    more than 80 m from the end; so no SAFE or CAUTION pin is ever in it. *)
Theorem C2_conflicts_exact (h : Store) (routePath : list LatLng)
    (pins : list ref) (startLoc endLoc : LatLng) :
  let result := checkRouteConflicts h routePath pins startLoc endLoc in
  NoDup result
  /\ (forall pin, In pin result <->
        In pin pins /\ Pin.safetyLevel (h pin) = DANGER /\
        (exists point, In point routePath /\
                       getDistanceMeters point (h pin) < 150) /\
        getDistanceMeters (h pin) startLoc > 80 /\
        getDistanceMeters (h pin) endLoc > 80)
  /\ (forall pin, In pin result ->
        Pin.safetyLevel (h pin) <> SAFE /\
        Pin.safetyLevel (h pin) <> CAUTION).
Proof.
  intros result. subst result.
  split; [apply checkRouteConflicts_NoDup|].
  assert (M : forall pin,
    In pin (checkRouteConflicts h routePath pins startLoc endLoc) <->
    In pin pins /\ Pin.safetyLevel (h pin) = DANGER /\
    (exists point, In point routePath /\
                   getDistanceMeters point (h pin) < 150) /\
    getDistanceMeters (h pin) startLoc > 80 /\
    getDistanceMeters (h pin) endLoc > 80).
  { intros pin. rewrite checkRouteConflicts_In. unfold isConflict. split.
    - intros (Hin & Hd & point & Hp & H1 & H2 & H3). eauto 10.
    - intros (Hin & Hd & (point & Hp & H1) & H2 & H3). eauto 10. }
  split; [exact M|].
  intros pin Hin. apply M in Hin. destruct Hin as (_ & Hd & _).
  rewrite Hd. split; discriminate.
Qed.

(** ** Sorting and the stable minimum *)

Section Sorting.
Context {A : Type}.
Variable key : A -> R.

Lemma sort_insert_hd (x d : A) (l : list A) :
  hd d (sort_insert (fun a b => key a - key b) x l) =
  match l with
  | [] => x
  | y :: _ => if Rlt_dec (key y) (key x) then y else x
  end.
Proof.
  destruct l as [|y l]; simpl; [reflexivity|].
  destruct (Rlt_dec 0 (key x - key y)), (Rlt_dec (key y) (key x));
    simpl; try reflexivity; lra.
Qed.

Lemma Array_sort_nonempty (x : A) (l : list A) :
  Array_sort (fun a b => key a - key b) (x :: l) <> [].
Proof.
  simpl. destruct (Array_sort _ l) as [|y s]; simpl; [discriminate|].
  destruct (Rlt_dec _ _); discriminate.
Qed.

Lemma Array_sort_hd_StableMin (l : list A) (d : A) :
  l <> [] ->
  StableMin key (hd d (Array_sort (fun a b => key a - key b) l)) l.
Proof.
  induction l as [|x l IH]; intros Hne; [congruence|].
  destruct l as [|x' l'].
  - simpl. exists [], []. repeat split; intros y [].
  - specialize (IH ltac:(discriminate)).
    change (Array_sort (fun a b => key a - key b) (x :: x' :: l'))
      with (sort_insert (fun a b => key a - key b) x
              (Array_sort (fun a b => key a - key b) (x' :: l'))).
    rewrite sort_insert_hd.
    pose proof (Array_sort_nonempty x' l') as Hs.
    destruct (Array_sort (fun a b => key a - key b) (x' :: l'))
      as [|m s] eqn:E; [congruence|].
    simpl in IH. destruct IH as (before & after & Hl & Hb & Ha).
    destruct (Rlt_dec (key m) (key x)) as [Hlt|Hge].
    + exists (x :: before), after. rewrite Hl. repeat split.
      * intros y [<-|Hy]; [exact Hlt | now apply Hb].
      * exact Ha.
    + exists [], (x' :: l'). repeat split.
      * intros y [].
      * intros y Hy. rewrite Hl in Hy.
        apply in_app_or in Hy. destruct Hy as [Hy|[<-|Hy]].
        -- apply Hb in Hy. lra.
        -- lra.
        -- apply Ha in Hy. lra.
Qed.

Lemma StableMin_In (c : A) (l : list A) : StableMin key c l -> In c l.
Proof.
  intros (before & after & -> & _). apply in_or_app. right. now left.
Qed.

Lemma StableMin_le (c : A) (l : list A) :
  StableMin key c l -> forall x, In x l -> key c <= key x.
Proof.
  intros (before & after & -> & Hb & Ha) x Hx.
  apply in_app_or in Hx. destruct Hx as [Hx|[<-|Hx]].
  - apply Hb in Hx. lra.
  - lra.
  - now apply Ha.
Qed.

(** The sorted array is a rearrangement of the given one, in ascending
    order of the key. *)
Lemma sort_insert_Permutation (x : A) (l : list A) :
  Permutation (x :: l) (sort_insert (fun a b => key a - key b) x l).
Proof.
  induction l as [|y l IH]; simpl; [reflexivity|].
  destruct (Rlt_dec _ _); [|reflexivity].
  rewrite perm_swap. now constructor.
Qed.

Lemma Array_sort_Permutation (l : list A) :
  Permutation l (Array_sort (fun a b => key a - key b) l).
Proof.
  induction l as [|x l IH]; simpl; [constructor|].
  rewrite <- sort_insert_Permutation. now constructor.
Qed.

Lemma sort_insert_sorted (x : A) (l : list A) :
  StronglySorted (fun a b => key a <= key b) l ->
  StronglySorted (fun a b => key a <= key b)
    (sort_insert (fun a b => key a - key b) x l).
Proof.
  induction 1 as [|y l Hs IH Hy]; simpl.
  - repeat constructor.
  - destruct (Rlt_dec 0 (key x - key y)) as [Hgt|Hle].
    + constructor; [exact IH|].
      apply Forall_forall. intros z Hz.
      apply (Permutation_in z (Permutation_sym
               (sort_insert_Permutation x l))) in Hz.
      destruct Hz as [<-|Hz]; [lra|].
      rewrite Forall_forall in Hy. now apply Hy.
    + constructor; [now constructor|].
      constructor; [lra|].
      apply Forall_forall. intros z Hz.
      rewrite Forall_forall in Hy. apply Hy in Hz. lra.
Qed.

Lemma Array_sort_sorted (l : list A) :
  StronglySorted (fun a b => key a <= key b)
    (Array_sort (fun a b => key a - key b) l).
Proof.
  induction l as [|x l IH]; simpl; [constructor|].
  now apply sort_insert_sorted.
Qed.

End Sorting.

(** ** Running the planner *)

Lemma fetchOSRMRoute_run w start dest waypoint t :
  fetchOSRMRoute w start dest waypoint t =
  let url := match waypoint with
             | Some wp => [start; wp; dest]
             | None => [start; dest]
             end in
  (Returns (firstRoute w url), t ++ fetchEvents w url).
Proof.
  unfold fetchOSRMRoute, try_catch, bind, fetch_json, emit, console_error,
    firstRoute, fetchEvents, ret, throw, emit.
  destruct waypoint as [wp|]; simpl;
    (destruct (fetch w _) as [data|]; simpl;
     [ destruct (routes data) as [[|r rs]|]; reflexivity
     | now rewrite <- app_assoc ]).
Qed.

Section PlannerRuns.
Variable w : World.
Variable h : Store.
Variables start destinationLoc : LatLng.
Variable pins : list ref.

Lemma routePromises_run hazard bearing offs : forall t,
  routePromises w start destinationLoc hazard bearing offs t =
  (Returns (map (fun entry =>
                   (firstRoute w [start; snd entry; destinationLoc],
                    fst entry))
                (planOf hazard bearing offs)),
   t ++ eventsOf w start destinationLoc (planOf hazard bearing offs)).
Proof.
  induction offs as [|offset rest IH]; intros t.
  - simpl. unfold ret. now rewrite app_nil_r.
  - cbn [routePromises]. unfold bind at 1.
    rewrite fetchOSRMRoute_run. cbv beta iota zeta.
    unfold bind at 1. rewrite fetchOSRMRoute_run. cbv beta iota zeta.
    unfold bind at 1. rewrite IH. unfold ret.
    cbn [planOf flat_map app map fst snd eventsOf].
    fold (planOf hazard bearing rest).
    fold (eventsOf w start destinationLoc (planOf hazard bearing rest)).
    now rewrite <- !app_assoc.
Qed.

Lemma pushResults_plan plan :
  pushResults h start destinationLoc pins
    (map (fun entry =>
            (firstRoute w [start; snd entry; destinationLoc], fst entry))
         plan) =
  flat_map (detourCandidate w h start destinationLoc pins) plan.
Proof.
  induction plan as [|[ty wp] plan IH]; simpl; [reflexivity|].
  unfold detourCandidate at 1. simpl.
  destruct (firstRoute w [start; wp; destinationLoc]) as [r|]; simpl;
    now rewrite IH.
Qed.

Lemma planOf_offsets hazard bearing :
  planOf hazard bearing offsets = detourPlan hazard bearing.
Proof. reflexivity. Qed.

(** The outcome of the selection, case by case. *)
Lemma selectRoute_run t :
  selectRoute w h start destinationLoc pins t =
  match firstRoute w [start; destinationLoc] with
  | None =>
      (Throws (Error "No route found"),
       t ++ fetchEvents w [start; destinationLoc])
  | Some d =>
      let selectedRoute := directCandidate h start destinationLoc pins d in
      match conflicts selectedRoute with
      | [] => (Returns selectedRoute,
               t ++ fetchEvents w [start; destinationLoc])
      | focus :: _ =>
          (Returns
             (hd selectedRoute
                 (Array_sort (fun a b => score a - score b)
                    (mergedCandidates w h start destinationLoc pins d focus))),
           (t ++ fetchEvents w [start; destinationLoc]) ++
           eventsOf w start destinationLoc (detourPlan (h focus)
                                (getBearing start destinationLoc)))
      end
  end.
Proof.
  unfold selectRoute. unfold bind at 1. rewrite fetchOSRMRoute_run.
  cbv beta iota zeta.
  destruct (firstRoute w [start; destinationLoc]) as [d|]; [|reflexivity].
  destruct (conflicts (directCandidate h start destinationLoc pins d))
    as [|focus rest] eqn:E; [reflexivity|].
  unfold bind. rewrite routePromises_run, planOf_offsets.
  rewrite pushResults_plan. reflexivity.
Qed.

End PlannerRuns.

(** ** Geodesic utilities *)

Lemma Math_atan2_bound y x : - PI < Math_atan2 y x <= PI.
Proof.
  pose proof PI_RGT_0 as Hpi.
  unfold Math_atan2.
  destruct (Rlt_dec 0 x) as [Hx|Hx].
  - pose proof (atan_bound (y / x)). lra.
  - destruct (Rlt_dec x 0) as [Hx'|Hx'].
    + destruct (Rle_dec 0 y) as [Hy|Hy].
      * pose proof (atan_bound (y / x)) as B.
        assert (y / x <= 0).
        { pose proof (Rinv_lt_0_compat x Hx'). unfold Rdiv. nra. }
        destruct (Rle_lt_or_eq_dec _ _ H) as [Hlt|Heq].
        -- apply atan_increasing in Hlt. rewrite atan_0 in Hlt. lra.
        -- rewrite Heq, atan_0. lra.
      * pose proof (atan_bound (y / x)) as B.
        assert (0 < y / x).
        { pose proof (Rinv_lt_0_compat x Hx'). unfold Rdiv. nra. }
        apply atan_increasing in H. rewrite atan_0 in H. lra.
    + destruct (Rlt_dec 0 y); [lra|]. destruct (Rlt_dec y 0); lra.
Qed.

Lemma Math_atan2_nonneg y x : 0 <= y -> 0 <= x -> 0 <= Math_atan2 y x.
Proof.
  intros Hy Hx. pose proof PI_RGT_0 as Hpi. unfold Math_atan2.
  destruct (Rlt_dec 0 x) as [Hx'|Hx'].
  - assert (H : 0 <= y / x).
    { pose proof (Rinv_0_lt_compat x Hx'). unfold Rdiv. nra. }
    destruct (Rle_lt_or_eq_dec _ _ H) as [Hlt|Heq].
    + apply atan_increasing in Hlt. rewrite atan_0 in Hlt. lra.
    + rewrite <- Heq, atan_0. lra.
  - destruct (Rlt_dec x 0); [lra|].
    destruct (Rlt_dec 0 y); [lra|]. destruct (Rlt_dec y 0); lra.
Qed.

Lemma Math_atan2_zero y x :
  0 <= y -> 0 <= x -> (Math_atan2 y x = 0 <-> y = 0).
Proof.
  intros Hy Hx. pose proof PI_RGT_0 as Hpi. unfold Math_atan2.
  destruct (Rlt_dec 0 x) as [Hx'|Hx'].
  - split.
    + intros E. destruct (Rle_lt_or_eq_dec _ _ Hy) as [Hlt|Heq]; [|now symmetry].
      assert (H : 0 < y / x).
      { pose proof (Rinv_0_lt_compat x Hx'). unfold Rdiv. nra. }
      apply atan_increasing in H. rewrite atan_0 in H. lra.
    + intros ->. unfold Rdiv. now rewrite Rmult_0_l, atan_0.
  - destruct (Rlt_dec x 0); [lra|].
    destruct (Rlt_dec 0 y); [lra|]. destruct (Rlt_dec y 0); lra.
Qed.

Lemma getDistanceMeters_haversine p1 p2 :
  getDistanceMeters p1 p2 =
  6371e3 * (2 * Math_atan2 (sqrt (haversine p1 p2))
                           (sqrt (1 - haversine p1 p2))).
Proof. reflexivity. Qed.

Lemma sin2_cos2' x : sin x * sin x + cos x * cos x = 1.
Proof. pose proof (sin2_cos2 x) as H. unfold Rsqr in H. exact H. Qed.

Lemma cos_cos_mid (phi1 phi2 : R) :
  let m := (phi1 + phi2) / 2 in
  let u := (phi2 - phi1) / 2 in
  cos phi1 * cos phi2 = cos m * cos m - sin u * sin u.
Proof.
  intros m u.
  replace phi1 with (m - u) by (unfold m, u; lra).
  replace phi2 with (m + u) by (unfold m, u; lra).
  replace (m + u - (m - u)) with (2 * u) by lra.
  rewrite cos_minus, cos_plus.
  pose proof (sin2_cos2' m). pose proof (sin2_cos2' u).
  replace ((m - u + (m + u)) / 2) with m by lra.
  replace ((2 * u) / 2) with u by lra.
  nra.
Qed.

Lemma haversine_bounds p1 p2 : 0 <= haversine p1 p2 <= 1.
Proof.
  unfold haversine. cbv zeta.
  pose proof (cos_cos_mid (lat p1 * PI / 180) (lat p2 * PI / 180)) as C.
  cbv zeta in C.
  replace ((lat p2 * PI / 180 - lat p1 * PI / 180) / 2)
    with ((lat p2 - lat p1) * PI / 180 / 2) in C by lra.
  set (u := (lat p2 - lat p1) * PI / 180 / 2) in *.
  set (m := (lat p1 * PI / 180 + lat p2 * PI / 180) / 2) in *.
  set (v := (lng p2 - lng p1) * PI / 180 / 2).
  rewrite C.
  pose proof (sin2_cos2' m). pose proof (sin2_cos2' u).
  pose proof (sin2_cos2' v).
  set (su := sin u) in *. set (cu := cos u) in *.
  set (sm := sin m) in *. set (cm := cos m) in *.
  set (sv := sin v) in *. set (cv := cos v) in *.
  assert (0 <= sv * sv <= 1) by nra.
  assert (0 <= su * su <= 1) by nra.
  assert (0 <= cm * cm <= 1) by nra.
  split; nra.
Qed.

Lemma haversine_sym p1 p2 : haversine p1 p2 = haversine p2 p1.
Proof.
  unfold haversine. cbv zeta.
  replace ((lat p1 - lat p2) * PI / 180 / 2)
    with (- ((lat p2 - lat p1) * PI / 180 / 2)) by lra.
  replace ((lng p1 - lng p2) * PI / 180 / 2)
    with (- ((lng p2 - lng p1) * PI / 180 / 2)) by lra.
  rewrite !sin_neg. ring.
Qed.

Lemma haversine_refl p : haversine p p = 0.
Proof.
  unfold haversine. cbv zeta.
  replace ((lat p - lat p) * PI / 180 / 2) with 0 by lra.
  replace ((lng p - lng p) * PI / 180 / 2) with 0 by lra.
  rewrite sin_0. ring.
Qed.

Lemma getDistanceMeters_zero_iff p1 p2 :
  getDistanceMeters p1 p2 = 0 <-> haversine p1 p2 = 0.
Proof.
  rewrite getDistanceMeters_haversine.
  pose proof (haversine_bounds p1 p2) as [Hlo Hhi].
  pose proof (Math_atan2_zero (sqrt (haversine p1 p2))
                (sqrt (1 - haversine p1 p2))
                (sqrt_pos _) (sqrt_pos _)) as Z.
  split.
  - intros E. apply sqrt_eq_0; [exact Hlo|]. apply Z. lra.
  - intros E. assert (S0 : sqrt (haversine p1 p2) = 0)
      by now rewrite E, sqrt_0.
    apply Z in S0. rewrite S0. lra.
Qed.

Lemma sin_zero_small x : - PI < x < PI -> sin x = 0 -> x = 0.
Proof.
  intros [Hlo Hhi] Hs.
  destruct (Rtotal_order x 0) as [Hneg|[Hz|Hpos]]; [|exact Hz|].
  - assert (0 < sin (- x)) by (apply sin_gt_0; lra).
    rewrite sin_neg in H. lra.
  - assert (0 < sin x) by (apply sin_gt_0; lra). lra.
Qed.

Lemma haversine_zero_regular p1 p2 :
  -90 < lat p1 < 90 -> -90 < lat p2 < 90 ->
  -360 < lng p2 - lng p1 < 360 ->
  haversine p1 p2 = 0 -> p1 = p2.
Proof.
  intros H1 H2 H3 E. unfold haversine in E. cbv zeta in E.
  pose proof PI_RGT_0 as Hpi.
  assert (C1 : 0 < cos (lat p1 * PI / 180)).
  { apply cos_gt_0; nra. }
  assert (C2 : 0 < cos (lat p2 * PI / 180)).
  { apply cos_gt_0; nra. }
  set (su := sin ((lat p2 - lat p1) * PI / 180 / 2)) in *.
  set (sv := sin ((lng p2 - lng p1) * PI / 180 / 2)) in *.
  assert (P : 0 < cos (lat p1 * PI / 180) * cos (lat p2 * PI / 180))
    by now apply Rmult_lt_0_compat.
  set (c := cos (lat p1 * PI / 180) * cos (lat p2 * PI / 180)) in *.
  assert (Q1 : 0 <= su * su) by nra.
  assert (Q2 : 0 <= sv * sv) by nra.
  assert (Q3 : 0 <= c * (sv * sv)) by (apply Rmult_le_pos; lra).
  assert (Su2 : su * su = 0) by lra.
  assert (Sv2 : c * (sv * sv) = 0) by lra.
  assert (Su : su = 0).
  { now destruct (Rmult_integral _ _ Su2). }
  assert (Sv : sv = 0).
  { destruct (Rmult_integral _ _ Sv2) as [?|Sv2']; [lra|].
    now destruct (Rmult_integral _ _ Sv2'). }
  apply sin_zero_small in Su; [|nra].
  apply sin_zero_small in Sv; [|nra].
  destruct p1 as [la1 lo1], p2 as [la2 lo2]. simpl in *.
  f_equal; nra.
Qed.

Lemma js_rem_bounds x m : 0 <= x -> 0 < m -> 0 <= js_rem x m < m.
Proof.
  intros Hx Hm. unfold js_rem, trunc.
  assert (Hq : 0 <= x / m).
  { pose proof (Rinv_0_lt_compat m Hm). unfold Rdiv. nra. }
  destruct (Rle_dec 0 (x / m)) as [_|N]; [|contradiction].
  pose proof (Zfloor_bound (x / m)) as [Hlo Hhi].
  assert (E : x = m * (x / m)) by (field; lra).
  split; nra.
Qed.

Lemma getBearing_range a b : 0 <= getBearing a b < 360.
Proof.
  unfold getBearing. cbv zeta.
  set (brng := Math_atan2 _ _).
  pose proof (Math_atan2_bound
    (sin (lng b * PI / 180 - lng a * PI / 180) * cos (lat b * PI / 180))
    (cos (lat a * PI / 180) * sin (lat b * PI / 180) -
     sin (lat a * PI / 180) * cos (lat b * PI / 180) *
     cos (lng b * PI / 180 - lng a * PI / 180))) as B.
  fold brng in B.
  pose proof PI_RGT_0 as Hpi.
  apply js_rem_bounds; [|lra].
  assert (-180 < brng * 180 / PI).
  { pose proof (Rinv_0_lt_compat PI Hpi) as Hi.
    assert (E : -180 = (- PI) * 180 / PI) by (field; lra).
    rewrite E. unfold Rdiv. apply Rmult_lt_compat_r; [exact Hi|]. lra. }
  lra.
Qed.

Lemma getDistanceMeters_nonneg a b : 0 <= getDistanceMeters a b.
Proof.
  rewrite getDistanceMeters_haversine.
  pose proof (Math_atan2_nonneg _ _ (sqrt_pos (haversine a b))
                (sqrt_pos (1 - haversine a b))).
  lra.
Qed.

Lemma getDistanceMeters_sym a b : getDistanceMeters a b = getDistanceMeters b a.
Proof. now rewrite !getDistanceMeters_haversine, (haversine_sym a b). Qed.

Lemma getDistanceMeters_refl a : getDistanceMeters a a = 0.
Proof. apply getDistanceMeters_zero_iff, haversine_refl. Qed.

(** Along the equator the distance is the arc for the longitude
    difference. *)
Lemma haversine_arc v :
  0 <= v < PI / 2 ->
  2 * Math_atan2 (sqrt (sin v * sin v)) (sqrt (1 - sin v * sin v)) = 2 * v.
Proof.
  intros [Hlo Hhi]. pose proof PI_RGT_0 as Hpi.
  assert (Hs : 0 <= sin v) by (apply sin_ge_0; lra).
  assert (Hc : 0 < cos v) by (apply cos_gt_0; lra).
  rewrite sqrt_square by exact Hs.
  replace (1 - sin v * sin v) with (cos v * cos v)
    by (pose proof (sin2_cos2' v); lra).
  rewrite sqrt_square by lra.
  unfold Math_atan2. destruct (Rlt_dec 0 (cos v)); [|contradiction].
  change (sin v / cos v) with (tan v).
  rewrite atan_tan; lra.
Qed.

Lemma distance_on_equator (x y : R) :
  0 <= y - x < 180 ->
  getDistanceMeters (mkLatLng 0 x) (mkLatLng 0 y) =
  6371e3 * ((y - x) * PI / 180).
Proof.
  intros Hd. pose proof PI_RGT_0 as Hpi.
  rewrite getDistanceMeters_haversine. unfold haversine. simpl.
  replace ((0 - 0) * PI / 180 / 2) with 0 by lra.
  replace (0 * PI / 180) with 0 by lra.
  rewrite sin_0, cos_0.
  set (v := (y - x) * PI / 180 / 2).
  replace (0 * 0 + 1 * 1 * sin v * sin v) with (sin v * sin v) by ring.
  rewrite haversine_arc; [unfold v; lra|].
  unfold v. split; nra.
Qed.

Lemma distance_at_pole :
  getDistanceMeters (mkLatLng 90 0) (mkLatLng 90 10) = 0.
Proof.
  apply getDistanceMeters_zero_iff. unfold haversine. simpl.
  replace ((90 - 90) * PI / 180 / 2) with 0 by lra.
  replace (90 * PI / 180) with (PI / 2) by lra.
  rewrite sin_0, cos_PI2. ring.
Qed.

(** ** The distance and the sphere *)

Lemma PI_le_52_15 : PI <= 52 / 15.
Proof.
  pose proof (PI_ineq 0) as [_ H].
  pose proof (PI_ineq 1) as [_ H1].
  unfold tg_alt, PI_tg in H1. simpl in H1. lra.
Qed.

Lemma sin_half_sq x : sin (x / 2) * sin (x / 2) = (1 - cos x) / 2.
Proof.
  replace x with (2 * (x / 2)) at 3 by lra.
  rewrite cos_2a_sin. lra.
Qed.

Lemma chord_haversine a b :
  let '(x1, y1, z1) := spherePoint a in
  let '(x2, y2, z2) := spherePoint b in
  (x1 - x2) * (x1 - x2) + (y1 - y2) * (y1 - y2) + (z1 - z2) * (z1 - z2)
  = 4 * haversine a b.
Proof.
  unfold spherePoint, haversine. cbv zeta.
  set (p1 := lat a * PI / 180). set (p2 := lat b * PI / 180).
  set (l1 := lng a * PI / 180). set (l2 := lng b * PI / 180).
  replace ((lat b - lat a) * PI / 180) with (p2 - p1) by (unfold p1, p2; lra).
  replace ((lng b - lng a) * PI / 180) with (l2 - l1) by (unfold l1, l2; lra).
  replace (cos p1 * cos p2 * sin ((l2 - l1) / 2) * sin ((l2 - l1) / 2))
    with (cos p1 * cos p2 * (sin ((l2 - l1) / 2) * sin ((l2 - l1) / 2)))
    by ring.
  rewrite !sin_half_sq, !cos_minus.
  pose proof (sin2_cos2' p1). pose proof (sin2_cos2' p2).
  pose proof (sin2_cos2' l1). pose proof (sin2_cos2' l2).
  set (c1 := cos p1) in *. set (s1 := sin p1) in *.
  set (c2 := cos p2) in *. set (s2 := sin p2) in *.
  set (cl1 := cos l1) in *. set (sl1 := sin l1) in *.
  set (cl2 := cos l2) in *. set (sl2 := sin l2) in *.
  replace ((c1 * cl1 - c2 * cl2) * (c1 * cl1 - c2 * cl2) +
           (c1 * sl1 - c2 * sl2) * (c1 * sl1 - c2 * sl2) +
           (s1 - s2) * (s1 - s2))
    with (c1 * c1 * (sl1 * sl1 + cl1 * cl1)
          + c2 * c2 * (sl2 * sl2 + cl2 * cl2)
          - 2 * c1 * c2 * (cl1 * cl2 + sl1 * sl2)
          + (s1 * s1 + c1 * c1) + (s2 * s2 + c2 * c2)
          - c1 * c1 - c2 * c2 - 2 * s1 * s2) by ring.
  rewrite H, H0, H1, H2. field.
Qed.

Lemma chord_sqrt a b : chord a b = 2 * sqrt (haversine a b).
Proof.
  pose proof (chord_haversine a b) as H. unfold chord.
  destruct (spherePoint a) as [[x1 y1] z1].
  destruct (spherePoint b) as [[x2 y2] z2].
  rewrite H.
  pose proof (haversine_bounds a b) as [Hlo _].
  rewrite sqrt_mult by lra.
  replace 4 with (2 * 2) by lra. rewrite sqrt_square by lra. reflexivity.
Qed.

Lemma spherePoint_haversine a b :
  spherePoint a = spherePoint b <-> haversine a b = 0.
Proof.
  pose proof (chord_haversine a b) as H.
  destruct (spherePoint a) as [[x1 y1] z1].
  destruct (spherePoint b) as [[x2 y2] z2].
  split.
  - intros E. injection E as -> -> ->. lra.
  - intros E. rewrite E in H.
    pose proof (Rle_0_sqr (x1 - x2)) as Sx.
    pose proof (Rle_0_sqr (y1 - y2)) as Sy.
    pose proof (Rle_0_sqr (z1 - z2)) as Sz.
    unfold Rsqr in Sx, Sy, Sz.
    assert (A : (x1 - x2) * (x1 - x2) = 0) by lra.
    assert (B : (y1 - y2) * (y1 - y2) = 0) by lra.
    assert (C : (z1 - z2) * (z1 - z2) = 0) by lra.
    apply Rmult_integral in A, B, C.
    f_equal; [f_equal|]; lra.
Qed.

(** The distance is the arc of an angle whose sine is the root of the
    haversine term. *)
Lemma distance_arc a b :
  exists v, 0 <= v <= PI / 2
    /\ sin v = sqrt (haversine a b)
    /\ getDistanceMeters a b = 6371e3 * (2 * v).
Proof.
  pose proof PI_RGT_0 as Hpi.
  pose proof (haversine_bounds a b) as [Hlo Hhi].
  rewrite getDistanceMeters_haversine.
  set (hv := haversine a b) in *.
  destruct (Req_dec hv 1) as [E|N].
  - exists (PI / 2). rewrite E, sin_PI2, sqrt_1.
    replace (1 - 1) with 0 by lra. rewrite sqrt_0.
    split; [lra|]. split; [reflexivity|].
    unfold Math_atan2.
    destruct (Rlt_dec 0 0); [lra|]. destruct (Rlt_dec 0 1); [|lra].
    reflexivity.
  - assert (Hs : 0 <= sqrt hv < 1).
    { split; [apply sqrt_pos|].
      rewrite <- sqrt_1. apply sqrt_lt_1; lra. }
    pose proof (asin_bound_lt (sqrt hv) ltac:(lra)) as [Blo Bhi].
    pose proof (sin_asin (sqrt hv) ltac:(lra)) as Hsin.
    set (v := asin (sqrt hv)) in *.
    assert (Hv : 0 <= v).
    { destruct (Rle_dec 0 v) as [|Hn]; [assumption|].
      pose proof (sin_lt_0_var v ltac:(lra) ltac:(lra)). lra. }
    exists v. split; [lra|]. split; [exact Hsin|].
    rewrite <- (haversine_arc v) by lra.
    rewrite Hsin, sqrt_sqrt by lra. reflexivity.
Qed.

Lemma sin_lower x : 0 <= x <= PI -> x - x * x * x / 6 <= sin x.
Proof.
  intros [Hlo Hhi].
  pose proof (sin_bound x 0 Hlo Hhi) as [H _].
  unfold sin_approx, sin_term in H. simpl in H. lra.
Qed.

Lemma arc_le_twice_sine v : 0 <= v <= PI / 2 -> sin v <= v <= 2 * sin v.
Proof.
  intros [Hlo Hhi]. pose proof PI_RGT_0 as Hpi.
  pose proof PI_le_52_15 as Hub.
  split.
  - destruct (Req_dec v 0) as [->|N]; [rewrite sin_0; lra|].
    pose proof (sin_lt_x v ltac:(lra)). lra.
  - destruct (Rle_dec v (7 / 5)) as [Hs|Hl].
    + pose proof (sin_lower v ltac:(lra)) as H. nra.
    + assert (H1 : sin (7 / 5) <= sin v) by (apply sin_incr_1; lra).
      pose proof (sin_lower (7 / 5) ltac:(lra)) as H2. lra.
Qed.

Lemma distance_chord a b :
  6371e3 * chord a b <= getDistanceMeters a b <= 2 * (6371e3 * chord a b).
Proof.
  destruct (distance_arc a b) as (v & Hv & Hs & ->).
  rewrite chord_sqrt, <- Hs.
  pose proof (arc_le_twice_sine v Hv). lra.
Qed.

Lemma sin_within x e : - e <= x <= e -> - e <= sin x <= e.
Proof.
  intros [Hlo Hhi]. pose proof (SIN_bound x) as [A B].
  destruct (Rle_dec 1 e) as [H|H]; [lra|].
  pose proof PI_RGT_0. pose proof PI2_1.
  destruct (Rle_dec 0 x) as [P|Q].
  - destruct (Req_dec x 0) as [->|N]; [rewrite sin_0; lra|].
    pose proof (sin_lt_x x ltac:(lra)).
    pose proof (sin_ge_0 x ltac:(lra) ltac:(lra)). lra.
  - pose proof (sin_lt_x (- x) ltac:(lra)) as Ha. rewrite sin_neg in Ha.
    pose proof (sin_ge_0 (- x) ltac:(lra) ltac:(lra)) as Hb.
    rewrite sin_neg in Hb. lra.
Qed.

Lemma near_pole_distance la lb lo1 lo2 :
  90 - 1e-9 <= la <= 90 + 1e-9 -> 90 - 1e-9 <= lb <= 90 + 1e-9 ->
  getDistanceMeters (mkLatLng la lo1) (mkLatLng lb lo2) <= 1e-3.
Proof.
  intros Ha Hb. pose proof PI_RGT_0 as Hpi. pose proof PI_4 as Hp4.
  pose proof (distance_chord (mkLatLng la lo1) (mkLatLng lb lo2)) as [_ Hd].
  rewrite chord_sqrt in Hd.
  set (eta := 1e-9 * PI / 180).
  assert (He : 0 < eta <= 1e-9 * 4 / 180) by (unfold eta; lra).
  assert (Hh : haversine (mkLatLng la lo1) (mkLatLng lb lo2)
               <= (3 / 2 * eta) * (3 / 2 * eta)).
  { unfold haversine. simpl.
    set (x := (lb - la) * PI / 180 / 2).
    set (y := (lo2 - lo1) * PI / 180 / 2).
    assert (Hx : - eta <= sin x <= eta).
    { apply sin_within. unfold x, eta. nra. }
    assert (Hc : forall l, 90 - 1e-9 <= l <= 90 + 1e-9 ->
                           - eta <= cos (l * PI / 180) <= eta).
    { intros l Hl.
      replace (cos (l * PI / 180)) with (sin ((90 - l) * PI / 180)).
      2:{ rewrite <- (cos_shift ((90 - l) * PI / 180)). f_equal. lra. }
      apply sin_within. unfold eta. nra. }
    pose proof (Hc la Ha) as Hca. pose proof (Hc lb Hb) as Hcb.
    pose proof (SIN_bound y) as [Sy1 Sy2].
    set (sx := sin x) in *. set (sy := sin y) in *.
    set (ca := cos (la * PI / 180)) in *.
    set (cb := cos (lb * PI / 180)) in *.
    assert (T1 : sx * sx <= eta * eta) by nra.
    assert (T2 : 0 <= sy * sy <= 1) by nra.
    assert (T3 : ca * cb <= eta * eta) by nra.
    replace (ca * cb * sy * sy) with ((ca * cb) * (sy * sy)) by ring.
    assert (T4 : (ca * cb) * (sy * sy) <= eta * eta).
    { destruct (Rle_dec 0 (ca * cb)); nra. }
    nra. }
  assert (Hq : sqrt (haversine (mkLatLng la lo1) (mkLatLng lb lo2))
               <= 3 / 2 * eta).
  { rewrite <- (sqrt_square (3 / 2 * eta)) by lra.
    apply sqrt_le_1_alt. exact Hh. }
  lra.
Qed.

(** For latitudes between the poles, the coordinate pairs at distance
    zero. *)
Lemma distance_zero_coordinates a b :
  -90 <= lat a <= 90 -> -90 <= lat b <= 90 ->
  (getDistanceMeters a b = 0 <->
   lat a = lat b /\
   (lat a = 90 \/ lat a = -90 \/
    exists k : Z, lng b - lng a = 360 * IZR k)).
Proof.
  intros Ha Hb. pose proof PI_RGT_0 as Hpi.
  rewrite getDistanceMeters_zero_iff. unfold haversine. cbv zeta.
  set (x := (lat b - lat a) * PI / 180 / 2).
  set (y := (lng b - lng a) * PI / 180 / 2).
  set (p1 := lat a * PI / 180). set (p2 := lat b * PI / 180).
  assert (C1 : 0 <= cos p1) by (apply cos_ge_0; unfold p1; nra).
  assert (C2 : 0 <= cos p2) by (apply cos_ge_0; unfold p2; nra).
  split.
  - intros E.
    assert (Q1 : 0 <= sin x * sin x) by nra.
    assert (Q2 : 0 <= cos p1 * cos p2) by nra.
    assert (Q3 : 0 <= sin y * sin y) by nra.
    assert (Q4 : 0 <= cos p1 * cos p2 * (sin y * sin y)) by nra.
    replace (cos p1 * cos p2 * sin y * sin y)
      with (cos p1 * cos p2 * (sin y * sin y)) in E by ring.
    assert (Sx : sin x * sin x = 0) by lra.
    assert (Sy : cos p1 * cos p2 * (sin y * sin y) = 0) by lra.
    apply Rmult_integral in Sx.
    assert (Zx : sin x = 0) by tauto.
    assert (X0 : x = 0) by (apply sin_zero_small; [unfold x; nra|exact Zx]).
    assert (L : lat a = lat b) by (unfold x in X0; nra).
    split; [exact L|].
    assert (P : p2 = p1) by (unfold p1, p2; rewrite L; reflexivity).
    rewrite P in Sy.
    apply Rmult_integral in Sy. destruct Sy as [Sy|Sy].
    + apply Rmult_integral in Sy.
      assert (Zc : cos p1 = 0) by tauto.
      destruct (Req_dec (lat a) 90) as [|N1]; [now left|].
      destruct (Req_dec (lat a) (-90)) as [|N2]; [now right; left|].
      exfalso.
      pose proof (cos_gt_0 p1 ltac:(unfold p1; nra) ltac:(unfold p1; nra)).
      lra.
    + apply Rmult_integral in Sy.
      assert (Zy : sin y = 0) by tauto.
      apply sin_eq_0_0 in Zy. destruct Zy as [k Hk].
      right; right. exists k. unfold y in Hk. nra.
  - intros [L H].
    assert (X0 : x = 0) by (unfold x; rewrite L; lra).
    assert (P : p2 = p1) by (unfold p1, p2; rewrite L; reflexivity).
    rewrite X0, sin_0, P.
    destruct H as [H|[H|[k H]]].
    + replace p1 with (PI / 2) by (unfold p1; rewrite H; lra).
      rewrite cos_PI2. ring.
    + replace p1 with (- (PI / 2)) by (unfold p1; rewrite H; lra).
      rewrite cos_neg, cos_PI2. ring.
    + assert (Zy : sin y = 0).
      { apply sin_eq_0_1. exists k. unfold y. rewrite H. lra. }
      rewrite Zy. ring.
Qed.

(** C8, as the code has it: the distance is non-negative, symmetric and
    zero from a point to itself; it is zero exactly when the two coordinate
    pairs name the same point of the sphere, and it lies between one and
    two times the earth radius times the straight-line distance of the two
    points of the unit sphere, so that it is within a tolerance of zero
    exactly when the two points are within a tolerance of each other; for
    latitudes in [-90, 90] the pairs at distance zero are those of equal
    latitude that are at a pole or whose longitudes differ by a multiple of
    360; the bearing lies in [0, 360). *)
Theorem C8_geodesic_laws (a b : LatLng) :
  0 <= getDistanceMeters a b
  /\ getDistanceMeters a b = getDistanceMeters b a
  /\ getDistanceMeters a a = 0
  /\ (getDistanceMeters a b = 0 <-> spherePoint a = spherePoint b)
  /\ 6371e3 * chord a b <= getDistanceMeters a b <= 2 * (6371e3 * chord a b)
  /\ (-90 <= lat a <= 90 -> -90 <= lat b <= 90 ->
      (getDistanceMeters a b = 0 <->
       lat a = lat b /\
       (lat a = 90 \/ lat a = -90 \/
        exists k : Z, lng b - lng a = 360 * IZR k)))
  /\ 0 <= getBearing a b < 360.
Proof.
  split; [apply getDistanceMeters_nonneg|].
  split; [apply getDistanceMeters_sym|].
  split; [apply getDistanceMeters_refl|].
  split; [rewrite getDistanceMeters_zero_iff; symmetry;
          apply spherePoint_haversine|].
  split; [apply distance_chord|].
  split; [apply distance_zero_coordinates | apply getBearing_range].
Qed.

Lemma C8_geodesic_laws_witness :
  (-90 <= 10 <= 90 /\ -90 <= 10 <= 90)
  /\ mkLatLng 10 20 <> mkLatLng 10 380
  /\ getDistanceMeters (mkLatLng 10 20) (mkLatLng 10 380) = 0
  /\ spherePoint (mkLatLng 10 20) = spherePoint (mkLatLng 10 380).
Proof.
  assert (D : getDistanceMeters (mkLatLng 10 20) (mkLatLng 10 380) = 0).
  { apply (proj1 (proj2 (proj2 (proj2 (proj2 (proj2
             (C8_geodesic_laws (mkLatLng 10 20) (mkLatLng 10 380)))))))).
    - simpl; lra.
    - simpl; lra.
    - split; [reflexivity|]. right; right. exists 1%Z. simpl. lra. }
  split; [lra|].
  split; [intros E; injection E as E; lra|].
  split; [exact D|].
  apply (proj1 (proj2 (proj2 (proj2
           (C8_geodesic_laws (mkLatLng 10 20) (mkLatLng 10 380)))))).
  exact D.
Defined.

(** C8 as stated fails at the pole: the coordinates (90, 0) and (90, 10)
    differ by ten degrees of longitude and are at distance zero; and for
    every pair of latitudes within 1e-9 degrees of 90 the two coordinates
    are different and less than a millimetre apart, so the failure is not
    one of an exact zero. *)
Lemma C8_pole_counterexample :
  mkLatLng 90 0 <> mkLatLng 90 10
  /\ lng (mkLatLng 90 10) - lng (mkLatLng 90 0) = 10
  /\ getDistanceMeters (mkLatLng 90 0) (mkLatLng 90 10) = 0
  /\ (forall la lb : R,
        90 - 1e-9 <= la <= 90 + 1e-9 -> 90 - 1e-9 <= lb <= 90 + 1e-9 ->
        mkLatLng la 0 <> mkLatLng lb 10
        /\ 0 <= getDistanceMeters (mkLatLng la 0) (mkLatLng lb 10) <= 1e-3).
Proof.
  split; [intros E; injection E as E; lra|].
  split; [simpl; lra|].
  split; [apply distance_at_pole|].
  intros la lb Ha Hb.
  split; [intros E; injection E as _ E; lra|].
  split; [apply getDistanceMeters_nonneg | now apply near_pole_distance].
Qed.

(** ** The worked scenario *)

Lemma list_empty_by_membership {A} (l : list A) :
  (forall x, ~ In x l) -> l = [].
Proof.
  destruct l as [|a l]; [reflexivity|].
  intros H. exfalso. apply (H a). now left.
Qed.

Lemma list_singleton_by_membership {A} (a : A) (l : list A) :
  NoDup l -> In a l -> (forall x, In x l -> x = a) -> l = [a].
Proof.
  intros Hnd Ha Hall.
  destruct l as [|x l]; [destruct Ha|].
  assert (x = a) by (apply Hall; now left). subst x.
  f_equal. apply list_empty_by_membership. intros y Hy.
  assert (y = a) by (apply Hall; now right). subst y.
  now inversion Hnd.
Qed.

Lemma PI_gt_3 : 3 < PI.
Proof. pose proof PI2_3_2. lra. Qed.

Lemma ex_hazard_from_start :
  getDistanceMeters ex_start ex_hazard = 6371e3 * (0.005 * PI / 180).
Proof.
  change (getDistanceMeters (mkLatLng 0 0) (mkLatLng 0 0.005) =
          6371e3 * (0.005 * PI / 180)).
  rewrite distance_on_equator by lra. f_equal. lra.
Qed.

Lemma ex_hazard_to_dest :
  getDistanceMeters ex_hazard ex_dest = 6371e3 * (0.005 * PI / 180).
Proof.
  change (getDistanceMeters (mkLatLng 0 0.005) (mkLatLng 0 0.01) =
          6371e3 * (0.005 * PI / 180)).
  rewrite distance_on_equator by lra. f_equal. lra.
Qed.

Lemma ex_hazard_far : 150 < 6371e3 * (0.005 * PI / 180).
Proof. pose proof PI_gt_3. lra. Qed.

Lemma ex_direct_conflicts :
  checkRouteConflicts ex_store (map toLatLng (coordinates ex_direct))
    ex_pins ex_start ex_dest = [0%nat].
Proof.
  pose proof ex_hazard_far as F.
  apply list_singleton_by_membership.
  - apply checkRouteConflicts_NoDup.
  - apply checkRouteConflicts_In. split; [now left|]. split; [reflexivity|].
    exists (mkLatLng 0 0.005). split; [simpl; tauto|].
    unfold isConflict. split; [|split].
    + change (getDistanceMeters (mkLatLng 0 0.005) (mkLatLng 0 0.005) < 150).
      rewrite getDistanceMeters_refl. lra.
    + change (getDistanceMeters ex_hazard ex_start > 80).
      rewrite getDistanceMeters_sym, ex_hazard_from_start. lra.
    + change (getDistanceMeters ex_hazard ex_dest > 80).
      rewrite ex_hazard_to_dest. lra.
  - intros x Hx. apply checkRouteConflicts_In in Hx.
    destruct Hx as ([<-|[]] & _). reflexivity.
Qed.

Lemma ex_detour_conflicts seconds :
  checkRouteConflicts ex_store
    (map toLatLng (coordinates (ex_detour seconds)))
    ex_pins ex_start ex_dest = [].
Proof.
  pose proof ex_hazard_far as F.
  apply list_empty_by_membership. intros x Hx.
  apply checkRouteConflicts_In in Hx.
  destruct Hx as (_ & _ & point & Hp & Hd & _).
  simpl in Hp. destruct Hp as [<-|[<-|[]]].
  - change (getDistanceMeters ex_start ex_hazard < 150) in Hd.
    rewrite ex_hazard_from_start in Hd. lra.
  - change (getDistanceMeters ex_dest ex_hazard < 150) in Hd.
    rewrite getDistanceMeters_sym, ex_hazard_to_dest in Hd. lra.
Qed.

Lemma no_pins_no_conflicts h routePath startLoc endLoc :
  checkRouteConflicts h routePath [] startLoc endLoc = [].
Proof.
  apply list_empty_by_membership. intros x Hx.
  apply checkRouteConflicts_In in Hx. now destruct Hx as ([] & _).
Qed.

Section SortingHeads.
Context {A : Type}.
Variable key : A -> R.

Lemma hd_sort_cons_le (x d : A) (l : list A) :
  (forall y, In y l -> key x <= key y) ->
  hd d (Array_sort (fun a b => key a - key b) (x :: l)) = x.
Proof.
  intros Hmin.
  change (Array_sort (fun a b => key a - key b) (x :: l))
    with (sort_insert (fun a b => key a - key b) x
            (Array_sort (fun a b => key a - key b) l)).
  rewrite sort_insert_hd.
  pose proof (Array_sort_Permutation key l) as P.
  destruct (Array_sort (fun a b => key a - key b) l) as [|m s];
    [reflexivity|].
  assert (Hm : In m l).
  { apply (Permutation_in m (Permutation_sym P)). now left. }
  apply Hmin in Hm. destruct (Rlt_dec (key m) (key x)); [lra|reflexivity].
Qed.

Lemma hd_sort_cons_gt (x d m : A) (l : list A) :
  l <> [] ->
  hd m (Array_sort (fun a b => key a - key b) l) = m ->
  key m < key x ->
  hd d (Array_sort (fun a b => key a - key b) (x :: l)) = m.
Proof.
  intros Hne Hm Hlt.
  change (Array_sort (fun a b => key a - key b) (x :: l))
    with (sort_insert (fun a b => key a - key b) x
            (Array_sort (fun a b => key a - key b) l)).
  rewrite sort_insert_hd.
  destruct l as [|y l]; [congruence|].
  pose proof (Array_sort_nonempty key y l) as Hs.
  destruct (Array_sort (fun a b => key a - key b) (y :: l)) as [|m' s];
    [congruence|].
  simpl in Hm. subst m'.
  destruct (Rlt_dec (key m) (key x)); [reflexivity|lra].
Qed.

End SortingHeads.

(** The candidates of the scenario. *)
Lemma ex_directCandidate :
  directCandidate ex_store ex_start ex_dest ex_pins ex_direct =
  mkCandidate (map toLatLng (coordinates ex_direct)) ex_direct [0%nat]
              direct (INR 1 * 1000000 + 300).
Proof. unfold directCandidate. now rewrite ex_direct_conflicts. Qed.

Lemma ex_detourCandidate seconds ai entry :
  detourCandidate (ex_world seconds ai) ex_store ex_start ex_dest ex_pins
                  entry =
  [mkCandidate (map toLatLng (coordinates (ex_detour seconds)))
               (ex_detour seconds) [] (fst entry)
               (INR 0 * 1000000 + seconds)].
Proof.
  unfold detourCandidate.
  change (firstRoute (ex_world seconds ai) [ex_start; snd entry; ex_dest])
    with (Some (ex_detour seconds)).
  cbv beta iota zeta. now rewrite ex_detour_conflicts.
Qed.

Lemma ex_mergedCandidates seconds ai :
  mergedCandidates (ex_world seconds ai) ex_store ex_start ex_dest ex_pins
                   ex_direct 0%nat =
  directCandidate ex_store ex_start ex_dest ex_pins ex_direct ::
  map (fun entry =>
         mkCandidate (map toLatLng (coordinates (ex_detour seconds)))
                     (ex_detour seconds) [] (fst entry)
                     (INR 0 * 1000000 + seconds))
      (detourPlan (ex_store 0%nat) (getBearing ex_start ex_dest)).
Proof.
  unfold mergedCandidates. f_equal.
  generalize (detourPlan (ex_store 0%nat) (getBearing ex_start ex_dest)).
  induction l as [|entry l IH]; [reflexivity|].
  cbn [flat_map map]. now rewrite ex_detourCandidate, IH.
Qed.

Lemma ex_firstRoute_direct seconds ai :
  firstRoute (ex_world seconds ai) [ex_start; ex_dest] = Some ex_direct.
Proof. reflexivity. Qed.

Lemma ex_direct_conflicts' :
  conflicts (directCandidate ex_store ex_start ex_dest ex_pins ex_direct)
  = [0%nat].
Proof. now rewrite ex_directCandidate. Qed.

(** With detours of 1200 s the first detour wins; with detours of
    2,000,000 s the direct route is kept. *)
Lemma ex_selected_1200 ai t :
  fst (selectRoute (ex_world 1200 ai) ex_store ex_start ex_dest ex_pins t) =
  Returns (mkCandidate (map toLatLng (coordinates (ex_detour 1200)))
                       (ex_detour 1200) [] (left_ 300)
                       (INR 0 * 1000000 + 1200)).
Proof.
  rewrite selectRoute_run, ex_firstRoute_direct. cbv zeta.
  rewrite ex_direct_conflicts'. cbn [fst]. f_equal.
  rewrite ex_mergedCandidates, ex_directCandidate.
  unfold detourPlan. cbn [map fst].
  apply hd_sort_cons_gt.
  - discriminate.
  - apply hd_sort_cons_le. intros y Hy. simpl in Hy.
    repeat (destruct Hy as [<-|Hy]; [simpl; lra|]). destruct Hy.
  - simpl. lra.
Qed.

Lemma ex_selected_2000000 ai t :
  fst (selectRoute (ex_world 2000000 ai) ex_store ex_start ex_dest ex_pins t)
  = Returns (directCandidate ex_store ex_start ex_dest ex_pins ex_direct).
Proof.
  rewrite selectRoute_run, ex_firstRoute_direct. cbv zeta.
  rewrite ex_direct_conflicts'. cbn [fst]. f_equal.
  rewrite ex_mergedCandidates, ex_directCandidate.
  apply hd_sort_cons_le. intros y Hy.
  apply in_map_iff in Hy. destruct Hy as (entry & <- & _). simpl. lra.
Qed.

(** ** Scoring and selection *)

Section Scoring.
Variable w : World.
Variable h : Store.
Variables start destinationLoc : LatLng.
Variable pins : list ref.

Lemma directCandidate_wellScored d :
  wellScored h start destinationLoc pins (directCandidate h start destinationLoc pins d).
Proof. unfold wellScored, directCandidate. simpl. auto. Qed.

Lemma detourCandidate_wellScored entry c :
  In c (detourCandidate w h start destinationLoc pins entry) ->
  wellScored h start destinationLoc pins c.
Proof.
  unfold detourCandidate.
  destruct (firstRoute w _) as [r|]; [|intros []].
  intros [<-|[]]. unfold wellScored. simpl. auto.
Qed.

Lemma candidateList_wellScored d c :
  In c (candidateList w h start destinationLoc pins d) ->
  wellScored h start destinationLoc pins c.
Proof.
  unfold candidateList.
  destruct (conflicts (directCandidate h start destinationLoc pins d))
    as [|focus rest].
  - intros [<-|[]]. apply directCandidate_wellScored.
  - unfold mergedCandidates. intros [<-|Hc].
    + apply directCandidate_wellScored.
    + apply in_flat_map in Hc. destruct Hc as (entry & _ & Hc).
      now apply detourCandidate_wellScored in Hc.
Qed.

(** The selection returns the stable minimum of the scored candidates. *)
Lemma selectRoute_StableMin d t :
  firstRoute w [start; destinationLoc] = Some d ->
  exists sel t',
    selectRoute w h start destinationLoc pins t = (Returns sel, t') /\
    StableMin score sel (candidateList w h start destinationLoc pins d).
Proof.
  intros Hd. rewrite selectRoute_run, Hd. cbv zeta. unfold candidateList.
  destruct (conflicts (directCandidate h start destinationLoc pins d))
    as [|focus rest].
  - eexists _, _. split; [reflexivity|].
    exists [], []. repeat split; intros x [].
  - eexists _, _. split; [reflexivity|].
    apply Array_sort_hd_StableMin. discriminate.
Qed.

Lemma zero_conflict_wins (cands : list Candidate) (sel alt : Candidate) :
  (forall c, In c cands -> wellScored h start destinationLoc pins c) ->
  (forall c, In c cands -> 0 <= duration (data c)) ->
  In sel cands -> (forall c, In c cands -> score sel <= score c) ->
  In alt cands -> conflicts alt = [] -> duration (data alt) < 1000000 ->
  conflicts sel = [].
Proof.
  intros Hws Hdur Hsel Hmin Halt Hzero Hshort.
  pose proof (Hmin alt Halt) as Hle.
  destruct (Hws alt Halt) as (_ & _ & Sa).
  destruct (Hws sel Hsel) as (_ & _ & Ss).
  pose proof (Hdur sel Hsel) as Hd.
  rewrite Hzero in Sa. simpl in Sa.
  destruct (conflicts sel) as [|p ps]; [reflexivity|exfalso].
  change (List.length (p :: ps)) with (S (List.length ps)) in Ss.
  rewrite S_INR in Ss. pose proof (pos_INR (List.length ps)). nra.
Qed.

End Scoring.

(** C1, as the code has it: every scored candidate has score
    (conflicts × 1,000,000) + duration, and the selected candidate is one of
    them with the lowest score; when durations are non-negative and some
    candidate has no conflict and a duration below 1,000,000 s, the selected
    candidate has no conflict.  In the scenario the direct route (300 s, one
    conflict) scores 1,000,300 and a detour of 1,200 s without conflict
    scores 1,200 and is selected. *)
Theorem C1_score_and_selection :
  (forall w h start destinationLoc pins d t,
     firstRoute w [start; destinationLoc] = Some d ->
     let cands := candidateList w h start destinationLoc pins d in
     exists sel t',
       selectRoute w h start destinationLoc pins t = (Returns sel, t')
       /\ In sel cands
       /\ (forall c, In c cands ->
             score c =
             INR (List.length
                    (checkRouteConflicts h
                       (map toLatLng (coordinates (data c)))
                       pins start destinationLoc)) * 1000000
             + duration (data c))
       /\ (forall c, In c cands -> score sel <= score c)
       /\ ((forall c, In c cands -> 0 <= duration (data c)) ->
           forall alt, In alt cands -> conflicts alt = [] ->
             duration (data alt) < 1000000 -> conflicts sel = []))
  /\ (score (directCandidate ex_store ex_start ex_dest ex_pins ex_direct)
        = 1000300
      /\ exists sel,
           fst (selectRoute (ex_world 1200 None) ex_store ex_start ex_dest
                            ex_pins []) = Returns sel
           /\ type sel = left_ 300 /\ conflicts sel = []
           /\ duration (data sel) = 1200 /\ score sel = 1200).
Proof.
  split.
  - intros w h start destinationLoc pins d t Hd cands.
    destruct (selectRoute_StableMin w h start destinationLoc pins d t Hd)
      as (sel & t' & Hrun & Hmin).
    fold cands in Hmin.
    pose proof (StableMin_In _ _ _ Hmin) as Hin.
    pose proof (StableMin_le _ _ _ Hmin) as Hle.
    pose proof (candidateList_wellScored w h start destinationLoc pins d)
      as Hws. fold cands in Hws.
    exists sel, t'. split; [exact Hrun|]. split; [exact Hin|].
    split; [|split; [exact Hle|]].
    + intros c Hc. destruct (Hws c Hc) as (E1 & E2 & E3).
      now rewrite E3, E2, E1.
    + intros Hdur alt Halt Hzero Hshort.
      exact (zero_conflict_wins h start destinationLoc pins cands sel alt
               Hws Hdur Hin Hle Halt Hzero Hshort).
  - split.
    + rewrite ex_directCandidate. simpl. lra.
    + eexists. split; [apply ex_selected_1200|].
      simpl. repeat split; lra.
Qed.

Lemma C1_score_and_selection_witness :
  firstRoute (ex_world 1200 None) [ex_start; ex_dest] = Some ex_direct /\
  let cands :=
    candidateList (ex_world 1200 None) ex_store ex_start ex_dest ex_pins
                  ex_direct in
  exists sel t',
    selectRoute (ex_world 1200 None) ex_store ex_start ex_dest ex_pins []
      = (Returns sel, t')
    /\ In sel cands
    /\ (forall c, In c cands ->
          score c =
          INR (List.length
                 (checkRouteConflicts ex_store
                    (map toLatLng (coordinates (data c)))
                    ex_pins ex_start ex_dest)) * 1000000
          + duration (data c))
    /\ (forall c, In c cands -> score sel <= score c)
    /\ ((forall c, In c cands -> 0 <= duration (data c)) ->
        forall alt, In alt cands -> conflicts alt = [] ->
          duration (data alt) < 1000000 -> conflicts sel = []).
Proof.
  split; [reflexivity|].
  apply (proj1 C1_score_and_selection (ex_world 1200 None) ex_store
           ex_start ex_dest ex_pins ex_direct []).
  reflexivity.
Defined.

(** C1 as stated fails for a long detour: the direct route has exactly one
    conflict, a returned detour has none, and the direct route is
    selected. *)
Lemma C1_long_detour_counterexample :
  let w := ex_world 2000000 None in
  let directRoute :=
    directCandidate ex_store ex_start ex_dest ex_pins ex_direct in
  List.length (conflicts directRoute) = 1%nat
  /\ (exists alt,
        In alt (candidateList w ex_store ex_start ex_dest ex_pins ex_direct)
        /\ type alt = left_ 300 /\ conflicts alt = []
        /\ duration (data alt) = 2000000)
  /\ fst (selectRoute w ex_store ex_start ex_dest ex_pins [])
     = Returns directRoute.
Proof.
  intros w directRoute. subst w directRoute.
  split; [now rewrite ex_direct_conflicts'|].
  split; [|apply ex_selected_2000000].
  unfold candidateList. rewrite ex_direct_conflicts', ex_mergedCandidates.
  eexists. split; [right; left; reflexivity|].
  simpl. auto.
Qed.

(** C3: when the direct route has conflicts, the merged list is the direct
    candidate followed by the returned detours in the order left-300,
    right-300, left-600, right-600, left-1000, right-1000, left-1500,
    right-1500, and the selected candidate is its stable minimum: every
    candidate before it scores strictly more, every candidate after it
    scores at least as much. *)
Theorem C3_stable_minimum (w : World) (h : Store)
    (start destinationLoc : LatLng) (pins : list ref)
    (d : OSRMRoute) (focus : ref) (rest : list ref) (t : list Event) :
  firstRoute w [start; destinationLoc] = Some d ->
  conflicts (directCandidate h start destinationLoc pins d)
    = focus :: rest ->
  let bearing := getBearing start destinationLoc in
  let merged :=
    directCandidate h start destinationLoc pins d ::
    flat_map (detourCandidate w h start destinationLoc pins)
      [ (left_ 300, getDestinationPoint (h focus) 300 (bearing - 90));
        (right_ 300, getDestinationPoint (h focus) 300 (bearing + 90));
        (left_ 600, getDestinationPoint (h focus) 600 (bearing - 90));
        (right_ 600, getDestinationPoint (h focus) 600 (bearing + 90));
        (left_ 1000, getDestinationPoint (h focus) 1000 (bearing - 90));
        (right_ 1000, getDestinationPoint (h focus) 1000 (bearing + 90));
        (left_ 1500, getDestinationPoint (h focus) 1500 (bearing - 90));
        (right_ 1500, getDestinationPoint (h focus) 1500 (bearing + 90)) ] in
  exists sel t' before after,
    selectRoute w h start destinationLoc pins t = (Returns sel, t')
    /\ merged = before ++ sel :: after
    /\ (forall c, In c before -> score sel < score c)
    /\ (forall c, In c after -> score sel <= score c).
Proof.
  intros Hd Hc bearing merged.
  destruct (selectRoute_StableMin w h start destinationLoc pins d t Hd)
    as (sel & t' & Hrun & Hmin).
  unfold candidateList in Hmin. rewrite Hc in Hmin.
  destruct Hmin as (before & after & Hl & Hb & Ha).
  exists sel, t', before, after. repeat split; assumption.
Qed.

Lemma C3_stable_minimum_witness :
  firstRoute (ex_world 1200 None) [ex_start; ex_dest] = Some ex_direct
  /\ conflicts (directCandidate ex_store ex_start ex_dest ex_pins ex_direct)
     = [0%nat]
  /\ exists sel t' before after,
       selectRoute (ex_world 1200 None) ex_store ex_start ex_dest ex_pins []
         = (Returns sel, t')
       /\ mergedCandidates (ex_world 1200 None) ex_store ex_start ex_dest
            ex_pins ex_direct 0%nat = before ++ sel :: after
       /\ (forall c, In c before -> score sel < score c)
       /\ (forall c, In c after -> score sel <= score c).
Proof.
  split; [reflexivity|]. split; [apply ex_direct_conflicts'|].
  apply (C3_stable_minimum (ex_world 1200 None) ex_store ex_start ex_dest
           ex_pins ex_direct 0%nat [] []).
  - reflexivity.
  - apply ex_direct_conflicts'.
Defined.

(** ** The requests and the outcome of a calculation *)

Lemma fetchedUrls_app t1 t2 :
  fetchedUrls (t1 ++ t2) = fetchedUrls t1 ++ fetchedUrls t2.
Proof.
  induction t1 as [|[url|p|l] t1 IH]; simpl; [reflexivity| |assumption..].
  now rewrite IH.
Qed.

Lemma fetchedUrls_fetchEvents w url : fetchedUrls (fetchEvents w url) = [url].
Proof. unfold fetchEvents. now destruct (fetch w url). Qed.

Lemma fetchedUrls_eventsOf w start destinationLoc plan :
  fetchedUrls (eventsOf w start destinationLoc plan) =
  map (fun entry => [start; snd entry; destinationLoc]) plan.
Proof.
  induction plan as [|entry plan IH]; [reflexivity|].
  unfold eventsOf in *. cbn [flat_map map].
  now rewrite fetchedUrls_app, fetchedUrls_fetchEvents, IH.
Qed.

Section Describe.
Variable w : World.
Variable h : Store.
Variables start destinationLoc : LatLng.
Variable destinationName : string.
Variable pins : list ref.

Lemma describeRoute_run sel t :
  describeRoute w start destinationName sel t =
  match generateContent w (promptFor start destinationName sel) with
  | Some resp =>
      (Returns (RouteResponse.mk (coords sel)
                  (Some (formatDuration (duration (data sel))))
                  (Some (noteFor w resp (List.length (conflicts sel))))),
       t ++ [EvGenerate (promptFor start destinationName sel)])
  | None =>
      (Throws Rejected,
       t ++ [EvGenerate (promptFor start destinationName sel)])
  end.
Proof.
  unfold describeRoute, bind, ai_generateContent, emit, bind.
  fold (promptFor start destinationName sel).
  destruct (generateContent w _) as [resp|]; reflexivity.
Qed.

Lemma noteFor_fallback resp dangerCount :
  noUsableNote w resp ->
  noteFor w resp dangerCount = fallbackNote dangerCount.
Proof.
  unfold noUsableNote, noteFor.
  assert (F : (if (0 <? dangerCount)%nat && String.eqb STAY_AWARE STAY_AWARE
               then STRICT_WARNING else STAY_AWARE)
              = fallbackNote dangerCount).
  { rewrite String.eqb_refl. now destruct dangerCount. }
  destruct (text resp) as [txt|]; [|intros _; exact F].
  intros [E|E]; rewrite E; [exact F|].
  destruct (nonEmpty txt); exact F.
Qed.

Lemma getSafeRoute_run t :
  getSafeRoute w h start destinationLoc destinationName pins t =
  match tryBlock w h start destinationLoc destinationName pins t with
  | (Returns r, t') => (Returns r, t')
  | (Throws e, t') =>
      (Returns (RouteResponse.mk [] None (Some APOLOGY)),
       t' ++ [EvConsoleError "Route generation failed:"])
  end.
Proof.
  unfold getSafeRoute, try_catch.
  destruct (tryBlock _ _ _ _ _ _ t) as [[r|e] t']; reflexivity.
Qed.

Lemma tryBlock_run t :
  tryBlock w h start destinationLoc destinationName pins t =
  match selectRoute w h start destinationLoc pins t with
  | (Returns sel, t1) => describeRoute w start destinationName sel t1
  | (Throws e, t1) => (Throws e, t1)
  end.
Proof. reflexivity. Qed.

End Describe.

Lemma mergedCandidates_In w h start destinationLoc pins d focus c :
  In c (mergedCandidates w h start destinationLoc pins d focus) <->
  c = directCandidate h start destinationLoc pins d \/
  exists entry r,
    In entry (detourPlan (h focus) (getBearing start destinationLoc)) /\
    firstRoute w [start; snd entry; destinationLoc] = Some r /\
    c = mkCandidate (map toLatLng (coordinates r)) r
          (checkRouteConflicts h (map toLatLng (coordinates r)) pins
             start destinationLoc)
          (fst entry)
          (INR (List.length
                  (checkRouteConflicts h (map toLatLng (coordinates r)) pins
                     start destinationLoc)) * 1000000 + duration r).
Proof.
  unfold mergedCandidates. split.
  - intros [<-|Hc]; [now left|right].
    apply in_flat_map in Hc. destruct Hc as (entry & Hin & Hc).
    unfold detourCandidate in Hc.
    destruct (firstRoute w _) as [r|] eqn:E; [|destruct Hc].
    destruct Hc as [<-|[]]. now exists entry, r.
  - intros [->|(entry & r & Hin & E & ->)]; [now left|right].
    apply in_flat_map. exists entry. split; [exact Hin|].
    unfold detourCandidate. rewrite E. now left.
Qed.

(** C4: when the direct route has conflicts, the requests made after the
    direct one are exactly eight, through the first conflicting pin
    projected by 300, 600, 1000 and 1500 m at bearing - 90 and at
    bearing + 90 of the start-to-destination bearing, in this order; the
    candidates are the direct one and one for each request that returned a
    route; the selection returns one of them whatever the requests
    returned, and the calculation returns that route whenever the narrative
    service answers. *)
Theorem C4_detour_fanout (w : World) (h : Store)
    (start destinationLoc : LatLng) (destinationName : string)
    (pins : list ref) (d : OSRMRoute) (focus : ref) (rest : list ref)
    (t : list Event) :
  firstRoute w [start; destinationLoc] = Some d ->
  conflicts (directCandidate h start destinationLoc pins d)
    = focus :: rest ->
  let bearing := getBearing start destinationLoc in
  let hazard : LatLng := h focus in
  let waypoints :=
    [ getDestinationPoint hazard 300 (bearing - 90);
      getDestinationPoint hazard 300 (bearing + 90);
      getDestinationPoint hazard 600 (bearing - 90);
      getDestinationPoint hazard 600 (bearing + 90);
      getDestinationPoint hazard 1000 (bearing - 90);
      getDestinationPoint hazard 1000 (bearing + 90);
      getDestinationPoint hazard 1500 (bearing - 90);
      getDestinationPoint hazard 1500 (bearing + 90) ] in
  let merged := mergedCandidates w h start destinationLoc pins d focus in
  exists sel t',
    selectRoute w h start destinationLoc pins t = (Returns sel, t')
    /\ fetchedUrls t' =
       fetchedUrls t ++
       [start; destinationLoc] ::
       map (fun wp => [start; wp; destinationLoc]) waypoints
    /\ (forall c, In c merged <->
          c = directCandidate h start destinationLoc pins d \/
          exists entry r,
            In entry (detourPlan hazard bearing) /\
            firstRoute w [start; snd entry; destinationLoc] = Some r /\
            c = mkCandidate (map toLatLng (coordinates r)) r
                  (checkRouteConflicts h (map toLatLng (coordinates r))
                     pins start destinationLoc)
                  (fst entry)
                  (INR (List.length
                          (checkRouteConflicts h
                             (map toLatLng (coordinates r)) pins
                             start destinationLoc)) * 1000000
                   + duration r))
    /\ In sel merged
    /\ (forall resp,
          generateContent w (promptFor start destinationName sel)
            = Some resp ->
          exists note t'',
            getSafeRoute w h start destinationLoc destinationName pins t =
            (Returns (RouteResponse.mk (coords sel)
                        (Some (formatDuration (duration (data sel))))
                        (Some note)), t'')).
Proof.
  intros Hd Hc bearing hazard waypoints merged.
  pose proof (selectRoute_run w h start destinationLoc pins t) as Hrun.
  rewrite Hd in Hrun. cbv zeta in Hrun. rewrite Hc in Hrun.
  eexists _, _. split; [exact Hrun|].
  split; [|split; [|split]].
  - rewrite !fetchedUrls_app, fetchedUrls_fetchEvents, fetchedUrls_eventsOf.
    rewrite <- app_assoc. reflexivity.
  - intros c. apply mergedCandidates_In.
  - apply (StableMin_In score). apply Array_sort_hd_StableMin. discriminate.
  - intros resp Hresp.
    rewrite getSafeRoute_run, tryBlock_run, Hrun, describeRoute_run, Hresp.
    eexists _, _. reflexivity.
Qed.

Lemma C4_detour_fanout_witness :
  firstRoute (ex_world 1200 None) [ex_start; ex_dest] = Some ex_direct
  /\ conflicts (directCandidate ex_store ex_start ex_dest ex_pins ex_direct)
     = [0%nat]
  /\ exists sel t',
       selectRoute (ex_world 1200 None) ex_store ex_start ex_dest ex_pins []
         = (Returns sel, t')
       /\ List.length (fetchedUrls t') = 9%nat.
Proof.
  split; [reflexivity|]. split; [apply ex_direct_conflicts'|].
  destruct (C4_detour_fanout (ex_world 1200 None) ex_store ex_start ex_dest
              "Library" ex_pins ex_direct 0%nat [] []
              eq_refl ex_direct_conflicts')
    as (sel & t' & Hrun & Hurls & _).
  exists sel, t'. split; [exact Hrun|]. now rewrite Hurls.
Defined.

(** When the routing provider has no direct route the calculation returns
    the empty route with the apology, and it never throws. *)
Lemma getSafeRoute_no_route w h start destinationLoc destinationName pins t :
  firstRoute w [start; destinationLoc] = None ->
  getSafeRoute w h start destinationLoc destinationName pins t =
  (Returns (RouteResponse.mk [] None (Some APOLOGY)),
   (t ++ fetchEvents w [start; destinationLoc])
   ++ [EvConsoleError "Route generation failed:"]).
Proof.
  intros Hnone.
  now rewrite getSafeRoute_run, tryBlock_run, selectRoute_run, Hnone.
Qed.

Lemma getSafeRoute_never_throws w h start destinationLoc destinationName
    pins t :
  exists r t',
    getSafeRoute w h start destinationLoc destinationName pins t
    = (Returns r, t').
Proof.
  rewrite getSafeRoute_run.
  destruct (tryBlock _ _ _ _ _ _ t) as [[r|e] t']; eauto.
Qed.

(** When the narrative service answers without a usable note the chosen
    route is returned with the fallback sentence for its conflicts. *)
Lemma getSafeRoute_fallback w h start destinationLoc destinationName pins t
    sel t1 resp :
  selectRoute w h start destinationLoc pins t = (Returns sel, t1) ->
  generateContent w (promptFor start destinationName sel) = Some resp ->
  noUsableNote w resp ->
  fst (getSafeRoute w h start destinationLoc destinationName pins t) =
  Returns (RouteResponse.mk (coords sel)
             (Some (formatDuration (duration (data sel))))
             (Some (fallbackNote (List.length (conflicts sel))))).
Proof.
  intros Hsel Hresp Hnote.
  rewrite getSafeRoute_run, tryBlock_run, Hsel, describeRoute_run, Hresp.
  now rewrite noteFor_fallback.
Qed.

Lemma ex_selected_no_pins seconds ai t :
  selectRoute (ex_world seconds ai) ex_store ex_start ex_dest [] t =
  (Returns (directCandidate ex_store ex_start ex_dest [] ex_direct),
   t ++ [EvFetch [ex_start; ex_dest]]).
Proof.
  rewrite selectRoute_run, ex_firstRoute_direct. cbv zeta.
  unfold directCandidate at 1. rewrite no_pins_no_conflicts. reflexivity.
Qed.

(** C5, at the failing input: the routing provider returns a direct route
    and no pin is reported, the narrative service rejects the request, and
    the calculation returns the empty route with the apology. *)
Theorem C5_apology_with_direct_route :
  firstRoute (ex_world 1200 None) [ex_start; ex_dest] = Some ex_direct
  /\ fst (selectRoute (ex_world 1200 None) ex_store ex_start ex_dest [] [])
     = Returns (directCandidate ex_store ex_start ex_dest [] ex_direct)
  /\ fst (getSafeRoute (ex_world 1200 None) ex_store ex_start ex_dest
                       "Library" [] [])
     = Returns (RouteResponse.mk [] None (Some APOLOGY)).
Proof.
  split; [reflexivity|]. split.
  - now rewrite ex_selected_no_pins.
  - rewrite getSafeRoute_run, tryBlock_run, ex_selected_no_pins.
    rewrite describeRoute_run. reflexivity.
Qed.

(** C6, at the failing inputs: whenever a route has been selected and the
    narrative service rejects the request, the calculation returns the
    empty route with the apology instead of the selected route with a
    fallback sentence. *)
Theorem C6_rejection_discards_route (w : World) (h : Store)
    (start destinationLoc : LatLng) (destinationName : string)
    (pins : list ref) (t : list Event) (sel : Candidate) (t1 : list Event) :
  selectRoute w h start destinationLoc pins t = (Returns sel, t1) ->
  generateContent w (promptFor start destinationName sel) = None ->
  getSafeRoute w h start destinationLoc destinationName pins t =
  (Returns (RouteResponse.mk [] None (Some APOLOGY)),
   (t1 ++ [EvGenerate (promptFor start destinationName sel)])
   ++ [EvConsoleError "Route generation failed:"]).
Proof.
  intros Hsel Hrej.
  now rewrite getSafeRoute_run, tryBlock_run, Hsel, describeRoute_run, Hrej.
Qed.

Lemma C6_rejection_discards_route_witness :
  let sel := directCandidate ex_store ex_start ex_dest [] ex_direct in
  selectRoute (ex_world 1200 None) ex_store ex_start ex_dest [] []
    = (Returns sel, [EvFetch [ex_start; ex_dest]])
  /\ generateContent (ex_world 1200 None) (promptFor ex_start "Library" sel)
     = None
  /\ getSafeRoute (ex_world 1200 None) ex_store ex_start ex_dest "Library"
       [] []
     = (Returns (RouteResponse.mk [] None (Some APOLOGY)),
        ([EvFetch [ex_start; ex_dest]]
         ++ [EvGenerate (promptFor ex_start "Library" sel)])
        ++ [EvConsoleError "Route generation failed:"]).
Proof.
  intros sel. split; [apply (ex_selected_no_pins 1200 None [])|].
  split; [reflexivity|].
  apply (C6_rejection_discards_route (ex_world 1200 None) ex_store ex_start
           ex_dest "Library" [] [] sel [EvFetch [ex_start; ex_dest]]).
  - apply (ex_selected_no_pins 1200 None []).
  - reflexivity.
Defined.

(** C9: when the body of the calculation returns, the response carries the
    route of a selected candidate, the formatted duration of that candidate
    and a safety note; when it throws, the response is the empty route with
    no duration and the apology. *)
Theorem C9_duration_presence (w : World) (h : Store)
    (start destinationLoc : LatLng) (destinationName : string)
    (pins : list ref) (t : list Event) :
  match tryBlock w h start destinationLoc destinationName pins t with
  | (Returns r, t') =>
      getSafeRoute w h start destinationLoc destinationName pins t
        = (Returns r, t')
      /\ exists sel note,
           fst (selectRoute w h start destinationLoc pins t) = Returns sel
           /\ RouteResponse.route r = coords sel
           /\ RouteResponse.duration r
              = Some (formatDuration (duration (data sel)))
           /\ RouteResponse.safetyNote r = Some note
  | (Throws e, t') =>
      getSafeRoute w h start destinationLoc destinationName pins t
        = (Returns (RouteResponse.mk [] None (Some APOLOGY)),
           t' ++ [EvConsoleError "Route generation failed:"])
  end.
Proof.
  rewrite getSafeRoute_run, tryBlock_run.
  destruct (selectRoute w h start destinationLoc pins t) as [[sel|e] t1].
  - rewrite describeRoute_run.
    destruct (generateContent w _) as [resp|].
    + split; [reflexivity|]. eexists sel, _. repeat split.
    + reflexivity.
  - reflexivity.
Qed.

(* ================================================================= *)
(** * Further properties *)

(** ** Geodesic utilities: projection and bounds *)

(** Polar form of [Math_atan2]. *)
Lemma sqrt_sum_squares_scaled x y :
  0 < x -> sqrt (x * x + y * y) = x * sqrt (1 + (y / x) * (y / x)).
Proof.
  intros Hx.
  apply sqrt_lem_1.
  - nra.
  - apply Rmult_le_pos; [lra | apply sqrt_pos].
  - replace (x * sqrt (1 + y / x * (y / x)) * (x * sqrt (1 + y / x * (y / x))))
      with (x * x * (sqrt (1 + y / x * (y / x)) * sqrt (1 + y / x * (y / x))))
      by ring.
    rewrite sqrt_sqrt by nra. field. lra.
Qed.

Lemma sqrt_one_plus_square_pos z : 0 < sqrt (1 + z * z).
Proof. apply sqrt_lt_R0. nra. Qed.

Lemma atan_polar z :
  cos (atan z) * sqrt (1 + z * z) = 1 /\
  sin (atan z) * sqrt (1 + z * z) = z.
Proof.
  pose proof (sqrt_one_plus_square_pos z) as Hp.
  rewrite cos_atan, sin_atan. unfold Rsqr.
  replace (z ^ 2) with (z * z) by ring.
  split; field; lra.
Qed.

Lemma Math_atan2_polar y x :
  let rho := sqrt (x * x + y * y) in
  x = rho * cos (Math_atan2 y x) /\ y = rho * sin (Math_atan2 y x).
Proof.
  intros rho. subst rho. unfold Math_atan2.
  destruct (Rlt_dec 0 x) as [Hx|Hx].
  - rewrite sqrt_sum_squares_scaled by exact Hx.
    destruct (atan_polar (y / x)) as [C S].
    split.
    + transitivity (x * (cos (atan (y / x)) * sqrt (1 + y / x * (y / x)))).
      * rewrite C. ring.
      * ring.
    + transitivity (x * (sin (atan (y / x)) * sqrt (1 + y / x * (y / x)))).
      * rewrite S. field. lra.
      * ring.
  - destruct (Rlt_dec x 0) as [Hx'|Hx'].
    + assert (E : sqrt (x * x + y * y)
                  = (- x) * sqrt (1 + (y / x) * (y / x))).
      { replace (x * x + y * y) with ((- x) * (- x) + y * y) by ring.
        rewrite sqrt_sum_squares_scaled by lra.
        f_equal. f_equal. field. lra. }
      rewrite E. destruct (atan_polar (y / x)) as [C S].
      destruct (Rle_dec 0 y).
      * rewrite neg_cos, neg_sin. split.
        -- transitivity (x * (cos (atan (y / x)) * sqrt (1 + y / x * (y / x)))).
           ++ rewrite C. ring.
           ++ ring.
        -- transitivity (x * (sin (atan (y / x)) * sqrt (1 + y / x * (y / x)))).
           ++ rewrite S. field. lra.
           ++ ring.
      * replace (atan (y / x) - PI) with (- (PI - atan (y / x))) by ring.
        rewrite cos_neg, sin_neg.
        replace (PI - atan (y / x)) with (- atan (y / x) + PI) by ring.
        rewrite neg_cos, neg_sin, cos_neg, sin_neg. split.
        -- transitivity (x * (cos (atan (y / x)) * sqrt (1 + y / x * (y / x)))).
           ++ rewrite C. ring.
           ++ ring.
        -- transitivity (x * (sin (atan (y / x)) * sqrt (1 + y / x * (y / x)))).
           ++ rewrite S. field. lra.
           ++ ring.
    + assert (x = 0) by lra. subst x.
      replace (0 * 0 + y * y) with (y * y) by ring.
      destruct (Rlt_dec 0 y) as [Hy|Hy].
      * rewrite sqrt_square by lra. rewrite cos_PI2, sin_PI2. lra.
      * destruct (Rlt_dec y 0) as [Hy'|Hy'].
        -- replace (y * y) with ((- y) * (- y)) by ring.
           rewrite sqrt_square by lra.
           rewrite cos_neg, sin_neg, cos_PI2, sin_PI2. lra.
        -- assert (y = 0) by lra. subst y.
           rewrite Rmult_0_l, sqrt_0. lra.
Qed.

Lemma sin_half_square u : sin (u / 2) * sin (u / 2) = (1 - cos u) / 2.
Proof.
  replace u with (2 * (u / 2)) at 3 by lra.
  rewrite cos_2a_sin. lra.
Qed.

Lemma haversine_central_angle p1 p2 :
  let phi1 := lat p1 * PI / 180 in
  let phi2 := lat p2 * PI / 180 in
  let dlam := (lng p2 - lng p1) * PI / 180 in
  haversine p1 p2 =
  (1 - (sin phi1 * sin phi2 + cos phi1 * cos phi2 * cos dlam)) / 2.
Proof.
  intros phi1 phi2 dlam. unfold haversine. cbv zeta.
  fold phi1 phi2 dlam.
  replace ((lat p2 - lat p1) * PI / 180) with (phi2 - phi1)
    by (unfold phi1, phi2; lra).
  rewrite sin_half_square.
  replace (cos phi1 * cos phi2 * sin (dlam / 2) * sin (dlam / 2))
    with (cos phi1 * cos phi2 * (sin (dlam / 2) * sin (dlam / 2))) by ring.
  rewrite sin_half_square, cos_minus. lra.
Qed.

Lemma haversine_arc_closed v :
  0 <= v <= PI / 2 ->
  2 * Math_atan2 (sqrt (sin v * sin v)) (sqrt (1 - sin v * sin v)) = 2 * v.
Proof.
  intros [Hlo Hhi]. destruct (Rle_lt_or_eq_dec _ _ Hhi) as [Hlt|Heq].
  - apply haversine_arc. lra.
  - subst v. rewrite sin_PI2.
    replace (1 - 1 * 1) with 0 by ring. rewrite sqrt_0.
    replace (1 * 1) with 1 by ring. rewrite sqrt_1.
    unfold Math_atan2.
    destruct (Rlt_dec 0 0); [lra|]. destruct (Rlt_dec 0 0); [lra|].
    destruct (Rlt_dec 0 1); lra.
Qed.

Section Projection.
Variable start : LatLng.
Variables distanceMeters bearing : R.

Lemma projection_unit :
  projectionSine start distanceMeters bearing
    * projectionSine start distanceMeters bearing
  + projectionNorth start distanceMeters bearing
    * projectionNorth start distanceMeters bearing
  + projectionEast distanceMeters bearing
    * projectionEast distanceMeters bearing = 1.
Proof.
  unfold projectionSine, projectionNorth, projectionEast.
  set (phi1 := lat start * PI / 180).
  set (delta := distanceMeters / 6371e3).
  set (theta := bearing * PI / 180).
  pose proof (sin2_cos2' phi1) as H. pose proof (sin2_cos2' delta) as H0.
  pose proof (sin2_cos2' theta) as H1.
  set (sp := sin phi1) in *. set (cp := cos phi1) in *.
  set (sd := sin delta) in *. set (cd := cos delta) in *.
  set (st := sin theta) in *. set (ct := cos theta) in *.
  replace ((sp * cd + cp * sd * ct) * (sp * cd + cp * sd * ct) +
           (cd * cp - sp * sd * ct) * (cd * cp - sp * sd * ct) +
           st * sd * (st * sd))
    with (cd * cd * (sp * sp + cp * cp) +
          sd * sd * (ct * ct * (sp * sp + cp * cp) + st * st)) by ring.
  rewrite H. replace (ct * ct * 1 + st * st) with (st * st + ct * ct) by ring.
  rewrite H1. lra.
Qed.

Lemma projectionSine_bound :
  -1 <= projectionSine start distanceMeters bearing <= 1.
Proof. pose proof projection_unit. split; nra. Qed.

Lemma projection_lat :
  lat (getDestinationPoint start distanceMeters bearing) * PI / 180
  = asin (projectionSine start distanceMeters bearing).
Proof.
  unfold getDestinationPoint, projectionSine. cbv zeta. simpl.
  pose proof PI_RGT_0. field. lra.
Qed.

Lemma projection_north_east :
  cos (distanceMeters / 6371e3)
    - sin (lat start * PI / 180)
      * projectionSine start distanceMeters bearing
  = cos (lat start * PI / 180)
    * projectionNorth start distanceMeters bearing.
Proof.
  unfold projectionNorth, projectionSine.
  set (phi1 := lat start * PI / 180).
  set (delta := distanceMeters / 6371e3).
  pose proof (sin2_cos2' phi1) as H.
  assert (E : cos delta * (sin phi1 * sin phi1 + cos phi1 * cos phi1)
              = cos delta) by (rewrite H; ring).
  rewrite <- E at 1. ring.
Qed.

Lemma projection_dlam :
  (lng (getDestinationPoint start distanceMeters bearing) - lng start)
    * PI / 180
  = Math_atan2 (cos (lat start * PI / 180)
                * projectionEast distanceMeters bearing)
               (cos (lat start * PI / 180)
                * projectionNorth start distanceMeters bearing).
Proof.
  rewrite <- projection_north_east.
  unfold getDestinationPoint. cbv zeta. simpl.
  fold (projectionSine start distanceMeters bearing).
  rewrite sin_asin by apply projectionSine_bound.
  replace (sin (bearing * PI / 180) * sin (distanceMeters / 6371e3)
           * cos (lat start * PI / 180))
    with (cos (lat start * PI / 180) * projectionEast distanceMeters bearing)
    by (unfold projectionEast; ring).
  pose proof PI_RGT_0. field. lra.
Qed.

Lemma projection_rho :
  0 <= cos (lat start * PI / 180) ->
  sqrt (cos (lat start * PI / 180)
          * projectionNorth start distanceMeters bearing
        * (cos (lat start * PI / 180)
             * projectionNorth start distanceMeters bearing)
        + cos (lat start * PI / 180) * projectionEast distanceMeters bearing
          * (cos (lat start * PI / 180)
               * projectionEast distanceMeters bearing))
  = cos (lat start * PI / 180)
    * cos (asin (projectionSine start distanceMeters bearing)).
Proof.
  intros Hc. pose proof projection_unit as U.
  pose proof projectionSine_bound as SB.
  rewrite cos_asin by exact SB.
  set (S := projectionSine start distanceMeters bearing) in *.
  set (A := projectionNorth start distanceMeters bearing) in *.
  set (B := projectionEast distanceMeters bearing) in *.
  set (c := cos (lat start * PI / 180)) in *.
  apply sqrt_lem_1.
  - nra.
  - apply Rmult_le_pos; [exact Hc | apply sqrt_pos].
  - replace (c * sqrt (1 - S²) * (c * sqrt (1 - S²)))
      with (c * c * (sqrt (1 - S²) * sqrt (1 - S²))) by ring.
    rewrite sqrt_sqrt by (unfold Rsqr; nra). unfold Rsqr. nra.
Qed.

Lemma projection_haversine :
  0 <= cos (lat start * PI / 180) ->
  haversine start (getDestinationPoint start distanceMeters bearing)
  = sin (distanceMeters / 6371e3 / 2) * sin (distanceMeters / 6371e3 / 2).
Proof.
  intros Hc. rewrite haversine_central_angle. cbv zeta.
  rewrite projection_lat, projection_dlam.
  rewrite sin_asin by apply projectionSine_bound.
  destruct (Math_atan2_polar
              (cos (lat start * PI / 180)
               * projectionEast distanceMeters bearing)
              (cos (lat start * PI / 180)
               * projectionNorth start distanceMeters bearing)) as [Px _].
  cbv zeta in Px. rewrite (projection_rho Hc) in Px.
  rewrite <- Px, <- projection_north_east. rewrite sin_half_square. lra.
Qed.

End Projection.

Lemma cos_lat_nonneg (p : LatLng) :
  -90 <= lat p <= 90 -> 0 <= cos (lat p * PI / 180).
Proof.
  intros H. pose proof PI_RGT_0. apply cos_ge_0; nra.
Qed.

Lemma distance_to_projection (start : LatLng) (d bearing : R) :
  -90 <= lat start <= 90 ->
  0 <= d <= PI * 6371e3 ->
  getDistanceMeters start (getDestinationPoint start d bearing) = d.
Proof.
  intros Hlat Hd. pose proof PI_RGT_0 as Hpi.
  rewrite getDistanceMeters_haversine.
  rewrite projection_haversine by now apply cos_lat_nonneg.
  rewrite haversine_arc_closed.
  - field.
  - split.
    + apply Rmult_le_pos; [|lra]. apply Rmult_le_pos; lra.
    + apply Rmult_le_reg_r with (r := 2 * 6371e3); [lra|].
      replace (d / 6371e3 / 2 * (2 * 6371e3)) with d by field.
      lra.
Qed.

Lemma angle_unique a b :
  - PI < a <= PI -> - PI < b <= PI ->
  cos a = cos b -> sin a = sin b -> a = b.
Proof.
  intros Ha Hb Hc Hs. pose proof PI_RGT_0 as Hpi.
  assert (S0 : sin (a - b) = 0).
  { rewrite sin_minus, Hc, Hs. ring. }
  assert (C1 : cos (a - b) = 1).
  { rewrite cos_minus, Hc, Hs. pose proof (sin2_cos2' b). lra. }
  destruct (sin_eq_0_0 _ S0) as [k Hk].
  assert (Hk' : (-2 < k < 2)%Z).
  { split; apply lt_IZR; nra. }
  assert (Hcases : (k = -1 \/ k = 0 \/ k = 1)%Z) by lia.
  destruct Hcases as [->|[->| ->]].
  - exfalso. replace (a - b) with (- PI) in C1 by lra.
    rewrite cos_neg, cos_PI in C1. lra.
  - lra.
  - exfalso. replace (a - b) with PI in C1 by lra.
    rewrite cos_PI in C1. lra.
Qed.

Lemma Math_atan2_of_polar r theta :
  0 < r -> - PI < theta <= PI ->
  Math_atan2 (r * sin theta) (r * cos theta) = theta.
Proof.
  intros Hr Ht.
  destruct (Math_atan2_polar (r * sin theta) (r * cos theta)) as [Px Py].
  cbv zeta in Px, Py.
  assert (E : sqrt (r * cos theta * (r * cos theta) +
                    r * sin theta * (r * sin theta)) = r).
  { apply sqrt_lem_1; [|lra|].
    - pose proof (sin2_cos2' theta). nra.
    - pose proof (sin2_cos2' theta) as H.
      replace (r * cos theta * (r * cos theta) +
               r * sin theta * (r * sin theta))
        with (r * r * (sin theta * sin theta + cos theta * cos theta))
        by ring.
      rewrite H. ring. }
  rewrite E in Px, Py.
  apply angle_unique.
  - apply Math_atan2_bound.
  - exact Ht.
  - apply Rmult_eq_reg_l with (r := r); lra.
  - apply Rmult_eq_reg_l with (r := r); lra.
Qed.

Lemma js_rem_small x m : 0 <= x < m -> js_rem x m = x.
Proof.
  intros [Hlo Hhi]. unfold js_rem, trunc.
  assert (Hm : 0 < m) by lra.
  assert (Hq : 0 <= x / m < 1).
  { pose proof (Rinv_0_lt_compat m Hm). split.
    - unfold Rdiv. nra.
    - apply Rmult_lt_reg_r with (r := m); [exact Hm|].
      replace (x / m * m) with x by (field; lra). lra. }
  destruct (Rle_dec 0 (x / m)); [|lra].
  rewrite (Zfloor_eq 0) by (simpl; lra). simpl. lra.
Qed.

Lemma js_rem_wrap x m : 0 <= x < m -> js_rem (x + m) m = x.
Proof.
  intros [Hlo Hhi]. unfold js_rem, trunc.
  assert (Hm : 0 < m) by lra.
  assert (E : (x + m) / m = x / m + 1) by (field; lra).
  assert (Hq : 0 <= x / m < 1).
  { pose proof (Rinv_0_lt_compat m Hm). split.
    - unfold Rdiv. nra.
    - apply Rmult_lt_reg_r with (r := m); [exact Hm|].
      replace (x / m * m) with x by (field; lra). lra. }
  rewrite E.
  destruct (Rle_dec 0 (x / m + 1)); [|lra].
  rewrite (Zfloor_eq 1) by (simpl; lra). simpl. lra.
Qed.

(** X2: away from the poles, for a positive distance below half the
    circumference and a bearing in [0, 360), the initial bearing from the
    start to the point [getDestinationPoint] returns is the bearing that
    was asked for: [getBearing] inverts [getDestinationPoint]. *)
Theorem X2_bearing_of_projection (start : LatLng) (d bearing : R) :
  -90 < lat start < 90 ->
  0 < d < PI * 6371e3 ->
  0 <= bearing < 360 ->
  getBearing start (getDestinationPoint start d bearing) = bearing.
Proof.
  intros Hlat Hd Hb. pose proof PI_RGT_0 as Hpi.
  set (delta := d / 6371e3).
  set (theta := bearing * PI / 180).
  set (phi1 := lat start * PI / 180).
  set (S := projectionSine start d bearing).
  set (A := projectionNorth start d bearing).
  set (B := projectionEast d bearing).
  assert (Hc : 0 < cos phi1).
  { apply cos_gt_0; unfold phi1; nra. }
  assert (Hdelta : 0 < delta < PI).
  { unfold delta. split.
    - apply Rdiv_lt_0_compat; lra.
    - apply Rmult_lt_reg_r with (r := 6371e3); [lra|].
      replace (d / 6371e3 * 6371e3) with d by field. lra. }
  assert (Hsd : 0 < sin delta) by (apply sin_gt_0; lra).
  unfold getBearing. cbv zeta.
  replace (lng (getDestinationPoint start d bearing) * PI / 180
           - lng start * PI / 180)
    with ((lng (getDestinationPoint start d bearing) - lng start)
            * PI / 180) by lra.
  rewrite projection_lat, projection_dlam.
  fold phi1. fold S A B.
  rewrite sin_asin by apply projectionSine_bound.
  destruct (Math_atan2_polar (cos phi1 * B) (cos phi1 * A)) as [Px Py].
  cbv zeta in Px, Py.
  pose proof (projection_rho start d bearing (Rlt_le _ _ Hc)) as Rho.
  fold phi1 in Rho. fold S A B in Rho.
  rewrite Rho in Px, Py.
  set (Dl := Math_atan2 (cos phi1 * B) (cos phi1 * A)) in *.
  assert (Ex : cos (asin S) * cos Dl = A).
  { apply Rmult_eq_reg_l with (r := cos phi1); lra. }
  assert (Ey : cos (asin S) * sin Dl = B).
  { apply Rmult_eq_reg_l with (r := cos phi1); lra. }
  replace (sin Dl * cos (asin S)) with B by lra.
  replace (cos phi1 * S - sin phi1 * cos (asin S) * cos Dl)
    with (cos phi1 * S - sin phi1 * A)
    by (rewrite <- Ex; ring).
  replace (cos phi1 * S - sin phi1 * A) with (sin delta * cos theta).
  2:{ unfold S, A, projectionSine, projectionNorth.
      fold phi1 delta theta.
      transitivity (sin delta * cos theta *
                    (sin phi1 * sin phi1 + cos phi1 * cos phi1)).
      - rewrite sin2_cos2'. ring.
      - ring. }
  replace B with (sin delta * sin theta)
    by (unfold B, projectionEast; fold delta theta; ring).
  destruct (Rle_dec theta PI) as [Hle|Hgt].
  - rewrite Math_atan2_of_polar; [|exact Hsd| unfold theta in *; split; nra].
    replace (theta * 180 / PI) with bearing by (unfold theta; field; lra).
    apply js_rem_wrap. lra.
  - replace (sin theta) with (sin (theta - 2 * PI))
      by (rewrite sin_minus, sin_2PI, cos_2PI; ring).
    replace (cos theta) with (cos (theta - 2 * PI))
      by (rewrite cos_minus, sin_2PI, cos_2PI; ring).
    rewrite Math_atan2_of_polar; [|exact Hsd| unfold theta in *; split; nra].
    replace ((theta - 2 * PI) * 180 / PI + 360) with bearing
      by (unfold theta; field; lra).
    apply js_rem_small. lra.
Qed.

Lemma Math_atan2_quadrant y x :
  0 <= y -> 0 <= x -> Math_atan2 y x <= PI / 2.
Proof.
  intros Hy Hx. pose proof PI_RGT_0 as Hpi. unfold Math_atan2.
  destruct (Rlt_dec 0 x).
  - pose proof (atan_bound (y / x)). lra.
  - destruct (Rlt_dec x 0); [lra|].
    destruct (Rlt_dec 0 y); [lra|]. destruct (Rlt_dec y 0); lra.
Qed.

(** X3: the haversine term lies in [0, 1] and the distance between any
    two points is at most half the circumference of the sphere,
    [PI * 6371e3] metres. *)
Theorem X3_distance_upper_bound a b :
  0 <= haversine a b <= 1 /\
  getDistanceMeters a b <= PI * 6371e3.
Proof.
  split; [apply haversine_bounds|].
  rewrite getDistanceMeters_haversine.
  pose proof (Math_atan2_quadrant _ _ (sqrt_pos (haversine a b))
                (sqrt_pos (1 - haversine a b))).
  lra.
Qed.

(** X4: the distance depends on the longitudes through their difference
    only: shifting both points by the same amount, or one of them by a
    full turn in either direction, leaves it unchanged. *)
Theorem X4_distance_longitude_shift a b (shift : R) :
  getDistanceMeters (mkLatLng (lat a) (lng a + shift))
                    (mkLatLng (lat b) (lng b + shift))
  = getDistanceMeters a b
  /\ getDistanceMeters a (mkLatLng (lat b) (lng b + 360))
     = getDistanceMeters a b
  /\ getDistanceMeters a (mkLatLng (lat b) (lng b - 360))
     = getDistanceMeters a b.
Proof.
  rewrite !getDistanceMeters_haversine.
  assert (E1 : haversine (mkLatLng (lat a) (lng a + shift))
                         (mkLatLng (lat b) (lng b + shift))
               = haversine a b).
  { unfold haversine. simpl.
    replace (lng b + shift - (lng a + shift)) with (lng b - lng a) by ring.
    reflexivity. }
  assert (E2 : haversine a (mkLatLng (lat b) (lng b + 360)) = haversine a b).
  { unfold haversine. simpl.
    replace ((lng b + 360 - lng a) * PI / 180 / 2)
      with ((lng b - lng a) * PI / 180 / 2 + PI) by field.
    rewrite neg_sin. ring. }
  assert (E3 : haversine a (mkLatLng (lat b) (lng b - 360)) = haversine a b).
  { unfold haversine. simpl.
    replace ((lng b - lng a) * PI / 180 / 2)
      with ((lng b - 360 - lng a) * PI / 180 / 2 + PI) by field.
    rewrite neg_sin. ring. }
  now rewrite E1, E2, E3.
Qed.

(** X5: whatever the start, distance and bearing, the projected point has
    a latitude in [-90, 90] and a longitude within half a turn of the
    start's, in (-180, 180]. *)
Theorem X5_projection_range (start : LatLng) (d bearing : R) :
  let p := getDestinationPoint start d bearing in
  -90 <= lat p <= 90 /\ -180 < lng p - lng start <= 180.
Proof.
  intros p. subst p. pose proof PI_RGT_0 as Hpi.
  unfold getDestinationPoint. cbv zeta. simpl.
  set (S := sin (lat start * PI / 180) * cos (d / 6371e3) +
            cos (lat start * PI / 180) * sin (d / 6371e3) *
            cos (bearing * PI / 180)).
  set (At := Math_atan2 _ _).
  pose proof (asin_bound S) as [Hlo Hhi].
  pose proof (Math_atan2_bound
    (sin (bearing * PI / 180) * sin (d / 6371e3) *
     cos (lat start * PI / 180))
    (cos (d / 6371e3) - sin (lat start * PI / 180) * sin (asin S))) as Hb.
  fold At in Hb.
  assert (Hi : 0 < / PI) by now apply Rinv_0_lt_compat.
  assert (K : forall z, z * 180 / PI = z * / PI * 180)
    by (intros; field; lra).
  assert (U : PI * / PI = 1) by (field; lra).
  split.
  - rewrite K. split; nra.
  - replace ((lng start * PI / 180 + At) * 180 / PI - lng start)
      with (At * / PI * 180) by (field; lra).
    split; nra.
Qed.

(** X6: projecting by zero metres from a start between the poles gives
    the start itself, whatever the bearing. *)
Theorem X6_projection_zero_distance (start : LatLng) (bearing : R) :
  -90 <= lat start <= 90 ->
  getDestinationPoint start 0 bearing = start.
Proof.
  intros Hlat. pose proof PI_RGT_0 as Hpi.
  unfold getDestinationPoint. cbv zeta.
  replace (0 / 6371e3) with 0 by lra.
  rewrite sin_0, cos_0.
  set (phi1 := lat start * PI / 180).
  replace (sin phi1 * 1 + cos phi1 * 0 * cos (bearing * PI / 180))
    with (sin phi1) by ring.
  rewrite asin_sin by (unfold phi1; split; nra).
  replace (sin (bearing * PI / 180) * 0 * cos phi1) with 0 by ring.
  assert (Z : Math_atan2 0 (1 - sin phi1 * sin phi1) = 0).
  { unfold Math_atan2.
    destruct (Rlt_dec 0 (1 - sin phi1 * sin phi1)).
    - now rewrite Rdiv_0_l, atan_0.
    - pose proof (sin2_cos2' phi1).
      destruct (Rlt_dec (1 - sin phi1 * sin phi1) 0); [nra|].
      destruct (Rlt_dec 0 0); [lra|]. destruct (Rlt_dec 0 0); lra. }
  rewrite Z. destruct start as [la lo]. unfold phi1. simpl.
  f_equal; field; lra.
Qed.

(** X7: between two points of the same longitude the bearing is 0 when
    the target is further north, 180 when it is further south, and 0 when
    the two points coincide. *)
Theorem X7_bearing_along_meridian (a b : LatLng) :
  lng a = lng b ->
  (0 < lat b - lat a < 180 -> getBearing a b = 0)
  /\ (-180 < lat b - lat a < 0 -> getBearing a b = 180)
  /\ (lat a = lat b -> getBearing a b = 0).
Proof.
  intros Hl. pose proof PI_RGT_0 as Hpi.
  unfold getBearing. cbv zeta. rewrite Hl.
  replace (lng b * PI / 180 - lng b * PI / 180) with 0 by ring.
  rewrite sin_0, cos_0.
  replace (0 * cos (lat b * PI / 180)) with 0 by ring.
  replace (cos (lat a * PI / 180) * sin (lat b * PI / 180) -
           sin (lat a * PI / 180) * cos (lat b * PI / 180) * 1)
    with (sin ((lat b - lat a) * PI / 180)).
  2:{ replace ((lat b - lat a) * PI / 180)
        with (lat b * PI / 180 - lat a * PI / 180) by lra.
      rewrite sin_minus. ring. }
  assert (Z0 : js_rem (0 * 180 / PI + 360) 360 = 0).
  { replace (0 * 180 / PI + 360) with (0 + 360) by (field; lra).
    apply js_rem_wrap. lra. }
  repeat split.
  - intros Hn.
    assert (0 < sin ((lat b - lat a) * PI / 180))
      by (apply sin_gt_0; nra).
    unfold Math_atan2. destruct (Rlt_dec 0 _); [|contradiction].
    rewrite Rdiv_0_l, atan_0. exact Z0.
  - intros Hs.
    assert (sin ((lat b - lat a) * PI / 180) < 0)
      by (apply sin_lt_0_var; nra).
    unfold Math_atan2. destruct (Rlt_dec 0 _); [lra|].
    destruct (Rlt_dec _ 0); [|contradiction].
    destruct (Rle_dec 0 0); [|lra].
    rewrite Rdiv_0_l, atan_0.
    replace ((0 + PI) * 180 / PI + 360) with (180 + 360) by (field; lra).
    apply js_rem_wrap. lra.
  - intros He. rewrite He.
    replace ((lat b - lat b) * PI / 180) with 0 by lra. rewrite sin_0.
    unfold Math_atan2. destruct (Rlt_dec 0 0); [lra|].
    destruct (Rlt_dec 0 0); [lra|]. exact Z0.
Qed.

(** ** Conflict detection: order and size of the result *)

Section ConflictOrder.
Variable h : Store.
Variables startLoc endLoc : LatLng.

Lemma Set_add_extends r s : exists l, Set_add r s = s ++ l.
Proof.
  unfold Set_add. destruct (in_dec Nat.eq_dec r s).
  - exists []. now rewrite app_nil_r.
  - now exists [r].
Qed.

Lemma visitPin_extends point conflicts pin :
  exists l, visitPin h startLoc endLoc point conflicts pin = conflicts ++ l.
Proof.
  unfold visitPin.
  destruct (ltb _ _); [|exists []; now rewrite app_nil_r].
  destruct (_ && _); [apply Set_add_extends|].
  exists []. now rewrite app_nil_r.
Qed.

Lemma inner_loop_extends point dangerPins : forall conflicts,
  exists l,
    fold_left (visitPin h startLoc endLoc point) dangerPins conflicts
    = conflicts ++ l.
Proof.
  induction dangerPins as [|pin rest IH]; intros conflicts; simpl.
  - exists []. now rewrite app_nil_r.
  - destruct (visitPin_extends point conflicts pin) as [l1 E1].
    destruct (IH (visitPin h startLoc endLoc point conflicts pin))
      as [l2 E2].
    exists (l1 ++ l2). now rewrite E2, E1, app_assoc.
Qed.

Lemma outer_loop_extends dangerPins routePath : forall conflicts,
  exists l,
    fold_left (fun conflicts point =>
                 fold_left (visitPin h startLoc endLoc point) dangerPins
                           conflicts)
              routePath conflicts
    = conflicts ++ l.
Proof.
  induction routePath as [|point rest IH]; intros conflicts; simpl.
  - exists []. now rewrite app_nil_r.
  - destruct (inner_loop_extends point dangerPins conflicts) as [l1 E1].
    destruct (IH (fold_left (visitPin h startLoc endLoc point) dangerPins
                            conflicts)) as [l2 E2].
    exists (l1 ++ l2). now rewrite E2, E1, app_assoc.
Qed.

Lemma conflicts_path_extension routePath more pins :
  exists added,
    checkRouteConflicts h (routePath ++ more) pins startLoc endLoc
    = checkRouteConflicts h routePath pins startLoc endLoc ++ added.
Proof.
  unfold checkRouteConflicts. rewrite fold_left_app.
  apply outer_loop_extends.
Qed.

Lemma visitPin_conflict point pin :
  isConflict h startLoc endLoc point pin ->
  visitPin h startLoc endLoc point [] pin = [pin].
Proof.
  intros (H1 & H2 & H3). unfold visitPin.
  unfold DANGER_THRESHOLD_METERS, IGNORE_TERMINAL_DISTANCE.
  apply ltb_lt in H1. apply gtb_gt in H2, H3.
  now rewrite H1, H2, H3.
Qed.

Lemma inner_loop_quiet point dangerPins :
  (forall pin, In pin dangerPins ->
               ~ isConflict h startLoc endLoc point pin) ->
  fold_left (visitPin h startLoc endLoc point) dangerPins [] = [].
Proof.
  intros Hq. apply list_empty_by_membership. intros x Hx.
  apply inner_loop_In in Hx. destruct Hx as [[]|[Hin Hc]].
  exact (Hq x Hin Hc).
Qed.

(** X9: conflicts are listed in the order the path meets them: when no
    earlier path point conflicts with any danger pin, and no pin listed
    before [pin] conflicts with [point], the first conflict returned is
    [pin]. *)
Theorem X9_first_conflict before point after earlier pin later :
  (forall q p, In q before -> In p (earlier ++ pin :: later) ->
     Pin.safetyLevel (h p) = DANGER ->
     ~ isConflict h startLoc endLoc q p) ->
  (forall p, In p earlier -> Pin.safetyLevel (h p) = DANGER ->
     ~ isConflict h startLoc endLoc point p) ->
  Pin.safetyLevel (h pin) = DANGER ->
  isConflict h startLoc endLoc point pin ->
  hd_error (checkRouteConflicts h (before ++ point :: after)
              (earlier ++ pin :: later) startLoc endLoc)
  = Some pin.
Proof.
  intros Hbefore Hearlier Hd Hc.
  destruct (conflicts_path_extension (before ++ [point]) after
              (earlier ++ pin :: later)) as [added E].
  rewrite <- app_assoc in E. simpl in E. rewrite E. clear E.
  unfold checkRouteConflicts. rewrite fold_left_app. simpl.
  set (dangerPins := filter _ _).
  assert (Q : fold_left (fun conflicts point0 =>
                fold_left (visitPin h startLoc endLoc point0) dangerPins
                          conflicts) before [] = []).
  { apply list_empty_by_membership. intros x Hx.
    apply outer_loop_In in Hx. destruct Hx as [[]|(Hin & q & Hq & Hcq)].
    unfold dangerPins in Hin. apply filter_In in Hin.
    destruct Hin as [Hin Hdx].
    apply (Hbefore q x Hq Hin); [|exact Hcq].
    destruct (Pin.safetyLevel (h x)); simpl in Hdx; congruence. }
  rewrite Q. unfold dangerPins. rewrite filter_app. simpl.
  rewrite Hd. simpl. rewrite fold_left_app. simpl.
  rewrite inner_loop_quiet.
  - rewrite (visitPin_conflict point pin Hc).
    destruct (inner_loop_extends point
                (filter (fun p => SafetyLevel_eqb (Pin.safetyLevel (h p))
                                                  DANGER) later) [pin])
      as [l El].
    now rewrite El.
  - intros p Hp. apply filter_In in Hp. destruct Hp as [Hp Hdp].
    apply Hearlier; [exact Hp|].
    destruct (Pin.safetyLevel (h p)); simpl in Hdp; congruence.
Qed.

(** X10: the conflicts of a path are at most as many as the pins marked
    DANGER, hence at most as many as the pins. *)
Theorem X10_conflicts_count_bound routePath pins :
  (List.length (checkRouteConflicts h routePath pins startLoc endLoc)
   <= List.length
        (filter (fun p => SafetyLevel_eqb (Pin.safetyLevel (h p)) DANGER)
                pins)
   <= List.length pins)%nat.
Proof.
  split.
  - apply NoDup_incl_length; [apply checkRouteConflicts_NoDup|].
    intros x Hx. apply checkRouteConflicts_In in Hx.
    destruct Hx as (Hin & Hd & _). apply filter_In. split; [exact Hin|].
    now rewrite Hd.
  - apply filter_length_le.
Qed.

End ConflictOrder.

(** ** The planner: requests, selection and outcome *)

Lemma generateCalls_app t1 t2 :
  generateCalls (t1 ++ t2) = generateCalls t1 ++ generateCalls t2.
Proof.
  induction t1 as [|[url|p|l] t1 IH]; simpl; [reflexivity|assumption| |assumption].
  now rewrite IH.
Qed.

Lemma generateCalls_fetchEvents w url : generateCalls (fetchEvents w url) = [].
Proof. unfold fetchEvents. now destruct (fetch w url). Qed.

Lemma generateCalls_eventsOf w start destinationLoc plan :
  generateCalls (eventsOf w start destinationLoc plan) = [].
Proof.
  induction plan as [|entry plan IH]; [reflexivity|].
  unfold eventsOf in *. cbn [flat_map].
  now rewrite generateCalls_app, generateCalls_fetchEvents, IH.
Qed.

(** X11: one route request always returns, after exactly one call of the
    routing provider for the start, the optional waypoint and the
    destination, and no call of the narrative service; the result is empty
    exactly when the provider failed or answered without a route, and is
    the first route otherwise. *)
Theorem X11_fetch_swallows_failures w start dest waypoint t :
  let url := match waypoint with
             | Some wp => [start; wp; dest]
             | None => [start; dest]
             end in
  exists res t',
    fetchOSRMRoute w start dest waypoint t = (Returns res, t')
    /\ fetchedUrls t' = fetchedUrls t ++ [url]
    /\ generateCalls t' = generateCalls t
    /\ (res = None <->
        fetch w url = None \/
        exists data, fetch w url = Some data /\
                     (routes data = None \/ routes data = Some []))
    /\ (forall data r rs, fetch w url = Some data ->
          routes data = Some (r :: rs) -> res = Some r).
Proof.
  intros url. rewrite fetchOSRMRoute_run. fold url. cbv zeta.
  eexists _, _. split; [reflexivity|].
  split; [now rewrite fetchedUrls_app, fetchedUrls_fetchEvents|].
  split.
  { rewrite generateCalls_app, generateCalls_fetchEvents.
    now rewrite app_nil_r. }
  unfold firstRoute. destruct (fetch w url) as [data|].
  - destruct data as [[[|r rs]|]]; simpl; split.
    + split; [intros _; right; eexists; split; [reflexivity|now right]|auto].
    + intros data r rs E. injection E as <-. discriminate.
    + split; [discriminate|].
      intros [E|(data & E & [E'|E'])]; try discriminate;
        injection E as <-; discriminate.
    + intros data r' rs' E. injection E as <-. simpl.
      intros E'. now injection E' as -> ->.
    + split; [intros _; right; eexists; split; [reflexivity|now left]|auto].
    + intros data r rs E. injection E as <-. discriminate.
  - split; [tauto|]. intros data r rs E. discriminate.
Qed.

Section PlannerFacts.
Variable w : World.
Variable h : Store.
Variables start destinationLoc : LatLng.
Variable destinationName : string.
Variable pins : list ref.

(** X12: one calculation calls the routing provider once or nine times,
    the direct request first, and the narrative service at most once; with
    no direct route it stops after the first request and never asks for a
    narrative; with a direct route it asks for exactly one narrative, and
    makes no further route request exactly when that route has no
    conflict. *)
Theorem X12_request_budget t :
  let t' := snd (getSafeRoute w h start destinationLoc destinationName
                              pins t) in
  exists urls prompts,
    fetchedUrls t' = fetchedUrls t ++ urls
    /\ generateCalls t' = generateCalls t ++ prompts
    /\ hd_error urls = Some [start; destinationLoc]
    /\ (List.length urls = 1 \/ List.length urls = 9)%nat
    /\ (List.length prompts <= 1)%nat
    /\ (firstRoute w [start; destinationLoc] = None ->
        List.length urls = 1%nat /\ prompts = [])
    /\ (forall d, firstRoute w [start; destinationLoc] = Some d ->
        (conflicts (directCandidate h start destinationLoc pins d) = [] <->
         List.length urls = 1%nat)
        /\ List.length prompts = 1%nat).
Proof.
  intros t'. subst t'.
  rewrite getSafeRoute_run, tryBlock_run, selectRoute_run.
  destruct (firstRoute w [start; destinationLoc]) as [d|].
  - cbv zeta.
    destruct (conflicts (directCandidate h start destinationLoc pins d))
      as [|focus rest] eqn:Ec.
    + rewrite describeRoute_run.
      exists [[start; destinationLoc]].
      exists [promptFor start destinationName
                (directCandidate h start destinationLoc pins d)].
      assert (T : forall tail,
        fetchedUrls ((t ++ fetchEvents w [start; destinationLoc])
                     ++ [EvGenerate (promptFor start destinationName
                           (directCandidate h start destinationLoc pins d))]
                     ++ tail)
        = fetchedUrls t ++ [[start; destinationLoc]] ++ fetchedUrls tail
        /\ generateCalls ((t ++ fetchEvents w [start; destinationLoc])
                     ++ [EvGenerate (promptFor start destinationName
                           (directCandidate h start destinationLoc pins d))]
                     ++ tail)
        = generateCalls t ++
          [promptFor start destinationName
             (directCandidate h start destinationLoc pins d)]
          ++ generateCalls tail).
      { intros tail.
        rewrite !fetchedUrls_app, !generateCalls_app,
          fetchedUrls_fetchEvents, generateCalls_fetchEvents.
        simpl. now rewrite <- !app_assoc. }
      split; [|split].
      * destruct (generateContent w _); cbn [snd].
        -- exact (proj1 (T [])).
        -- rewrite <- app_assoc.
           exact (proj1 (T [EvConsoleError "Route generation failed:"])).
      * destruct (generateContent w _); cbn [snd].
        -- exact (proj2 (T [])).
        -- rewrite <- app_assoc.
           exact (proj2 (T [EvConsoleError "Route generation failed:"])).
      * split; [reflexivity|]. split; [now left|]. split; [simpl; lia|].
        split; [discriminate|].
        intros d' E. injection E as <-. rewrite Ec. simpl. tauto.
    + rewrite describeRoute_run.
      set (sel := hd _ _).
      set (plan := detourPlan (h focus) (getBearing start destinationLoc)).
      exists ([start; destinationLoc] ::
              map (fun entry => [start; snd entry; destinationLoc]) plan).
      exists [promptFor start destinationName sel].
      assert (T : forall tail,
        fetchedUrls (((t ++ fetchEvents w [start; destinationLoc])
                      ++ eventsOf w start destinationLoc plan)
                     ++ [EvGenerate (promptFor start destinationName sel)]
                     ++ tail)
        = fetchedUrls t ++
          ([start; destinationLoc] ::
           map (fun entry => [start; snd entry; destinationLoc]) plan)
          ++ fetchedUrls tail
        /\ generateCalls (((t ++ fetchEvents w [start; destinationLoc])
                      ++ eventsOf w start destinationLoc plan)
                     ++ [EvGenerate (promptFor start destinationName sel)]
                     ++ tail)
        = generateCalls t ++ [promptFor start destinationName sel]
          ++ generateCalls tail).
      { intros tail.
        rewrite !fetchedUrls_app, !generateCalls_app,
          fetchedUrls_fetchEvents, generateCalls_fetchEvents,
          fetchedUrls_eventsOf, generateCalls_eventsOf.
        simpl. now rewrite <- !app_assoc. }
      split; [|split].
      * destruct (generateContent w _); cbn [snd].
        -- exact (proj1 (T [])).
        -- rewrite <- app_assoc.
           exact (proj1 (T [EvConsoleError "Route generation failed:"])).
      * destruct (generateContent w _); cbn [snd].
        -- exact (proj2 (T [])).
        -- rewrite <- app_assoc.
           exact (proj2 (T [EvConsoleError "Route generation failed:"])).
      * split; [reflexivity|]. split; [now right|]. split; [simpl; lia|].
        split; [discriminate|].
        intros d' E. injection E as <-. rewrite Ec. simpl.
        split; [|reflexivity]. split; discriminate.
  - exists [[start; destinationLoc]], []. cbn [snd].
    rewrite !fetchedUrls_app, !generateCalls_app,
      fetchedUrls_fetchEvents, generateCalls_fetchEvents.
    simpl. rewrite !app_nil_r.
    repeat split; auto; discriminate.
Qed.

End PlannerFacts.

Section SelectionFacts.
Variable w : World.
Variable h : Store.
Variables start destinationLoc : LatLng.
Variable destinationName : string.
Variable pins : list ref.

Lemma detourCandidate_type entry c :
  In c (detourCandidate w h start destinationLoc pins entry) ->
  type c = fst entry /\
  firstRoute w [start; snd entry; destinationLoc] = Some (data c).
Proof.
  unfold detourCandidate.
  destruct (firstRoute w _) as [r|]; [|intros []].
  intros [<-|[]]. simpl. auto.
Qed.

Lemma detourPlan_types hazard bearing entry :
  In entry (detourPlan hazard bearing) -> fst entry <> direct.
Proof.
  unfold detourPlan. simpl.
  intros H; repeat (destruct H as [<-|H]; [discriminate|]); destruct H.
Qed.

(** X13: a direct selection is the direct candidate itself; a detour is
    selected only when the direct route has a conflict and the detour's
    score is strictly below the direct route's. *)
Theorem X13_detour_strictly_better d t sel t' :
  firstRoute w [start; destinationLoc] = Some d ->
  selectRoute w h start destinationLoc pins t = (Returns sel, t') ->
  (type sel = direct ->
   sel = directCandidate h start destinationLoc pins d)
  /\ (type sel <> direct ->
      score sel < score (directCandidate h start destinationLoc pins d)
      /\ conflicts (directCandidate h start destinationLoc pins d) <> []).
Proof.
  intros Hd Hrun.
  destruct (selectRoute_StableMin w h start destinationLoc pins d t Hd)
    as (sel' & t'' & Hrun' & Hmin).
  rewrite Hrun in Hrun'. injection Hrun' as <- <-.
  unfold candidateList in Hmin.
  destruct (conflicts (directCandidate h start destinationLoc pins d))
    as [|focus rest] eqn:Ec.
  - destruct Hmin as (before & after & Hl & _).
    assert (sel = directCandidate h start destinationLoc pins d).
    { destruct before as [|x [|y before]]; simpl in Hl.
      - now injection Hl.
      - injection Hl as _ Hl. discriminate.
      - injection Hl as _ Hl. discriminate. }
    subst sel. split; [reflexivity|]. intros N. now elim N.
  - destruct Hmin as (before & after & Hl & Hb & _).
    unfold mergedCandidates in Hl.
    set (detours := flat_map
           (detourCandidate w h start destinationLoc pins)
           (detourPlan (h focus) (getBearing start destinationLoc))) in *.
    destruct before as [|x before]; cbn [app] in Hl.
    + injection Hl as Hl _. subst sel.
      split; [reflexivity|]. intros N. now elim N.
    + injection Hl as Hx Hl. subst x.
      assert (Hin : In sel detours).
      { rewrite Hl. apply in_or_app. right. now left. }
      unfold detours in Hin.
      apply in_flat_map in Hin. destruct Hin as (entry & He & Hc).
      apply detourCandidate_type in Hc. destruct Hc as [Ht _].
      apply detourPlan_types in He.
      split.
      * intros E. rewrite Ht in E. contradiction.
      * intros _. split; [apply Hb; now left | discriminate].
Qed.

(** The selected route comes from the provider. *)
Lemma candidateList_provenance d c :
  firstRoute w [start; destinationLoc] = Some d ->
  In c (candidateList w h start destinationLoc pins d) ->
  exists url, firstRoute w url = Some (data c) /\
    (url = [start; destinationLoc] \/
     exists wp, url = [start; wp; destinationLoc]).
Proof.
  intros Hd. unfold candidateList.
  destruct (conflicts (directCandidate h start destinationLoc pins d))
    as [|focus rest].
  - intros [<-|[]]. exists [start; destinationLoc]. simpl. auto.
  - unfold mergedCandidates. intros [<-|Hc].
    + exists [start; destinationLoc]. simpl. auto.
    + apply in_flat_map in Hc. destruct Hc as (entry & _ & Hc).
      apply detourCandidate_type in Hc. destruct Hc as [_ Hf].
      exists [start; snd entry; destinationLoc]. split; [exact Hf|].
      right. now exists (snd entry).
Qed.

(** X14: when the provider's durations are non-negative and the direct
    route takes less than 1,000,000 seconds, the selected route has at
    most as many conflicts as the direct route. *)
Theorem X14_conflicts_never_increase d t sel t' :
  (forall url r, firstRoute w url = Some r -> 0 <= duration r) ->
  firstRoute w [start; destinationLoc] = Some d ->
  duration d < 1000000 ->
  selectRoute w h start destinationLoc pins t = (Returns sel, t') ->
  (List.length (conflicts sel)
   <= List.length
        (checkRouteConflicts h (map toLatLng (coordinates d)) pins
           start destinationLoc))%nat.
Proof.
  intros Hdur Hd Hshort Hrun.
  destruct (selectRoute_StableMin w h start destinationLoc pins d t Hd)
    as (sel' & t'' & Hrun' & Hmin).
  rewrite Hrun in Hrun'. injection Hrun' as <- <-.
  pose proof (StableMin_In _ _ _ Hmin) as Hin.
  pose proof (StableMin_le _ _ _ Hmin) as Hle.
  assert (Hdir : In (directCandidate h start destinationLoc pins d)
                    (candidateList w h start destinationLoc pins d)).
  { unfold candidateList.
    destruct (conflicts _); [now left|]. unfold mergedCandidates. now left. }
  specialize (Hle _ Hdir).
  destruct (candidateList_wellScored w h start destinationLoc pins d sel Hin)
    as (_ & _ & Ss).
  destruct (candidateList_provenance d sel Hd Hin) as (url & Hf & _).
  apply Hdur in Hf.
  change (score (directCandidate h start destinationLoc pins d))
    with (INR (List.length
                 (checkRouteConflicts h (map toLatLng (coordinates d)) pins
                    start destinationLoc)) * 1000000 + duration d) in Hle.
  rewrite Ss in Hle.
  set (n := List.length (conflicts sel)) in *.
  set (m := List.length (checkRouteConflicts h _ pins start destinationLoc))
    in *.
  destruct (le_lt_dec n m) as [Hok|Hbad]; [exact Hok|exfalso].
  assert (INR m + 1 <= INR n).
  { rewrite <- S_INR. apply le_INR. lia. }
  nra.
Qed.

End SelectionFacts.

Section OutcomeFacts.
Variable w : World.
Variable h : Store.
Variables start destinationLoc : LatLng.
Variable destinationName : string.
Variable pins : list ref.

(** X15: when the direct route has a conflict, the eight detour requests
    go through waypoints that lie 300, 300, 600, 600, 1000, 1000, 1500 and
    1500 metres from the first conflicting pin, in that order, after the
    direct request. *)
Theorem X15_waypoints_at_offset d focus rest t :
  firstRoute w [start; destinationLoc] = Some d ->
  conflicts (directCandidate h start destinationLoc pins d)
    = focus :: rest ->
  -90 <= Pin.lat (h focus) <= 90 ->
  exists sel t' waypoints,
    selectRoute w h start destinationLoc pins t = (Returns sel, t')
    /\ fetchedUrls t' =
       fetchedUrls t ++
       [start; destinationLoc] ::
       map (fun wp => [start; wp; destinationLoc]) waypoints
    /\ map (getDistanceMeters (h focus)) waypoints
       = [300; 300; 600; 600; 1000; 1000; 1500; 1500].
Proof.
  intros Hd Hc Hlat.
  pose proof (selectRoute_run w h start destinationLoc pins t) as Hrun.
  rewrite Hd in Hrun. cbv zeta in Hrun. rewrite Hc in Hrun.
  eexists _, _,
    (map snd (detourPlan (h focus) (getBearing start destinationLoc))).
  split; [exact Hrun|]. split.
  - rewrite !fetchedUrls_app, fetchedUrls_fetchEvents, fetchedUrls_eventsOf.
    rewrite <- app_assoc, map_map. reflexivity.
  - pose proof PI_gt_3 as Hpi.
    unfold detourPlan. cbn [map snd].
    rewrite !distance_to_projection; try reflexivity;
      solve [exact Hlat | lra].
Qed.

Lemma nonEmpty_true s : nonEmpty s = true -> s <> ""%string.
Proof. destruct s; [discriminate|]. intros _. discriminate. Qed.

Lemma safety_note_rules t sel t1 resp :
  selectRoute w h start destinationLoc pins t = (Returns sel, t1) ->
  generateContent w (promptFor start destinationName sel) = Some resp ->
  exists note t',
    getSafeRoute w h start destinationLoc destinationName pins t
      = (Returns (RouteResponse.mk (coords sel)
                    (Some (formatDuration (duration (data sel))))
                    (Some note)), t')
    /\ note <> ""%string
    /\ (conflicts sel <> [] -> note <> STAY_AWARE)
    /\ (forall txt answered,
          text resp = Some txt -> nonEmpty txt = true ->
          JSON_parse w txt = Some (JObject (Some answered)) ->
          answered <> ""%string -> answered <> STAY_AWARE ->
          note = answered).
Proof.
  intros Hsel Hresp.
  rewrite getSafeRoute_run, tryBlock_run, Hsel, describeRoute_run, Hresp.
  eexists _, _. split; [reflexivity|].
  unfold noteFor.
  set (answered0 := match text resp with
                    | Some txt =>
                        if nonEmpty txt then
                          match parsedNote w txt with
                          | Some note => note
                          | None => STAY_AWARE
                          end
                        else STAY_AWARE
                    | None => STAY_AWARE
                    end).
  assert (Hne : answered0 <> ""%string).
  { unfold answered0. destruct (text resp) as [txt|]; [|discriminate].
    destruct (nonEmpty txt); [|discriminate].
    unfold parsedNote. destruct (JSON_parse w txt) as [[|[note|]|]|];
      try discriminate.
    destruct (nonEmpty note) eqn:En; [|discriminate].
    now apply nonEmpty_true. }
  split; [|split].
  - destruct ((0 <? _)%nat && _); [discriminate|exact Hne].
  - intros Hc.
    destruct (conflicts sel) as [|p ps]; [congruence|]. simpl.
    destruct (String.eqb_spec answered0 STAY_AWARE) as [E|N].
    + discriminate.
    + exact N.
  - intros txt answered Ht Hn Hp Ha Hs.
    assert (E : answered0 = answered).
    { unfold answered0. rewrite Ht, Hn. unfold parsedNote. rewrite Hp.
      destruct answered; [congruence|reflexivity]. }
    rewrite E.
    destruct (String.eqb_spec answered STAY_AWARE) as [E'|N];
      [contradiction|].
    now rewrite andb_false_r.
Qed.

Lemma returned_route_from_provider t r t' :
  getSafeRoute w h start destinationLoc destinationName pins t
    = (Returns r, t') ->
  RouteResponse.route r <> [] ->
  exists urls url x,
    fetchedUrls t' = fetchedUrls t ++ urls
    /\ In url urls
    /\ firstRoute w url = Some x
    /\ RouteResponse.route r = map toLatLng (coordinates x)
    /\ RouteResponse.duration r = Some (formatDuration (duration x)).
Proof.
  rewrite getSafeRoute_run, tryBlock_run, selectRoute_run.
  destruct (firstRoute w [start; destinationLoc]) as [d|] eqn:Hd.
  2:{ intros E. injection E as <- _. intros N. now elim N. }
  cbv zeta.
  destruct (conflicts (directCandidate h start destinationLoc pins d))
    as [|focus rest] eqn:Ec.
  - rewrite describeRoute_run.
    destruct (generateContent w _) as [resp|].
    2:{ intros E. injection E as <- _. intros N. now elim N. }
    intros E. injection E as <- <-. intros _.
    exists [[start; destinationLoc]], [start; destinationLoc], d.
    split; [|simpl; auto].
    rewrite !fetchedUrls_app, fetchedUrls_fetchEvents. simpl.
    now rewrite app_nil_r.
  - set (merged := mergedCandidates w h start destinationLoc pins d focus).
    set (sel := hd _ _).
    assert (Hin : In sel merged).
    { apply (StableMin_In score). apply Array_sort_hd_StableMin.
      discriminate. }
    rewrite describeRoute_run.
    destruct (generateContent w _) as [resp|].
    2:{ intros E. injection E as <- _. intros N. now elim N. }
    intros E. injection E as <- <-. intros _. simpl.
    set (urls := [start; destinationLoc] ::
                 map (fun entry => [start; snd entry; destinationLoc])
                     (detourPlan (h focus) (getBearing start destinationLoc))).
    assert (U : fetchedUrls
           (((t ++ fetchEvents w [start; destinationLoc]) ++
             eventsOf w start destinationLoc
               (detourPlan (h focus) (getBearing start destinationLoc))) ++
            [EvGenerate (promptFor start destinationName sel)])
           = fetchedUrls t ++ urls).
    { rewrite !fetchedUrls_app, fetchedUrls_fetchEvents,
        fetchedUrls_eventsOf.
      cbn [fetchedUrls]. now rewrite app_nil_r, <- app_assoc. }
    unfold merged, mergedCandidates in Hin. destruct Hin as [<-|Hin].
    + exists urls, [start; destinationLoc], d. split; [exact U|].
      split; [now left|]. simpl. auto.
    + apply in_flat_map in Hin. destruct Hin as (entry & He & Hc).
      pose proof (detourCandidate_wellScored w h start destinationLoc pins
                    entry sel Hc) as (Wc & _ & _).
      apply detourCandidate_type in Hc. destruct Hc as [_ Hf].
      exists urls, [start; snd entry; destinationLoc], (data sel).
      split; [exact U|]. split; [|auto].
      right. apply in_map_iff. now exists entry.
Qed.

End OutcomeFacts.

(** ** Duration formatting: threshold and monotonicity *)

(** X18: for a non-negative duration the text shows a whole number [N]
    of minutes that covers the duration and exceeds 1.2 times it by less
    than a minute; the minutes-only form is used exactly up to 2950
    seconds and the hours form beyond; [N] is zero only for zero seconds;
    the minutes shown beside the hours are below 60. *)
Theorem X18_formatDuration_threshold (seconds : R) :
  0 <= seconds ->
  exists N : Z,
    formatDuration seconds = renderMinutes N
    /\ seconds <= IZR (60 * N)
    /\ IZR (60 * N) < seconds * 1.2 + 60
    /\ (seconds <= 2950 <-> (N < 60)%Z)
    /\ (seconds = 0 <-> N = 0%Z)
    /\ (0 <= N mod 60 < 60)%Z
    /\ (2950 < seconds <-> (1 <= N / 60)%Z).
Proof.
  intros Hs. exists (Zceil (seconds * 1.2 / 60)).
  pose proof (Zceil_bound (seconds * 1.2 / 60)) as [Blo Bhi].
  set (N := Zceil (seconds * 1.2 / 60)) in *.
  assert (Hpos : (0 <= N)%Z) by (apply le_IZR; lra).
  split; [apply formatDuration_minutes; [split; assumption | exact Hpos]|].
  rewrite mult_IZR.
  split; [lra|]. split; [lra|].
  split; [|split; [|split]].
  - split.
    + intros H. apply lt_IZR. lra.
    + intros H. assert (N <= 59)%Z by lia. apply IZR_le in H0. lra.
  - split.
    + intros ->. apply Z.le_antisymm; [|exact Hpos].
      apply Z.lt_succ_r. apply lt_IZR. simpl. lra.
    + intros E. rewrite E in Bhi. lra.
  - apply Z.mod_pos_bound. lia.
  - split.
    + intros H. assert (60 <= N)%Z.
      { apply Z.lt_pred_le. apply lt_IZR. simpl. lra. }
      apply Z.div_le_lower_bound; lia.
    + intros H. assert (60 <= N)%Z.
      { destruct (Z_lt_le_dec N 60) as [Hlt|Hge]; [|exact Hge].
        rewrite Z.div_small in H by lia. lia. }
      apply IZR_le in H0. lra.
Qed.

(** X19: the number of minutes shown never decreases when the duration
    grows; for each duration it is the ceiling of 1.2 times the duration
    in minutes. *)
Theorem X19_formatDuration_monotone (s1 s2 : R) :
  0 <= s1 -> s1 <= s2 ->
  exists N1 N2 : Z,
    formatDuration s1 = renderMinutes N1
    /\ formatDuration s2 = renderMinutes N2
    /\ (0 <= N1 <= N2)%Z
    /\ IZR N1 - 1 < s1 * 1.2 / 60 <= IZR N1
    /\ IZR N2 - 1 < s2 * 1.2 / 60 <= IZR N2.
Proof.
  intros H1 H12.
  exists (Zceil (s1 * 1.2 / 60)), (Zceil (s2 * 1.2 / 60)).
  pose proof (Zceil_bound (s1 * 1.2 / 60)) as B1.
  pose proof (Zceil_bound (s2 * 1.2 / 60)) as B2.
  assert (P1 : (0 <= Zceil (s1 * 1.2 / 60))%Z) by (apply le_IZR; lra).
  assert (M : (Zceil (s1 * 1.2 / 60) <= Zceil (s2 * 1.2 / 60))%Z)
    by (apply Zceil_le; lra).
  split; [now apply formatDuration_minutes|].
  split; [apply formatDuration_minutes; [exact B2|lia]|].
  repeat split; try lia; lra.
Qed.

(** ** The local pin store: algebra of the mutations *)

Lemma removePin_pins pinId b :
  getLocalPinsSync (removePin pinId b) = idFilter pinId (getLocalPinsSync b).
Proof. reflexivity. Qed.

Lemma addPin_pins pin randomId now b :
  getLocalPinsSync (snd (addPin pin randomId now b))
  = getLocalPinsSync b ++ [fst (addPin pin randomId now b)].
Proof. reflexivity. Qed.

Lemma idFilter_absent pinId l :
  (forall p, In p l -> Pin.id p <> pinId) -> idFilter pinId l = l.
Proof.
  intros H. induction l as [|p l IH]; [reflexivity|]. simpl.
  destruct (String.eqb_spec (Pin.id p) pinId) as [E|N].
  - exfalso. apply (H p); [now left|exact E].
  - simpl. f_equal. apply IH. intros q Hq. apply H. now right.
Qed.

(** X20: a pin added under an id no stored pin has, then removed by the
    id [addPin] returned, leaves the stored list as it was. *)
Theorem X20_add_then_remove pin randomId now b :
  (forall p, In p (getLocalPinsSync b) -> Pin.id p <> randomId) ->
  let (newPin, b') := addPin pin randomId now b in
  Pin.id newPin = randomId
  /\ getLocalPinsSync (removePin (Pin.id newPin) b') = getLocalPinsSync b.
Proof.
  intros Hfresh.
  pose proof (addPin_pins pin randomId now b) as A.
  pose proof (removePin_pins randomId (snd (addPin pin randomId now b))) as Rm.
  destruct (addPin pin randomId now b) as [newPin b'] eqn:E.
  assert (Hid : Pin.id newPin = randomId).
  { unfold addPin in E. simpl in E. injection E as <- _. reflexivity. }
  split; [exact Hid|]. rewrite Hid.
  simpl in A, Rm. rewrite Rm, A.
  unfold idFilter. rewrite filter_app. simpl.
  rewrite Hid, String.eqb_refl. simpl. rewrite app_nil_r.
  now apply idFilter_absent.
Qed.

(** X21: removing an id twice is removing it once; removals of two ids
    commute; removing an id no stored pin has changes nothing; a removal
    never lengthens the list. *)
Theorem X21_removePin_algebra (a c : string) (b : Browser) :
  getLocalPinsSync (removePin a (removePin a b))
    = getLocalPinsSync (removePin a b)
  /\ getLocalPinsSync (removePin a (removePin c b))
     = getLocalPinsSync (removePin c (removePin a b))
  /\ ((forall p, In p (getLocalPinsSync b) -> Pin.id p <> a) ->
      getLocalPinsSync (removePin a b) = getLocalPinsSync b)
  /\ (List.length (getLocalPinsSync (removePin a b))
      <= List.length (getLocalPinsSync b))%nat.
Proof.
  rewrite !removePin_pins. unfold idFilter.
  split; [|split; [|split]].
  - induction (getLocalPinsSync b) as [|p l IH]; [reflexivity|]. simpl.
    destruct (String.eqb (Pin.id p) a) eqn:E; simpl; [exact IH|].
    rewrite E. simpl. now f_equal.
  - induction (getLocalPinsSync b) as [|p l IH]; [reflexivity|]. simpl.
    destruct (String.eqb (Pin.id p) a) eqn:Ea,
             (String.eqb (Pin.id p) c) eqn:Ec; simpl;
      rewrite ?Ea, ?Ec; simpl; now rewrite ?IH.
  - apply idFilter_absent.
  - apply filter_length_le.
Qed.

(** X22: [addPin] stores the old list followed by the new pin and
    [removePin] stores a list, each with one change notification; on a
    storage item that is missing, empty or unparsable, adding stores the
    new pin alone and removing stores the empty list. *)
Theorem X22_mutations_normalise_storage pin randomId now pinId (b : Browser) :
  (let (newPin, b') := addPin pin randomId now b in
   localStorage b' = ItemPins (getLocalPinsSync b ++ [newPin])
   /\ dispatched b' = S (dispatched b)
   /\ List.length (getLocalPinsSync b')
      = S (List.length (getLocalPinsSync b)))
  /\ (exists l, localStorage (removePin pinId b) = ItemPins l)
  /\ dispatched (removePin pinId b) = S (dispatched b)
  /\ (forall item, localStorage b = item ->
        item = ItemMissing \/ item = ItemEmpty \/ item = ItemUnparsable ->
        localStorage (snd (addPin pin randomId now b))
          = ItemPins [fst (addPin pin randomId now b)]
        /\ localStorage (removePin pinId b) = ItemPins []).
Proof.
  split; [|split; [|split]].
  - unfold addPin. simpl. repeat split.
    change (getLocalPinsSync (mkBrowser ?i ?d)) with
      (match i with ItemPins l => l | _ => [] end). cbv beta iota.
    rewrite length_app. simpl. lia.
  - eexists. reflexivity.
  - reflexivity.
  - intros item E Hcases. unfold addPin, removePin, getLocalPinsSync.
    simpl. rewrite E.
    destruct Hcases as [->|[->| ->]]; split; reflexivity.
Qed.

(** X23: [seedData] leaves a non-empty store untouched; on an empty one
    it stores three pins with ids 1, 2, 3 and levels SAFE, CAUTION,
    DANGER and notifies once; a second seeding changes nothing, and the
    store is never empty afterwards. *)
Theorem X23_seedData_only_when_empty centerLat centerLng now1 now2 now3
    (b : Browser) :
  (getLocalPinsSync b <> [] ->
   seedData centerLat centerLng now1 now2 now3 b = b)
  /\ (getLocalPinsSync b = [] ->
      let b' := seedData centerLat centerLng now1 now2 now3 b in
      map Pin.id (getLocalPinsSync b') = ["1"; "2"; "3"]%string
      /\ map Pin.safetyLevel (getLocalPinsSync b') = [SAFE; CAUTION; DANGER]
      /\ dispatched b' = S (dispatched b))
  /\ (forall n1 n2 n3,
        seedData centerLat centerLng n1 n2 n3
          (seedData centerLat centerLng now1 now2 now3 b)
        = seedData centerLat centerLng now1 now2 now3 b)
  /\ getLocalPinsSync (seedData centerLat centerLng now1 now2 now3 b) <> [].
Proof.
  unfold seedData.
  assert (U : negb USE_FIREBASE = true) by reflexivity. rewrite U.
  cbn [andb].
  destruct (getLocalPinsSync b) as [|p l] eqn:E.
  - cbn [List.length Nat.eqb].
    split; [congruence|]. split; [intros _; repeat split|].
    split; [|discriminate].
    intros n1 n2 n3. reflexivity.
  - cbn [List.length Nat.eqb].
    split; [reflexivity|]. split; [discriminate|].
    split; [|rewrite E; discriminate].
    intros n1 n2 n3. rewrite E. reflexivity.
Qed.

(** ** The local subscription *)

Lemma lastSeen_snoc_same cb cs l : lastSeen cb (cs ++ [(cb, l)]) = Some l.
Proof.
  unfold lastSeen. rewrite rev_app_distr. simpl.
  now rewrite Nat.eqb_refl.
Qed.

Lemma lastSeen_app_all cb cs (subs : list (nat * nat)) l :
  In cb (map snd subs) ->
  lastSeen cb (cs ++ map (fun s => (snd s, l)) subs) = Some l.
Proof.
  intros Hin. unfold lastSeen. rewrite rev_app_distr.
  induction subs as [|s subs IH] using rev_ind; [destruct Hin|].
  rewrite map_app, rev_app_distr. simpl.
  destruct (Nat.eqb_spec (snd s) cb) as [E|N]; [reflexivity|].
  apply IH. rewrite map_app in Hin. apply in_app_or in Hin.
  destruct Hin as [Hin|[Hin|[]]]; [exact Hin|]. simpl in Hin. congruence.
Qed.

Lemma fire_fold (subs : list (nat * nat)) : forall pg,
  fold_left (fun pg s => loadLocal (snd s) pg) subs pg =
  mkPage (browser pg) (subscriptions pg) (nextSubscription pg)
    (calls pg ++ map (fun s => (snd s, getLocalPinsSync (browser pg))) subs).
Proof.
  induction subs as [|s subs IH]; intros pg; simpl.
  - rewrite app_nil_r. now destruct pg.
  - rewrite IH. simpl. now rewrite <- app_assoc.
Qed.

Lemma localStorageUpdate_calls pg :
  localStorageUpdate pg =
  mkPage (browser pg) (subscriptions pg) (nextSubscription pg)
    (calls pg ++ map (fun s => (snd s, getLocalPinsSync (browser pg)))
                     (subscriptions pg)).
Proof. apply fire_fold. Qed.

Lemma localStorageUpdate_Coherent pg : Coherent (localStorageUpdate pg).
Proof.
  rewrite localStorageUpdate_calls. intros s Hs. simpl in *.
  apply lastSeen_app_all. now apply in_map.
Qed.

Lemma onBrowser_dispatching f pg :
  dispatched (f (browser pg)) = S (dispatched (browser pg)) ->
  onBrowser f pg =
  mkPage (f (browser pg)) (subscriptions pg) (nextSubscription pg)
    (calls pg ++ map (fun s => (snd s, getLocalPinsSync (f (browser pg))))
                     (subscriptions pg)).
Proof.
  intros Hd. unfold onBrowser. cbv zeta. rewrite Hd.
  replace (S (dispatched (browser pg)) - dispatched (browser pg))%nat
    with 1%nat by lia.
  simpl. now rewrite localStorageUpdate_calls.
Qed.

Lemma onBrowser_silent f pg :
  f (browser pg) = browser pg -> onBrowser f pg = pg.
Proof.
  intros E. unfold onBrowser. cbv zeta. rewrite E, Nat.sub_diag. simpl.
  now destruct pg.
Qed.

Lemma onBrowser_Coherent f pg :
  Coherent pg ->
  (dispatched (f (browser pg)) = S (dispatched (browser pg))
   \/ f (browser pg) = browser pg) ->
  Coherent (onBrowser f pg).
Proof.
  intros Hc [Hd|He].
  - rewrite (onBrowser_dispatching f pg Hd). intros s Hs. simpl in *.
    apply lastSeen_app_all. now apply in_map.
  - now rewrite (onBrowser_silent f pg He).
Qed.

Lemma seedData_cases centerLat centerLng now1 now2 now3 b :
  dispatched (seedData centerLat centerLng now1 now2 now3 b)
    = S (dispatched b)
  \/ seedData centerLat centerLng now1 now2 now3 b = b.
Proof.
  unfold seedData. destruct (_ && _); [left|right]; reflexivity.
Qed.

Lemma lastSeen_snoc_other cb cb' cs l :
  cb' <> cb -> lastSeen cb (cs ++ [(cb', l)]) = lastSeen cb cs.
Proof.
  intros N. unfold lastSeen. rewrite rev_app_distr. simpl.
  destruct (Nat.eqb_spec cb' cb); [contradiction|reflexivity].
Qed.

Lemma storageEvent_ignored c pg :
  isStorageKey (eventKey c) = false ->
  calls (storageEvent c pg) = calls pg
  /\ subscriptions (storageEvent c pg) = subscriptions pg.
Proof.
  intros E. unfold storageEvent. cbv zeta. rewrite E.
  assert (F : forall (subs : list (nat * nat)) (p : Page),
            fold_left (fun pg0 (_ : nat * nat) => pg0) subs p = p).
  { induction subs; intros; simpl; auto. }
  rewrite F. split; reflexivity.
Qed.

Lemma storageEvent_cleared pg :
  getLocalPinsSync (browser (storageEvent AreaCleared pg)) = []
  /\ calls (storageEvent AreaCleared pg) = calls pg
  /\ subscriptions (storageEvent AreaCleared pg) = subscriptions pg.
Proof.
  split; [|now apply storageEvent_ignored].
  unfold storageEvent. cbv zeta. simpl.
  assert (F : forall (subs : list (nat * nat)) (p : Page),
            fold_left (fun pg0 (_ : nat * nat) => pg0) subs p = p).
  { induction subs; intros; simpl; auto. }
  now rewrite F.
Qed.

Lemma pageStep_Coherent e pg :
  e <> OtherDocument AreaCleared ->
  Coherent pg -> Coherent (pageStep e pg).
Proof.
  intros Hne IH. destruct e as [callback|sub|pin randomId now|pinId
                                |centerLat centerLng now1 now2 now3|c];
    cbn [pageStep].
  - intros s Hs. simpl in *. apply in_app_or in Hs.
    destruct Hs as [Hs|[<-|[]]]; simpl.
    + destruct (Nat.eq_dec callback (snd s)) as [E|N].
      * rewrite E. apply lastSeen_snoc_same.
      * rewrite lastSeen_snoc_other by exact N. now apply IH.
    + apply lastSeen_snoc_same.
  - intros s Hs. simpl in *. apply filter_In in Hs.
    apply IH. tauto.
  - apply onBrowser_Coherent; [exact IH|]. left. reflexivity.
  - apply onBrowser_Coherent; [exact IH|]. left. reflexivity.
  - apply onBrowser_Coherent; [exact IH|]. apply seedData_cases.
  - destruct c as [key item|]; [|congruence].
    unfold storageEvent. cbv zeta. cbn [eventKey isStorageKey].
    destruct (String.eqb key STORAGE_KEY).
    + rewrite fire_fold. intros s Hs. simpl in *.
      apply lastSeen_app_all. now apply in_map.
    + assert (E : forall (subs : list (nat * nat)) (p : Page),
                fold_left (fun pg0 (_ : nat * nat) => pg0) subs p = p).
      { induction subs; intros; simpl; auto. }
      rewrite E. intros s Hs. simpl in *. now apply IH.
Qed.

Lemma pageStep_stored e pg :
  Coherent (pageStep e pg)
  \/ (e = OtherDocument AreaCleared
      /\ getLocalPinsSync (browser (pageStep e pg)) = [])
  \/ (browser (pageStep e pg) = browser pg
      /\ forall s, In s (subscriptions (pageStep e pg)) ->
           lastSeen (snd s) (calls (pageStep e pg))
           = Some (getLocalPinsSync (browser pg))
           \/ (In s (subscriptions pg)
               /\ lastSeen (snd s) (calls (pageStep e pg))
                  = lastSeen (snd s) (calls pg))).
Proof.
  destruct e as [callback|sub|pin randomId now|pinId
                |centerLat centerLng now1 now2 now3|c]; cbn [pageStep].
  - right; right. split; [reflexivity|].
    intros s Hs. simpl in *. apply in_app_or in Hs.
    destruct Hs as [Hs|[<-|[]]]; simpl.
    + destruct (Nat.eq_dec callback (snd s)) as [E|N].
      * left. rewrite E. apply lastSeen_snoc_same.
      * right. split; [exact Hs|]. now apply lastSeen_snoc_other.
    + left. apply lastSeen_snoc_same.
  - right; right. split; [reflexivity|].
    intros s Hs. simpl in *. apply filter_In in Hs. right. tauto.
  - left. rewrite onBrowser_dispatching by reflexivity.
    intros s Hs. simpl in *. apply lastSeen_app_all. now apply in_map.
  - left. rewrite onBrowser_dispatching by reflexivity.
    intros s Hs. simpl in *. apply lastSeen_app_all. now apply in_map.
  - destruct (seedData_cases centerLat centerLng now1 now2 now3 (browser pg))
      as [Hd|He].
    + left. rewrite (onBrowser_dispatching _ pg Hd).
      intros s Hs. simpl in *. apply lastSeen_app_all. now apply in_map.
    + right; right. rewrite (onBrowser_silent _ pg He).
      split; [reflexivity|]. intros s Hs. right. tauto.
  - destruct c as [key item|].
    + unfold storageEvent. cbv zeta. cbn [eventKey isStorageKey].
      destruct (String.eqb key STORAGE_KEY).
      * left. rewrite fire_fold. intros s Hs. simpl in *.
        apply lastSeen_app_all. now apply in_map.
      * assert (E : forall (subs : list (nat * nat)) (p : Page),
                  fold_left (fun pg0 (_ : nat * nat) => pg0) subs p = p).
        { induction subs; intros; simpl; auto. }
        rewrite E. right; right. simpl. split; [reflexivity|].
        intros s Hs. right. tauto.
    + right; left. split; [reflexivity|]. apply storageEvent_cleared.
Qed.

Lemma pageStep_settled e pg :
  Coherent pg \/ getLocalPinsSync (browser pg) = [] ->
  Coherent (pageStep e pg)
  \/ getLocalPinsSync (browser (pageStep e pg)) = [].
Proof.
  intros H.
  destruct (pageStep_stored e pg) as [Hc|[[_ Hc]|[Hb Hs]]];
    [now left|now right|].
  destruct H as [H|H].
  - left. intros s Hin. rewrite Hb.
    destruct (Hs s Hin) as [E|[Hin' E]]; [exact E|].
    rewrite E. now apply H.
  - right. now rewrite Hb.
Qed.

Lemma pageRun_snoc events e pg :
  pageRun (events ++ [e]) pg = pageStep e (pageRun events pg).
Proof. unfold pageRun. now rewrite fold_left_app. Qed.

Lemma pageRun_Coherent events b :
  ~ In (OtherDocument AreaCleared) events ->
  Coherent (pageRun events (mkPage b [] 0 [])).
Proof.
  induction events as [|e events IH] using rev_ind; intros Hn.
  - intros s [].
  - rewrite pageRun_snoc. apply pageStep_Coherent.
    + intros ->. apply Hn. apply in_or_app. right. now left.
    + apply IH. intros Hin. apply Hn. apply in_or_app. now left.
Qed.

Lemma pageRun_settled events b :
  Coherent (pageRun events (mkPage b [] 0 []))
  \/ getLocalPinsSync (browser (pageRun events (mkPage b [] 0 []))) = [].
Proof.
  induction events as [|e events IH] using rev_ind.
  - left. intros s [].
  - rewrite pageRun_snoc. now apply pageStep_settled.
Qed.

(** X24: on a page that started without subscribers, after any sequence
    of subscribing, unsubscribing, adding, removing, seeding and changes
    made by other documents: if no other document cleared the storage
    area, each live subscriber was last called with the list now stored;
    in any case a subscriber can be out of date only while the stored list
    is empty; and a clearing by another document is not passed on: the
    store is empty, no callback is called, and on a page with a subscriber
    and stored pins the subscribers keep a list that is no longer
    stored. *)
Theorem X24_subscribers_coherent (b : Browser) (events : list PageEvent) :
  let pg := pageRun events (mkPage b [] 0 []) in
  let cleared := pageStep (OtherDocument AreaCleared) pg in
  (~ In (OtherDocument AreaCleared) events -> Coherent pg)
  /\ (Coherent pg \/ getLocalPinsSync (browser pg) = [])
  /\ (getLocalPinsSync (browser cleared) = []
      /\ calls cleared = calls pg
      /\ subscriptions cleared = subscriptions pg)
  /\ (Coherent pg -> subscriptions pg <> [] ->
      getLocalPinsSync (browser pg) <> [] -> ~ Coherent cleared).
Proof.
  intros pg cleared.
  split; [apply pageRun_Coherent|].
  split; [apply pageRun_settled|].
  pose proof (storageEvent_cleared pg) as (Hb & Hc & Hs).
  split; [exact (conj Hb (conj Hc Hs))|].
  intros Hcoh Hsub Hpins Hcl.
  destruct (subscriptions pg) as [|s subs] eqn:Es; [congruence|].
  assert (Hin : In s (subscriptions pg)) by (rewrite Es; now left).
  pose proof (Hcoh s Hin) as H1.
  assert (Hin' : In s (subscriptions cleared)).
  { unfold cleared. cbn [pageStep]. rewrite Hs. now left. }
  pose proof (Hcl s Hin') as H2.
  unfold cleared in H2. cbn [pageStep] in H2. rewrite Hc, Hb in H2.
  congruence.
Qed.

Lemma X24_subscribers_coherent_witness :
  let pin := mkPinInput 37.7749 (-122.4194) DANGER
               "No description provided." "user" in
  let events := [Subscribes 7; AddsPin pin "k3x9q0a" 1700000000000;
                 OtherDocument (ItemChanged "theme" ItemEmpty)] in
  let pg := pageRun events (mkPage (mkBrowser ItemMissing 0) [] 0 []) in
  let cleared := pageStep (OtherDocument AreaCleared) pg in
  ~ In (OtherDocument AreaCleared) events
  /\ Coherent pg
  /\ subscriptions pg = [(0%nat, 7%nat)]
  /\ List.length (getLocalPinsSync (browser pg)) = 1%nat
  /\ ~ Coherent cleared.
Proof.
  intros pin events pg cleared.
  assert (N : ~ In (OtherDocument AreaCleared) events).
  { intros [H|[H|[H|[]]]]; discriminate. }
  pose proof (X24_subscribers_coherent (mkBrowser ItemMissing 0) events)
    as (H1 & _ & _ & H4).
  assert (Hsub : subscriptions pg = [(0%nat, 7%nat)]) by reflexivity.
  assert (Hlen : List.length (getLocalPinsSync (browser pg)) = 1%nat)
    by reflexivity.
  split; [exact N|]. split; [exact (H1 N)|].
  split; [exact Hsub|]. split; [exact Hlen|].
  apply (H4 (H1 N)).
  - fold pg. rewrite Hsub. discriminate.
  - fold pg. intros E. rewrite E in Hlen. discriminate.
Defined.

(** ** The caller of the planner *)

Lemma append_nonempty a b : b <> ""%string -> (a ++ b)%string <> ""%string.
Proof.
  intros Hb E. destruct a; simpl in E; [contradiction|discriminate].
Qed.

Lemma formatDuration_nonempty seconds : formatDuration seconds <> ""%string.
Proof.
  unfold formatDuration. cbv zeta.
  destruct (_ <? _)%Z.
  - apply append_nonempty. discriminate.
  - apply append_nonempty. discriminate.
Qed.

(** X25: [calculateRoute] always ends with the routing flag cleared.
    Either it shows a non-empty route of the provider with its formatted
    duration and a non-empty note, in navigation mode and without a new
    alert; or it leaves route, route information and mode as they were and
    adds the alert that no route could be calculated. *)
Theorem X25_calculateRoute_outcome w h center pins destLoc destName st t :
  exists st' t',
    calculateRoute w h center pins destLoc destName st t = (Returns st', t')
    /\ nav_isRouting st' = false
    /\ ((exists r d n urls url x,
           nav_route st' = Some r /\ r <> []
           /\ nav_routeInfo st' = Some (d, n)
           /\ d <> ""%string /\ n <> ""%string
           /\ nav_mode st' = NAVIGATING_SHOW
           /\ nav_alerts st' = nav_alerts st
           /\ fetchedUrls t' = fetchedUrls t ++ urls
           /\ In url urls /\ firstRoute w url = Some x
           /\ r = map toLatLng (coordinates x)
           /\ d = formatDuration (duration x))
        \/ (nav_route st' = nav_route st
            /\ nav_routeInfo st' = nav_routeInfo st
            /\ nav_mode st' = nav_mode st
            /\ nav_alerts st'
               = nav_alerts st ++ ["Could not calculate a route."%string])).
Proof.
  unfold calculateRoute. cbv zeta.
  destruct (getSafeRoute_never_throws w h center destLoc destName pins t)
    as (result & t' & Hrun).
  rewrite Hrun. simpl.
  destruct (RouteResponse.route result) as [|p ps] eqn:Er; simpl.
  - eexists _, _. split; [reflexivity|]. split; [reflexivity|].
    right. simpl. auto.
  - eexists _, _. split; [reflexivity|]. split; [reflexivity|].
    left.
    assert (Hne : RouteResponse.route result <> []) by (rewrite Er; discriminate).
    destruct (returned_route_from_provider w h center destLoc destName pins
                t result t' Hrun Hne)
      as (urls & url & x & Ht & Hu & Hf & Hr & Hd).
    (* the note *)
    pose proof Hrun as Hrun'.
    rewrite getSafeRoute_run, tryBlock_run in Hrun'.
    destruct (selectRoute w h center destLoc pins t) as [[sel|e] t1] eqn:Es.
    2:{ injection Hrun' as <- _. simpl in Er. discriminate. }
    rewrite describeRoute_run in Hrun'.
    destruct (generateContent w (promptFor center destName sel))
      as [resp|] eqn:Eg.
    2:{ injection Hrun' as <- _. simpl in Er. discriminate. }
    destruct (safety_note_rules w h center destLoc destName pins t sel t1
                resp Es Eg) as (note & t'' & Hrun'' & Hnote & _).
    rewrite Hrun in Hrun''. injection Hrun'' as Hres _.
    exists (p :: ps), (formatDuration (duration x)), note, urls, url, x.
    simpl. rewrite Hd, Hres. simpl.
    rewrite Er in Hr.
    repeat split; auto.
    + discriminate.
    + apply formatDuration_nonempty.
Qed.

(** ** The area analysis and its places *)

Lemma nonNull_placeOf chunks :
  map originalChunk (nonNull (map placeOf chunks)) = filter linkable chunks.
Proof.
  induction chunks as [|c chunks IH]; [reflexivity|].
  cbn [map filter]. unfold placeOf at 1, linkable at 1.
  destruct (maps c) as [m|], (web c) as [wb|];
    cbn [nonNull map originalChunk]; now rewrite IH.
Qed.

Lemma nonNull_In {A} (l : list (option A)) x :
  In x (nonNull l) <-> In (Some x) l.
Proof.
  induction l as [|[y|] l IH]; simpl.
  - tauto.
  - rewrite IH. split; intros [E|H]; auto; left; congruence.
  - rewrite IH. split; [auto|]. intros [E|H]; [discriminate|auto].
Qed.

(** X26: [analyzeSafety] never gives an empty text; when the service call
    fails it gives the unreachable message with no chunks, so no place is
    listed; a non-empty answer text is passed on as it is; without
    candidates there are no chunks. *)
Theorem X26_analyzeSafety_answers ask location :
  analysis_text (analyzeSafety ask location) <> ""%string
  /\ (ask location = None ->
      analyzeSafety ask location = mkGeminiAnalysis ANALYSIS_UNREACHABLE []
      /\ validPlaces (Some (analyzeSafety ask location)) = [])
  /\ (forall response txt,
        ask location = Some response ->
        grounded_text response = Some txt -> txt <> ""%string ->
        analysis_text (analyzeSafety ask location) = txt)
  /\ (forall response,
        ask location = Some response ->
        grounded_candidates response = None
        \/ grounded_candidates response = Some [] ->
        groundingChunks (analyzeSafety ask location) = []).
Proof.
  unfold analyzeSafety.
  destruct (ask location) as [response|].
  - split; [|split; [discriminate|split]].
    + simpl. destruct (grounded_text response) as [[|c txt]|];
        simpl; discriminate.
    + intros r txt E Ht Hne. injection E as <-. simpl. rewrite Ht.
      destruct txt; [congruence|reflexivity].
    + intros r E [Hc|Hc]; injection E as <-; simpl; now rewrite Hc.
  - split; [discriminate|]. split; [auto|]. split; discriminate.
Qed.

(** X27: the advisor lists at most five places: the first five chunks
    that carry a map or web link, in their order, each shown with the
    link and title of its map entry when it has one and of its web entry
    otherwise. *)
Theorem X27_validPlaces (analysis : option GeminiAnalysis) :
  (List.length (validPlaces analysis) <= 5)%nat
  /\ (forall a, analysis = Some a ->
        map originalChunk (validPlaces analysis)
        = firstn 5 (filter linkable (groundingChunks a)))
  /\ (forall item, In item (validPlaces analysis) ->
        match maps (originalChunk item) with
        | Some m => place_uri item = maps_uri m
                    /\ place_title item = maps_title m
        | None => exists wb, web (originalChunk item) = Some wb
                    /\ place_uri item = web_uri wb
                    /\ place_title item = web_title wb
        end).
Proof.
  destruct analysis as [a|]; unfold validPlaces.
  - split; [apply firstn_le_length|]. split.
    + intros a' E. injection E as <-.
      rewrite <- nonNull_placeOf. symmetry. apply firstn_map.
    + intros item Hin.
      assert (Hin' : In item (nonNull (map placeOf (groundingChunks a)))).
      { revert Hin. generalize (nonNull (map placeOf (groundingChunks a))).
        intros l. generalize 5%nat. intros n. revert l.
        induction n as [|n IH]; intros [|y l]; simpl; try tauto.
        intros [E|H]; auto. }
      apply nonNull_In in Hin'. apply in_map_iff in Hin'.
      destruct Hin' as (c & Hc & _). unfold placeOf in Hc.
      destruct (maps c) as [m|] eqn:Em.
      * injection Hc as <-. simpl. rewrite Em. auto.
      * destruct (web c) as [wb|] eqn:Ew; [|discriminate].
        injection Hc as <-. simpl. rewrite Em. eauto.
  - split; [simpl; lia|]. split; [discriminate|]. intros item [].
Qed.

(** ** Place search: the text that is parsed *)

Lemma indexOf_split c s i :
  indexOf c s = Some i ->
  exists pre post, s = pre ++ c :: post /\ List.length pre = i /\ ~ In c pre.
Proof.
  revert i. induction s as [|x s IH]; intros i; simpl; [discriminate|].
  destruct (N.eqb_spec x c) as [->|N].
  - intros E. injection E as <-. exists [], s. simpl. auto.
  - destruct (indexOf c s) as [k|]; [|discriminate].
    intros E. injection E as <-.
    destruct (IH k eq_refl) as (pre & post & -> & Hl & Hn).
    exists (x :: pre), post. simpl. repeat split; [congruence|].
    intros [E|H]; [congruence|contradiction].
Qed.

Lemma lastIndexOf_none c s : lastIndexOf c s = None -> ~ In c s.
Proof.
  induction s as [|x s IH]; simpl; [tauto|].
  destruct (lastIndexOf c s) as [k|]; [discriminate|].
  destruct (N.eqb_spec x c) as [->|N]; [discriminate|].
  intros _ [E|H]; [congruence|]. now apply IH.
Qed.

Lemma lastIndexOf_split c s j :
  lastIndexOf c s = Some j ->
  exists pre post, s = pre ++ c :: post /\ List.length pre = j /\ ~ In c post.
Proof.
  revert j. induction s as [|x s IH]; intros j; simpl; [discriminate|].
  destruct (lastIndexOf c s) as [k|] eqn:E.
  - intros E'. injection E' as <-.
    destruct (IH k eq_refl) as (pre & post & -> & Hl & Hn).
    exists (x :: pre), post. simpl. repeat split; [congruence|exact Hn].
  - destruct (N.eqb_spec x c) as [->|N]; [|discriminate].
    intros E'. injection E' as <-. exists [], s. simpl.
    repeat split. now apply lastIndexOf_none.
Qed.

Lemma split_two (A : Type) (pre1 post1 pre2 post2 : list A) (a b : A) :
  pre1 ++ a :: post1 = pre2 ++ b :: post2 ->
  (List.length pre1 < List.length pre2)%nat ->
  exists mid, pre2 = pre1 ++ a :: mid /\ post1 = mid ++ b :: post2.
Proof.
  revert pre2. induction pre1 as [|x pre1 IH]; intros pre2 E Hl.
  - destruct pre2 as [|y pre2]; [simpl in Hl; lia|].
    simpl in E. injection E as -> ->. now exists pre2.
  - destruct pre2 as [|y pre2]; [simpl in Hl; lia|].
    simpl in E. injection E as -> E. simpl in Hl.
    destruct (IH pre2 E ltac:(lia)) as (mid & -> & ->).
    now exists mid.
Qed.

Lemma substring_middle (pre mid post : JsString) :
  substring (List.length pre) (List.length pre + List.length mid)
            (pre ++ mid ++ post) = mid.
Proof.
  unfold substring. cbv zeta. rewrite !length_app.
  set (p := List.length pre). set (m := List.length mid).
  set (q := List.length post).
  replace (Nat.min p (p + (m + q))) with p by lia.
  replace (Nat.min (p + m) (p + (m + q))) with (p + m)%nat by lia.
  replace (Nat.min p (p + m)) with p by lia.
  replace (Nat.max p (p + m)) with (p + m)%nat by lia.
  replace (p + m - p)%nat with m by lia.
  unfold p, m.
  rewrite skipn_app, Nat.sub_diag, skipn_all. simpl.
  rewrite firstn_app, Nat.sub_diag, firstn_all. simpl.
  now rewrite app_nil_r.
Qed.

Lemma substring_swapped (pre mid post : JsString) :
  substring (List.length pre + List.length mid) (List.length pre)
            (pre ++ mid ++ post) = mid.
Proof.
  unfold substring. cbv zeta. rewrite !length_app.
  set (p := List.length pre). set (m := List.length mid).
  set (q := List.length post).
  replace (Nat.min p (p + (m + q))) with p by lia.
  replace (Nat.min (p + m) (p + (m + q))) with (p + m)%nat by lia.
  replace (Nat.min (p + m) p) with p by lia.
  replace (Nat.max (p + m) p) with (p + m)%nat by lia.
  replace (p + m - p)%nat with m by lia.
  unfold p, m.
  rewrite skipn_app, Nat.sub_diag, skipn_all. simpl.
  rewrite firstn_app, Nat.sub_diag, firstn_all. simpl.
  now rewrite app_nil_r.
Qed.

(** X28: in the cleaned answer text, when the first opening bracket is
    before the last closing bracket the text that is parsed runs from the
    one to the other, both included; when it is after, the text that is
    parsed is what lies strictly between the last closing and the first
    opening bracket, with neither of them. *)
Theorem X28_bracket_span (text : JsString) (i j : nat) :
  let jsonStr := trim (removeAll FENCE (removeAll FENCE_JSON text)) in
  indexOf LBRACKET jsonStr = Some i ->
  lastIndexOf RBRACKET jsonStr = Some j ->
  ((i < j)%nat ->
   exists pre mid post,
     jsonStr = pre ++ [LBRACKET] ++ mid ++ [RBRACKET] ++ post
     /\ ~ In LBRACKET pre /\ ~ In RBRACKET post
     /\ jsonCandidate text = [LBRACKET] ++ mid ++ [RBRACKET])
  /\ ((j < i)%nat ->
      exists pre mid post,
        jsonStr = pre ++ [RBRACKET] ++ mid ++ [LBRACKET] ++ post
        /\ ~ In LBRACKET (pre ++ [RBRACKET] ++ mid)
        /\ ~ In RBRACKET (mid ++ [LBRACKET] ++ post)
        /\ jsonCandidate text = mid).
Proof.
  intros jsonStr Hi Hj. unfold jsonCandidate. fold jsonStr. cbv zeta.
  rewrite Hi, Hj.
  destruct (indexOf_split _ _ _ Hi) as (pre1 & post1 & E1 & L1 & N1).
  destruct (lastIndexOf_split _ _ _ Hj) as (pre2 & post2 & E2 & L2 & N2).
  split; intros Hlt.
  - destruct (split_two _ pre1 post1 pre2 post2 LBRACKET RBRACKET)
      as (mid & Hp & Hq); [congruence|lia|].
    exists pre1, mid, post2.
    split; [rewrite E1, Hq; reflexivity|].
    split; [exact N1|]. split; [exact N2|].
    assert (Es : jsonStr
                 = pre1 ++ ([LBRACKET] ++ mid ++ [RBRACKET]) ++ post2).
    { rewrite E1, Hq. simpl. now rewrite <- app_assoc. }
    assert (Ei : i = List.length pre1) by congruence.
    assert (Ej : (j + 1)%nat
                 = (List.length pre1
                    + List.length ([LBRACKET] ++ mid ++ [RBRACKET]))%nat).
    { rewrite <- L2, Hp. repeat (progress (rewrite ?length_app; simpl)). lia. }
    rewrite Es, Ei, Ej. apply substring_middle.
  - destruct (split_two _ pre2 post2 pre1 post1 RBRACKET LBRACKET)
      as (mid & Hp & Hq); [congruence|lia|].
    exists pre2, mid, post1.
    split; [rewrite E2, Hq; reflexivity|].
    split; [cbn [app]; now rewrite <- Hp|].
    split; [cbn [app]; now rewrite <- Hq|].
    assert (Es : jsonStr = (pre2 ++ [RBRACKET]) ++ mid ++ LBRACKET :: post1).
    { rewrite E2, Hq. now rewrite <- app_assoc. }
    assert (Ei : i = (List.length (pre2 ++ [RBRACKET])
                      + List.length mid)%nat).
    { rewrite <- L1, Hp. repeat (progress (rewrite ?length_app; simpl)). lia. }
    assert (Ej : (j + 1)%nat = List.length (pre2 ++ [RBRACKET])).
    { rewrite <- L2. repeat (progress (rewrite ?length_app; simpl)). lia. }
    rewrite Es, Ei, Ej. apply substring_swapped.
Qed.

Lemma removeFrom_plain pat' s1 s2 :
  ~ In BACKTICK s1 ->
  removeFrom (BACKTICK :: pat') 0 (s1 ++ s2)
  = s1 ++ removeFrom (BACKTICK :: pat') 0 s2.
Proof.
  induction s1 as [|c s1 IH]; intros Hn; [reflexivity|].
  cbn [app removeFrom startsWith].
  destruct (N.eqb_spec BACKTICK c) as [E|N].
  - exfalso. apply Hn. left. now symmetry.
  - cbn [andb]. f_equal. apply IH. intros H. apply Hn. now right.
Qed.

Lemma removeAll_FENCE_JSON_tail body :
  ~ In BACKTICK body ->
  removeAll FENCE_JSON (body ++ FENCE) = body ++ FENCE.
Proof.
  intros Hn. unfold removeAll.
  change FENCE_JSON with (BACKTICK :: [96; 96; 106; 115; 111; 110]%N).
  rewrite (removeFrom_plain [96; 96; 106; 115; 111; 110]%N body FENCE Hn).
  reflexivity.
Qed.

Lemma removeAll_FENCE_tail body :
  ~ In BACKTICK body -> removeAll FENCE (body ++ FENCE) = body.
Proof.
  intros Hn. unfold removeAll.
  change FENCE with (BACKTICK :: [96; 96]%N) at 1.
  rewrite (removeFrom_plain [96; 96]%N body FENCE Hn).
  apply app_nil_r.
Qed.

Lemma removeAll_plain_FENCE_JSON body :
  ~ In BACKTICK body -> removeAll FENCE_JSON body = body.
Proof.
  intros Hn. unfold removeAll. rewrite <- (app_nil_r body) at 1.
  change FENCE_JSON with (BACKTICK :: [96; 96; 106; 115; 111; 110]%N).
  rewrite (removeFrom_plain [96; 96; 106; 115; 111; 110]%N body [] Hn).
  apply app_nil_r.
Qed.

Lemma removeAll_plain_FENCE body :
  ~ In BACKTICK body -> removeAll FENCE body = body.
Proof.
  intros Hn. unfold removeAll. rewrite <- (app_nil_r body) at 1.
  change FENCE with (BACKTICK :: [96; 96]%N).
  rewrite (removeFrom_plain [96; 96]%N body [] Hn).
  apply app_nil_r.
Qed.

Lemma removeAll_FENCE_JSON_keeps_plain_fence c s :
  c <> 106%N -> c <> BACKTICK ->
  removeAll FENCE_JSON (FENCE ++ c :: s)
  = FENCE ++ removeAll FENCE_JSON (c :: s).
Proof.
  intros Hj Ht. unfold removeAll, FENCE, FENCE_JSON.
  cbn [app removeFrom startsWith List.length Nat.sub].
  rewrite !N.eqb_refl. cbn [andb].
  replace (N.eqb 106 c) with false by (symmetry; apply N.eqb_neq; congruence).
  replace (N.eqb 96 c) with false
    by (symmetry; apply N.eqb_neq; unfold BACKTICK in Ht; congruence).
  cbn [andb]. reflexivity.
Qed.

(** X29: a body without backticks is parsed the same whether it comes
    bare, inside a json code fence, or inside a plain fence (when the body
    is not empty and does not start with the letter j); the cleaned text
    of the bare body is the trimmed body. *)
Theorem X29_fence_unwrapped (body : JsString) :
  ~ In BACKTICK body ->
  jsonCandidate (FENCE_JSON ++ body ++ FENCE) = jsonCandidate body
  /\ (forall c rest, body = c :: rest -> c <> 106%N ->
      jsonCandidate (FENCE ++ body ++ FENCE) = jsonCandidate body)
  /\ trim (removeAll FENCE (removeAll FENCE_JSON body)) = trim body.
Proof.
  intros Hn.
  assert (Plain : removeAll FENCE (removeAll FENCE_JSON body) = body).
  { now rewrite removeAll_plain_FENCE_JSON, removeAll_plain_FENCE. }
  assert (Tail : removeAll FENCE (removeAll FENCE_JSON (body ++ FENCE))
                 = body).
  { now rewrite removeAll_FENCE_JSON_tail, removeAll_FENCE_tail. }
  split; [|split].
  - unfold jsonCandidate.
    change (removeAll FENCE_JSON (FENCE_JSON ++ body ++ FENCE))
      with (removeAll FENCE_JSON (body ++ FENCE)).
    now rewrite Tail, Plain.
  - intros c rest E Hc.
    assert (Hc' : c <> BACKTICK).
    { intros Eq. apply Hn. rewrite E. left. now symmetry. }
    unfold jsonCandidate. rewrite Plain.
    assert (K : removeAll FENCE (removeAll FENCE_JSON
                  (FENCE ++ body ++ FENCE)) = body).
    { rewrite E. cbn [app].
      rewrite (removeAll_FENCE_JSON_keeps_plain_fence c (rest ++ FENCE) Hc Hc').
      change (c :: rest ++ FENCE) with ((c :: rest) ++ FENCE).
      rewrite <- E. rewrite removeAll_FENCE_JSON_tail by exact Hn.
      change (removeAll FENCE (FENCE ++ body ++ FENCE))
        with (removeAll FENCE (body ++ FENCE)).
      now apply removeAll_FENCE_tail. }
    now rewrite K.
  - now rewrite Plain.
Qed.

Lemma mapItems_null data : In PlaceNull data -> mapItems data = None.
Proof.
  induction data as [|[|n la lo ad] data IH]; simpl; [tauto|reflexivity|].
  intros [E|H]; [discriminate|]. now rewrite IH.
Qed.

Lemma mapItems_values data :
  ~ In PlaceNull data ->
  exists out,
    mapItems data = Some out
    /\ map (fun s => PlaceValue (suggestion_name s) (suggestion_lat s)
                       (suggestion_lng s) (suggestion_address s)) out
       = data.
Proof.
  induction data as [|[|n la lo ad] data IH]; simpl; intros Hn.
  - now exists [].
  - exfalso. apply Hn. now left.
  - destruct IH as (out & E & M); [tauto|].
    rewrite E. eexists. split; [reflexivity|]. simpl. now rewrite M.
Qed.

(** X30: [searchPlaces] returns no suggestion when the service fails,
    gives no text or an empty one, when the candidate text does not parse
    to an array, or when the array holds a null; otherwise it returns the
    array's items, field by field and in order. *)
Theorem X30_searchPlaces_results w query center :
  (askPlaces w query center = None -> searchPlaces w query center = [])
  /\ (askPlaces w query center = Some None ->
      searchPlaces w query center = [])
  /\ (askPlaces w query center = Some (Some []) ->
      searchPlaces w query center = [])
  /\ (forall text, askPlaces w query center = Some (Some text) ->
      text <> [] ->
      match parsePlaces w (jsonCandidate text) with
      | Some (ParsedArray data) =>
          (In PlaceNull data -> searchPlaces w query center = [])
          /\ (~ In PlaceNull data ->
              map (fun s => PlaceValue (suggestion_name s)
                              (suggestion_lat s) (suggestion_lng s)
                              (suggestion_address s))
                  (searchPlaces w query center) = data)
      | Some ParsedOther => searchPlaces w query center = []
      | None => searchPlaces w query center = []
      end).
Proof.
  unfold searchPlaces.
  split; [now intros ->|]. split; [now intros ->|]. split; [now intros ->|].
  intros text -> Hne. destruct text as [|c text]; [congruence|].
  destruct (parsePlaces w (jsonCandidate (c :: text))) as [[data|]|];
    try reflexivity.
  split.
  - intros Hnull. now rewrite mapItems_null.
  - intros Hn. destruct (mapItems_values data Hn) as (out & -> & M).
    exact M.
Qed.

(** ** The shared statements as properties of their own, and instances *)

(** X1: for a start between the poles and a distance of at most half the
    circumference, the point returned by [getDestinationPoint] is at that
    distance from the start, whatever the bearing. *)
Theorem X1_distance_of_projection (start : LatLng) (d bearing : R) :
  -90 <= lat start <= 90 ->
  0 <= d <= PI * 6371e3 ->
  getDistanceMeters start (getDestinationPoint start d bearing) = d.
Proof. apply distance_to_projection. Qed.

Lemma X1_distance_of_projection_witness :
  -90 <= lat (mkLatLng 37.7749 (-122.4194)) <= 90
  /\ 0 <= 300 <= PI * 6371e3
  /\ getDistanceMeters (mkLatLng 37.7749 (-122.4194))
       (getDestinationPoint (mkLatLng 37.7749 (-122.4194)) 300 45) = 300.
Proof.
  pose proof PI_gt_3 as Hpi.
  split; [simpl; lra|]. split; [lra|].
  apply (X1_distance_of_projection (mkLatLng 37.7749 (-122.4194)) 300 45);
    [simpl; lra | lra].
Defined.

Lemma X2_bearing_of_projection_witness :
  -90 < lat (mkLatLng 37.7749 (-122.4194)) < 90
  /\ 0 < 300 < PI * 6371e3
  /\ 0 <= 45 < 360
  /\ getBearing (mkLatLng 37.7749 (-122.4194))
       (getDestinationPoint (mkLatLng 37.7749 (-122.4194)) 300 45) = 45.
Proof.
  pose proof PI_gt_3 as Hpi.
  split; [simpl; lra|]. split; [lra|]. split; [lra|].
  apply (X2_bearing_of_projection (mkLatLng 37.7749 (-122.4194)) 300 45);
    [simpl; lra | lra | lra].
Defined.

Lemma X6_projection_zero_distance_witness :
  -90 <= lat (mkLatLng 37.7749 (-122.4194)) <= 90
  /\ getDestinationPoint (mkLatLng 37.7749 (-122.4194)) 0 45
     = mkLatLng 37.7749 (-122.4194).
Proof.
  split; [simpl; lra|].
  apply (X6_projection_zero_distance (mkLatLng 37.7749 (-122.4194)) 45).
  simpl; lra.
Defined.

Lemma X7_bearing_along_meridian_witness :
  lng (mkLatLng 10 20) = lng (mkLatLng 30 20)
  /\ getBearing (mkLatLng 10 20) (mkLatLng 30 20) = 0.
Proof.
  split; [reflexivity|].
  apply (proj1 (X7_bearing_along_meridian (mkLatLng 10 20) (mkLatLng 30 20)
                  eq_refl)).
  simpl; lra.
Defined.

(** X8: the conflicts of a path are a prefix of the conflicts of any
    extension of the path: points added at the end never remove or reorder
    what was found. *)
Theorem X8_conflicts_path_extension (h : Store) (startLoc endLoc : LatLng)
    (routePath more : list LatLng) (pins : list ref) :
  exists added,
    checkRouteConflicts h (routePath ++ more) pins startLoc endLoc
    = checkRouteConflicts h routePath pins startLoc endLoc ++ added.
Proof. apply conflicts_path_extension. Qed.

Lemma ex_midpoint_conflict :
  isConflict ex_store ex_start ex_dest (mkLatLng 0 0.005) 0%nat.
Proof.
  pose proof ex_hazard_far as F. unfold isConflict. split; [|split].
  - change (getDistanceMeters (mkLatLng 0 0.005) (mkLatLng 0 0.005) < 150).
    rewrite getDistanceMeters_refl. lra.
  - change (getDistanceMeters ex_hazard ex_start > 80).
    rewrite getDistanceMeters_sym, ex_hazard_from_start. lra.
  - change (getDistanceMeters ex_hazard ex_dest > 80).
    rewrite ex_hazard_to_dest. lra.
Qed.

(** Points of the equator more than 0.003 degrees apart are not within
    the danger threshold of each other. *)
Lemma ex_equator_apart (x y : R) :
  0.003 <= y - x < 180 ->
  ~ getDistanceMeters (mkLatLng 0 x) (mkLatLng 0 y) < 150.
Proof.
  intros H. pose proof PI_gt_3 as Hpi.
  rewrite distance_on_equator by lra. nra.
Qed.

Lemma X9_first_conflict_witness :
  Pin.safetyLevel (ex_store2 0%nat) = DANGER
  /\ ~ isConflict ex_store2 ex_start ex_dest (mkLatLng 0 0.005) 0%nat
  /\ ~ isConflict ex_store2 ex_start ex_dest (mkLatLng 0 0.001) 1%nat
  /\ hd_error (checkRouteConflicts ex_store2
                 ([mkLatLng 0 0.001] ++ mkLatLng 0 0.005 :: [mkLatLng 0 0.009])
                 ([0%nat] ++ 1%nat :: []) ex_start ex_dest)
     = Some 1%nat.
Proof.
  assert (A : ~ isConflict ex_store2 ex_start ex_dest (mkLatLng 0 0.005) 0%nat).
  { intros [H _]. revert H.
    change (~ getDistanceMeters (mkLatLng 0 0.005) (mkLatLng 0 0.02) < 150).
    apply ex_equator_apart. lra. }
  assert (B : ~ isConflict ex_store2 ex_start ex_dest (mkLatLng 0 0.001) 1%nat).
  { intros [H _]. revert H.
    change (~ getDistanceMeters (mkLatLng 0 0.001) (mkLatLng 0 0.005) < 150).
    apply ex_equator_apart. lra. }
  assert (C : ~ isConflict ex_store2 ex_start ex_dest (mkLatLng 0 0.001) 0%nat).
  { intros [H _]. revert H.
    change (~ getDistanceMeters (mkLatLng 0 0.001) (mkLatLng 0 0.02) < 150).
    apply ex_equator_apart. lra. }
  split; [reflexivity|]. split; [exact A|]. split; [exact B|].
  apply (X9_first_conflict ex_store2 ex_start ex_dest
           [mkLatLng 0 0.001] (mkLatLng 0 0.005) [mkLatLng 0 0.009]
           [0%nat] 1%nat []).
  - intros q p [<-|[]] [<-|[<-|[]]] _; [exact C | exact B].
  - intros p [<-|[]] _. exact A.
  - reflexivity.
  - exact ex_midpoint_conflict.
Defined.

Lemma ex_selectRoute_returns seconds ai t :
  exists sel t',
    selectRoute (ex_world seconds ai) ex_store ex_start ex_dest ex_pins t
    = (Returns sel, t').
Proof.
  destruct (selectRoute_StableMin (ex_world seconds ai) ex_store ex_start
              ex_dest ex_pins ex_direct t eq_refl) as (sel & t' & E & _).
  eauto.
Qed.

Lemma X13_detour_strictly_better_witness :
  firstRoute (ex_world 1200 None) [ex_start; ex_dest] = Some ex_direct
  /\ exists sel t',
       selectRoute (ex_world 1200 None) ex_store ex_start ex_dest ex_pins []
         = (Returns sel, t')
       /\ (type sel <> direct ->
           score sel
             < score (directCandidate ex_store ex_start ex_dest ex_pins
                        ex_direct)
           /\ conflicts (directCandidate ex_store ex_start ex_dest ex_pins
                           ex_direct) <> []).
Proof.
  split; [reflexivity|].
  destruct (ex_selectRoute_returns 1200 None []) as (sel & t' & E).
  exists sel, t'. split; [exact E|].
  exact (proj2 (X13_detour_strictly_better (ex_world 1200 None) ex_store
                  ex_start ex_dest ex_pins ex_direct [] sel t' eq_refl E)).
Defined.

Lemma ex_durations_nonneg seconds ai url r :
  0 <= seconds ->
  firstRoute (ex_world seconds ai) url = Some r -> 0 <= duration r.
Proof.
  intros Hs. unfold firstRoute. simpl.
  destruct url as [|a [|b [|c [|e url]]]]; try discriminate;
    intros E; injection E as <-; simpl; lra.
Qed.

Lemma X14_conflicts_never_increase_witness :
  (forall url r, firstRoute (ex_world 1200 None) url = Some r ->
                 0 <= duration r)
  /\ firstRoute (ex_world 1200 None) [ex_start; ex_dest] = Some ex_direct
  /\ duration ex_direct < 1000000
  /\ exists sel t',
       selectRoute (ex_world 1200 None) ex_store ex_start ex_dest ex_pins []
         = (Returns sel, t')
       /\ (List.length (conflicts sel)
           <= List.length
                (checkRouteConflicts ex_store
                   (map toLatLng (coordinates ex_direct)) ex_pins
                   ex_start ex_dest))%nat.
Proof.
  assert (D : forall url r, firstRoute (ex_world 1200 None) url = Some r ->
                            0 <= duration r).
  { intros url r. apply ex_durations_nonneg. lra. }
  assert (S300 : duration ex_direct < 1000000) by (simpl; lra).
  split; [exact D|]. split; [reflexivity|]. split; [exact S300|].
  destruct (ex_selectRoute_returns 1200 None []) as (sel & t' & E).
  exists sel, t'. split; [exact E|].
  exact (X14_conflicts_never_increase (ex_world 1200 None) ex_store ex_start
           ex_dest ex_pins ex_direct [] sel t' D eq_refl S300 E).
Defined.

Lemma X15_waypoints_at_offset_witness :
  firstRoute (ex_world 1200 None) [ex_start; ex_dest] = Some ex_direct
  /\ conflicts (directCandidate ex_store ex_start ex_dest ex_pins ex_direct)
     = [0%nat]
  /\ -90 <= Pin.lat (ex_store 0%nat) <= 90
  /\ exists sel t' waypoints,
       selectRoute (ex_world 1200 None) ex_store ex_start ex_dest ex_pins []
         = (Returns sel, t')
       /\ fetchedUrls t' =
          fetchedUrls [] ++
          [ex_start; ex_dest] ::
          map (fun wp => [ex_start; wp; ex_dest]) waypoints
       /\ map (getDistanceMeters (ex_store 0%nat)) waypoints
          = [300; 300; 600; 600; 1000; 1000; 1500; 1500].
Proof.
  assert (L : -90 <= Pin.lat (ex_store 0%nat) <= 90) by (simpl; lra).
  split; [reflexivity|]. split; [apply ex_direct_conflicts'|].
  split; [exact L|].
  exact (X15_waypoints_at_offset (ex_world 1200 None) ex_store ex_start
           ex_dest ex_pins ex_direct 0%nat [] [] eq_refl
           ex_direct_conflicts' L).
Defined.



(** X17: a calculation that returns a non-empty route returns the
    coordinates, latitude and longitude swapped back, of the first route
    the routing provider gave for one of the requests the calculation
    made, with the formatted duration of that same route. *)
Theorem X17_route_from_provider (w : World) (h : Store)
    (start destinationLoc : LatLng) (destinationName : string)
    (pins : list ref) (t : list Event) (r : RouteResponse.t)
    (t' : list Event) :
  getSafeRoute w h start destinationLoc destinationName pins t
    = (Returns r, t') ->
  RouteResponse.route r <> [] ->
  exists urls url x,
    fetchedUrls t' = fetchedUrls t ++ urls
    /\ In url urls
    /\ firstRoute w url = Some x
    /\ RouteResponse.route r = map toLatLng (coordinates x)
    /\ RouteResponse.duration r = Some (formatDuration (duration x)).
Proof. apply returned_route_from_provider. Qed.

Lemma X17_route_from_provider_witness :
  let w := ex_world 1200 (Some (mkResponse None)) in
  exists r t',
    getSafeRoute w ex_store ex_start ex_dest "Library" [] [] = (Returns r, t')
    /\ RouteResponse.route r <> []
    /\ exists urls url x,
         fetchedUrls t' = fetchedUrls [] ++ urls
         /\ In url urls
         /\ firstRoute w url = Some x
         /\ RouteResponse.route r = map toLatLng (coordinates x)
         /\ RouteResponse.duration r = Some (formatDuration (duration x)).
Proof.
  intros w.
  destruct (safety_note_rules w ex_store ex_start ex_dest "Library" []
              [] _ _ (mkResponse None)
              (ex_selected_no_pins 1200 (Some (mkResponse None)) [])
              eq_refl) as (note & t' & E & _).
  assert (Hne : RouteResponse.route
                  (RouteResponse.mk
                     (coords (directCandidate ex_store ex_start ex_dest []
                                ex_direct))
                     (Some (formatDuration
                              (duration (data (directCandidate ex_store
                                 ex_start ex_dest [] ex_direct)))))
                     (Some note)) <> []) by (simpl; discriminate).
  eexists _, t'. split; [exact E|]. split; [exact Hne|].
  exact (X17_route_from_provider w ex_store ex_start ex_dest "Library" []
           [] _ t' E Hne).
Defined.

Lemma X18_formatDuration_threshold_witness :
  0 <= 590
  /\ exists N : Z,
       formatDuration 590 = renderMinutes N
       /\ 590 <= IZR (60 * N)
       /\ IZR (60 * N) < 590 * 1.2 + 60
       /\ (590 <= 2950 <-> (N < 60)%Z)
       /\ (590 = 0 <-> N = 0%Z)
       /\ (0 <= N mod 60 < 60)%Z
       /\ (2950 < 590 <-> (1 <= N / 60)%Z).
Proof.
  split; [lra | apply (X18_formatDuration_threshold 590); lra].
Defined.

Lemma X19_formatDuration_monotone_witness :
  0 <= 590 /\ 590 <= 3600
  /\ exists N1 N2 : Z,
       formatDuration 590 = renderMinutes N1
       /\ formatDuration 3600 = renderMinutes N2
       /\ (0 <= N1 <= N2)%Z
       /\ IZR N1 - 1 < 590 * 1.2 / 60 <= IZR N1
       /\ IZR N2 - 1 < 3600 * 1.2 / 60 <= IZR N2.
Proof.
  split; [lra|]. split; [lra|].
  apply (X19_formatDuration_monotone 590 3600); lra.
Defined.

Lemma X20_add_then_remove_witness :
  let b := mkBrowser (ItemPins [ex_hazard; ex_far]) 4 in
  let pin := mkPinInput 37.7749 (-122.4194) DANGER
               "No description provided." "user" in
  (forall p, In p (getLocalPinsSync b) -> Pin.id p <> "k3x9q0a"%string)
  /\ (let (newPin, b') := addPin pin "k3x9q0a" 1700000000000 b in
      Pin.id newPin = "k3x9q0a"%string
      /\ getLocalPinsSync b' = [ex_hazard; ex_far; newPin]
      /\ getLocalPinsSync (removePin (Pin.id newPin) b')
         = [ex_hazard; ex_far]).
Proof.
  intros b pin.
  assert (F : forall p, In p (getLocalPinsSync b) ->
                        Pin.id p <> "k3x9q0a"%string).
  { intros p [<-|[<-|[]]]; discriminate. }
  split; [exact F|].
  pose proof (X20_add_then_remove pin "k3x9q0a" 1700000000000 b F) as H.
  cbv zeta in *. unfold addPin in *. simpl in H |- *.
  destruct H as [H1 H2]. split; [exact H1|]. split; [reflexivity|exact H2].
Defined.

Lemma X28_bracket_span_witness :
  let text := [72; 101; 114; 101; 58; 32; 91; 49; 44; 50; 93; 46]%N in
  let jsonStr := trim (removeAll FENCE (removeAll FENCE_JSON text)) in
  indexOf LBRACKET jsonStr = Some 6%nat
  /\ lastIndexOf RBRACKET jsonStr = Some 10%nat
  /\ exists pre mid post,
       jsonStr = pre ++ [LBRACKET] ++ mid ++ [RBRACKET] ++ post
       /\ ~ In LBRACKET pre /\ ~ In RBRACKET post
       /\ jsonCandidate text = [LBRACKET] ++ mid ++ [RBRACKET].
Proof.
  intros text jsonStr.
  split; [reflexivity|]. split; [reflexivity|].
  apply (proj1 (X28_bracket_span text 6 10 eq_refl eq_refl)). lia.
Defined.

Lemma X29_fence_unwrapped_witness :
  ~ In BACKTICK [91; 93]%N
  /\ jsonCandidate (FENCE_JSON ++ [91; 93]%N ++ FENCE)
     = jsonCandidate [91; 93]%N.
Proof.
  assert (H : ~ In BACKTICK [91; 93]%N).
  { simpl. unfold BACKTICK. intros [E|[E|[]]]; discriminate. }
  split; [exact H | exact (proj1 (X29_fence_unwrapped [91; 93]%N H))].
Defined.
